(** * CloudTrail-Log-Parser: rule evaluation, record filtering, validation

    A shallow embedding of the filtering core of the CloudTrail log parser
    (packages [utils], [rules], [cloudtrailprocessor], [processor] and
    [retry]) together with the properties that its specification states
    about it.

    Conventions of the embedding:
    - a Go [string] and a Go [[]byte] are both a [string] of Rocq (a
      sequence of bytes);
    - a decoded record, [map[string]any], is a [gmap string value];
    - Go's [nil] of type [any] and the JSON value [null] are the same
      value, [VNull];
    - a Go [error] is an [option string]: [None] is [nil], [Some msg] an
      error whose [Error()] text is [msg];
    - the regular-expression engine ([regexp.Compile],
      [Regexp.MatchString]) and the JSON decoder are libraries the
      program links against: the embedding is parameterised by them
      ([RegexpEngine], [JsonDecoder]) and the general theorems hold for
      every engine and decoder.  A concrete engine and a concrete decoder
      for small fragments are given for running the program on examples. *)

From stdpp Require Import base strings gmap list option.
From Stdlib Require Import Ascii String ZArith NArith Lia DecimalString.

Open Scope string_scope.

(** ** Values of a decoded JSON document *)

#[warnings="-register-all"]
Inductive value : Type :=
  | VNull
  | VBool (b : bool)
  | VNumber (n : string)
  | VString (s : string)
  | VArray (l : list value)
  | VMap (m : gmap string value).

Definition is_map (v : value) : bool :=
  match v with VMap _ => true | _ => false end.

Definition is_string (v : value) : bool :=
  match v with VString _ => true | _ => false end.

Definition error : Type := option string.

(** A Go result pair [(value, error)] of which one component is nil. *)
Inductive result (A : Type) : Type :=
  | Ok (a : A)
  | Err (msg : string).
Arguments Ok {A} a.
Arguments Err {A} msg.

(** ** Go's [strings] and [bytes] helpers used by the program *)

Module gostrings.

(** [strings.Split(s, sep)] for a one-byte separator. *)
Fixpoint Split (s : string) (sep : ascii) : list string :=
  match s with
  | EmptyString => [EmptyString]
  | String c r =>
      if Ascii.eqb c sep then EmptyString :: Split r sep
      else match Split r sep with
           | h :: t => String c h :: t
           | [] => [String c EmptyString]
           end
  end.

(** [strings.HasPrefix(s, prefix)] *)
Fixpoint HasPrefix (s prefix : string) : bool :=
  match prefix, s with
  | EmptyString, _ => true
  | String p prefix', String c s' => Ascii.eqb c p && HasPrefix s' prefix'
  | String _ _, EmptyString => false
  end.

(** [strings.Contains(s, substr)], [bytes.Contains(b, subslice)] *)
Fixpoint Contains (s substr : string) : bool :=
  HasPrefix s substr ||
  match s with
  | EmptyString => false
  | String _ s' => Contains s' substr
  end.

(** [bytes.IndexByte(b, c)]: [None] stands for [-1]. *)
Fixpoint IndexByte (s : string) (c : ascii) : option nat :=
  match s with
  | EmptyString => None
  | String d r =>
      if Ascii.eqb d c then Some 0 else S <$> IndexByte r c
  end.

(** The slices [s[n:]], [s[:n]] and [s[i:j]]. *)
Fixpoint drop (n : nat) (s : string) : string :=
  match n, s with
  | 0, _ => s
  | S n', String _ r => drop n' r
  | S _, EmptyString => EmptyString
  end.

Fixpoint take (n : nat) (s : string) : string :=
  match n, s with
  | 0, _ => EmptyString
  | S n', String c r => String c (take n' r)
  | S _, EmptyString => EmptyString
  end.


(** [strings.HasSuffix(s, suffix)] *)
Definition HasSuffix (s suffix : string) : bool :=
  (String.length suffix <=? String.length s)%nat &&
  String.eqb (drop (String.length s - String.length suffix) s) suffix.

End gostrings.

(** ** Package [utils] *)

Module utils.

(** [findField], utils.go: walk the nested maps along [path]. *)
Fixpoint findField (obj : gmap string value) (path : list string)
  : bool * value :=
  match path with
  | [] => (false, VNull)
  | field :: rest =>
      match obj !! field with
      | None => (false, VNull)
      | Some (VMap nested) => findField nested rest
      | Some val =>
          if (List.length path =? 1)%nat then (true, val)
          else (false, VNull)
      end
  end.

(** [FieldExists], utils.go *)
Definition FieldExists (field : string) (event : gmap string value)
  : bool * value :=
  let path := gostrings.Split field "." in
  findField event path.

(** The loop of [IsFieldPresent]: [currentMap] is the map the walk has
    reached. *)
Fixpoint IsFieldPresent_loop (currentMap : gmap string value)
  (parts : list string) : bool * value :=
  match parts with
  | [] => (false, VNull)
  | part :: rest =>
      match currentMap !! part with
      | Some (VMap nestedMap) => IsFieldPresent_loop nestedMap rest
      | Some value => (true, value)
      | None => (false, VNull)
      end
  end.

(** [IsFieldPresent], utils.go *)
Definition IsFieldPresent (field : string) (event : gmap string value)
  : bool * value :=
  let parts := gostrings.Split field "." in
  IsFieldPresent_loop event parts.

(** [ExtractStringField], utils.go *)
Definition ExtractStringField (evt : gmap string value) (key : string)
  : string :=
  match evt !! key with
  | None => "unknown"
  | Some (VString strValue) => strValue
  | Some _ => "unknown"
  end.

End utils.

(** ** The regular-expression library

    [regexp.Compile] and [Regexp.MatchString] of Go's standard library.
    [Compile] answers [None] where Go returns an error. *)

Class RegexpEngine : Type := {
  Regexp : Type;
  Compile : string → option Regexp;
  MatchString : Regexp → string → bool
}.

(** A reference engine for a fragment of the RE2 syntax: an optional
    leading [^], then atoms, each optionally followed by [*], then an
    optional trailing [$].  An atom is a byte that is not a
    metacharacter, [.], a backslash followed by an ASCII punctuation byte
    (that byte, literally), [\w] or [\d].  On ASCII patterns of this
    fragment and ASCII texts it agrees with Go's [regexp]; patterns
    outside the fragment are not compiled by it. *)

Module re2.

Definition in_range (lo hi : N) (c : ascii) : bool :=
  (lo <=? N_of_ascii c)%N && (N_of_ascii c <=? hi)%N.

Definition is_digit (c : ascii) : bool := in_range 48 57 c.
Definition is_upper (c : ascii) : bool := in_range 65 90 c.
Definition is_lower (c : ascii) : bool := in_range 97 122 c.
Definition is_alpha (c : ascii) : bool := is_upper c || is_lower c.
Definition is_alnum (c : ascii) : bool := is_alpha c || is_digit c.
(** The Perl class [\w]: [[0-9A-Za-z_]]. *)
Definition is_word (c : ascii) : bool := is_alnum c || Ascii.eqb c "_".

Definition is_meta (c : ascii) : bool :=
  existsb (Ascii.eqb c)
    ["\"; "."; "+"; "*"; "?"; "("; ")"; "|"; "["; "]"; "{"; "}"; "^"; "$"]%char.

Inductive atom : Type :=
  | ALit (c : ascii)
  | AAny
  | AWord
  | ADigit.

Record item : Type := { it_atom : atom; it_star : bool }.

Record prog : Type := {
  anchored_start : bool;
  items : list item;
  anchored_end : bool
}.

Definition parse_atom (s : string) : option (atom * string) :=
  match s with
  | String "\" (String c r) =>
      if Ascii.eqb c "w" then Some (AWord, r)
      else if Ascii.eqb c "d" then Some (ADigit, r)
      else if (N_of_ascii c <? 128)%N && negb (is_alnum c)
           then Some (ALit c, r)
      else None
  | String "." r => Some (AAny, r)
  | String c r => if is_meta c then None else Some (ALit c, r)
  | EmptyString => None
  end.

Fixpoint parse_items (fuel : nat) (s : string)
  : option (list item * bool) :=
  match fuel with
  | 0 => None
  | S fuel' =>
      match s with
      | EmptyString => Some ([], false)
      | String "$" EmptyString => Some ([], true)
      | _ =>
          match parse_atom s with
          | None => None
          | Some (a, String "*" r) =>
              match parse_items fuel' r with
              | Some (its, e) =>
                  Some ({| it_atom := a; it_star := true |} :: its, e)
              | None => None
              end
          | Some (a, r) =>
              match parse_items fuel' r with
              | Some (its, e) =>
                  Some ({| it_atom := a; it_star := false |} :: its, e)
              | None => None
              end
          end
      end
  end.

Definition compile (pattern : string) : option prog :=
  let '(start, body) :=
    match pattern with
    | String "^" r => (true, r)
    | _ => (false, pattern)
    end in
  match parse_items (S (String.length body)) body with
  | Some (its, e) =>
      Some {| anchored_start := start; items := its; anchored_end := e |}
  | None => None
  end.

Definition accepts (a : atom) (c : ascii) : bool :=
  match a with
  | ALit d => Ascii.eqb c d
  | AAny => negb (Ascii.eqb c "010")
  | AWord => is_word c
  | ADigit => is_digit c
  end.

Fixpoint match_here (its : list item) (at_end : bool) (text : string)
  : bool :=
  match its with
  | [] => if at_end then String.eqb text EmptyString else true
  | it :: rest =>
      if it_star it then
        (fix star (t : string) : bool :=
           match_here rest at_end t ||
           match t with
           | String c t' => accepts (it_atom it) c && star t'
           | EmptyString => false
           end) text
      else
        match text with
        | String c t' => accepts (it_atom it) c && match_here rest at_end t'
        | EmptyString => false
        end
  end.

Fixpoint search (its : list item) (at_end : bool) (text : string) : bool :=
  match_here its at_end text ||
  match text with
  | String _ t' => search its at_end t'
  | EmptyString => false
  end.

Definition matches (p : prog) (text : string) : bool :=
  if anchored_start p then match_here (items p) (anchored_end p) text
  else search (items p) (anchored_end p) text.

(** [regexp.MatchString(pattern, s)]: the first component of its
    result, [false] when the pattern does not compile. *)
Definition MatchString_pkg (pattern s : string) : bool :=
  match compile pattern with
  | Some p => matches p s
  | None => false
  end.

Definition engine : RegexpEngine :=
  {| Regexp := prog; Compile := compile; MatchString := matches |}.

End re2.

(** ** Package [rules] *)

Module rules.

(** *** rules.go *)

Record Match : Type := { FieldName : string; Regex : string }.

Record Rule : Type := { Name : string; Matches : list Match }.

Record Configuration : Type := { Rules : list Rule }.

Record DropedEvent : Type := { RuleName : string }.

(** The six screens of [containsReDoSPattern], as written in the
    source (Go raw strings). *)
Definition dangerousPatterns : list string :=
  [ "\(\.\*\)\+";
    "\(\.\+\)\+";
    "\(\w\+\)\*\w\*";
    "\(\d\+\)\+";
    "\(\.\*\)\*";
    "\(\[\^/\]\+\)\+/" ].

(** [containsReDoSPattern]: the loop returns [true] at the first screen
    that [regexp.MatchString] finds in the pattern. *)
Definition containsReDoSPattern (pattern : string) : bool :=
  existsb (fun dangerous => re2.MatchString_pkg dangerous pattern)
          dangerousPatterns.

Section WithEngine.
Context {E : RegexpEngine}.

(** [ValidateIsRegex], applied to the string of the validated field. *)
Definition ValidateIsRegex (pattern : string) : bool :=
  if containsReDoSPattern pattern then false
  else if (1000 <? String.length pattern)%nat then false
  else match Compile pattern with
       | Some _ => true
       | None => false
       end.

(** The loop of [Rule.Eval]: [b] is the running conjunction.  A value
    that is present but not a string takes the [continue] and leaves
    [b] as it is. *)
Fixpoint Rule_Eval_loop (matches : list Match) (evt : gmap string value)
  (b : bool) : bool * error :=
  match matches with
  | [] => (b, None)
  | m :: rest =>
      let '(exists_, v) := utils.FieldExists (FieldName m) evt in
      if exists_ then
        match v with
        | VString fieldValue =>
            match Compile (Regex m) with
            | None => (false, Some "invalid regex")
            | Some re =>
                let hasMatch := MatchString re fieldValue in
                Rule_Eval_loop rest evt (b && hasMatch)
            end
        | _ => Rule_Eval_loop rest evt b
        end
      else Rule_Eval_loop rest evt (b && exists_)
  end.

(** [Rule.Eval] *)
Definition Rule_Eval (mc : Rule) (evt : gmap string value)
  : bool * option DropedEvent * error :=
  match Rule_Eval_loop (Matches mc) evt true with
  | (_, Some err) => (false, Some {| RuleName := "" |}, Some err)
  | (b, None) =>
      let dropEvent :=
        if b then {| RuleName := Name mc |} else {| RuleName := "" |} in
      (b, Some dropEvent, None)
  end.

(** [Configuration.EvalRules] *)
Fixpoint Configuration_EvalRules_loop (rs : list Rule)
  (evt : gmap string value) : bool * option DropedEvent * error :=
  match rs with
  | [] => (false, None, None)
  | rule :: rest =>
      match Rule_Eval rule evt with
      | (_, _, Some err) => (false, None, Some err)
      | (true, dropedEvent, None) => (true, dropedEvent, None)
      | (false, _, None) => Configuration_EvalRules_loop rest evt
      end
  end.

Definition Configuration_EvalRules (cr : Configuration)
  (evt : gmap string value) : bool * option DropedEvent * error :=
  Configuration_EvalRules_loop (Rules cr) evt.

(** *** The compiled rule set *)

Record CachedMatch : Type := { CFieldName : string; Pattern : Regexp }.

Record CachedRule : Type := { CName : string; CMatches : list CachedMatch }.

Record CachedConfiguration : Type := { CRules : list CachedRule }.

(** [getOrCompileRegex]: the process-wide [regexCache.patterns] is
    passed in and handed back. *)
Definition getOrCompileRegex (pattern : string)
  (cache : gmap string Regexp) : option Regexp * gmap string Regexp :=
  match cache !! pattern with
  | Some re => (Some re, cache)
  | None =>
      match Compile pattern with
      | None => (None, cache)
      | Some re => (Some re, <[pattern := re]> cache)
      end
  end.

(** The inner loop of [PrepareConfiguration], over the matches of one
    rule. *)
Fixpoint prepareMatches (ms : list Match) (cache : gmap string Regexp)
  : option (list CachedMatch) * gmap string Regexp :=
  match ms with
  | [] => (Some [], cache)
  | m :: rest =>
      match getOrCompileRegex (Regex m) cache with
      | (None, cache') => (None, cache')
      | (Some pattern, cache') =>
          match prepareMatches rest cache' with
          | (None, cache'') => (None, cache'')
          | (Some cms, cache'') =>
              (Some ({| CFieldName := FieldName m; Pattern := pattern |}
                       :: cms), cache'')
          end
      end
  end.

(** The outer loop of [PrepareConfiguration], over the rules. *)
Fixpoint prepareRules (rs : list Rule) (cache : gmap string Regexp)
  : option (list CachedRule) * gmap string Regexp :=
  match rs with
  | [] => (Some [], cache)
  | rule :: rest =>
      match prepareMatches (Matches rule) cache with
      | (None, cache') => (None, cache')
      | (Some cms, cache') =>
          match prepareRules rest cache' with
          | (None, cache'') => (None, cache'')
          | (Some crs, cache'') =>
              (Some ({| CName := Name rule; CMatches := cms |} :: crs),
               cache'')
          end
      end
  end.

(** [PrepareConfiguration]: [None] is the error return
    ("failed to compile regex for rule ..."). *)
Definition PrepareConfiguration (cfg : Configuration)
  (cache : gmap string Regexp)
  : option CachedConfiguration * gmap string Regexp :=
  match prepareRules (Rules cfg) cache with
  | (Some crs, cache') => (Some {| CRules := crs |}, cache')
  | (None, cache') => (None, cache')
  end.

(** The loop of [CachedRule.Eval]; it is left (break) as soon as
    [allMatch] is false. *)
Fixpoint CachedRule_Eval_loop (matches : list CachedMatch)
  (evt : gmap string value) (allMatch : bool) : bool :=
  match matches with
  | [] => allMatch
  | m :: rest =>
      let '(exists_, v) := utils.FieldExists (CFieldName m) evt in
      if exists_ then
        match v with
        | VString fieldValue =>
            let hasMatch := MatchString (Pattern m) fieldValue in
            let allMatch := allMatch && hasMatch in
            if negb allMatch then allMatch
            else CachedRule_Eval_loop rest evt allMatch
        | _ => false
        end
      else false
  end.

(** [CachedRule.Eval] *)
Definition CachedRule_Eval (cr : CachedRule) (evt : gmap string value)
  : bool * option DropedEvent * error :=
  let allMatch := CachedRule_Eval_loop (CMatches cr) evt true in
  let dropEvent :=
    if allMatch then {| RuleName := CName cr |}
    else {| RuleName := "" |} in
  (allMatch, Some dropEvent, None).

(** [CachedConfiguration.EvalRules] *)
Fixpoint CachedConfiguration_EvalRules_loop (rs : list CachedRule)
  (evt : gmap string value) : bool * option DropedEvent * error :=
  match rs with
  | [] => (false, None, None)
  | rule :: rest =>
      match CachedRule_Eval rule evt with
      | (_, _, Some err) => (false, None, Some err)
      | (true, dropedEvent, None) => (true, dropedEvent, None)
      | (false, _, None) => CachedConfiguration_EvalRules_loop rest evt
      end
  end.

Definition CachedConfiguration_EvalRules (cc : CachedConfiguration)
  (evt : gmap string value) : bool * option DropedEvent * error :=
  CachedConfiguration_EvalRules_loop (CRules cc) evt.

End WithEngine.

(** *** versioned.go *)

(** [validPath.MatchString(path)] for
    [^[a-zA-Z][a-zA-Z0-9_.\-]*$]: a letter, then any number of bytes of
    the class, up to the end of the text. *)
Definition validPath_class (c : ascii) : bool :=
  re2.is_alnum c || Ascii.eqb c "_" || Ascii.eqb c "." || Ascii.eqb c "-".

Fixpoint all_bytes (p : ascii → bool) (s : string) : bool :=
  match s with
  | EmptyString => true
  | String c r => p c && all_bytes p r
  end.

Definition validPath_MatchString (path : string) : bool :=
  match path with
  | EmptyString => false
  | String c r => re2.is_alpha c && all_bytes validPath_class r
  end.

(** [isValidFieldPath] *)
Definition isValidFieldPath (path : string) : bool :=
  if negb (validPath_MatchString path) then false
  else if gostrings.Contains path ".." || gostrings.HasPrefix path "."
          || gostrings.HasSuffix path "."
  then false
  else true.

(** [fmt.Sprintf("%d", i)] for an index. *)
Definition itoa (i : nat) : string := NilEmpty.string_of_uint (Nat.to_uint i).

Record ConfigMeta : Type := {
  Description : string;
  Author : string;
  CreatedAt : string;
  UpdatedAt : string;
  Tags : list string;
  Labels : gmap string string
}.

(** [VersionedConfiguration]; the rules are the rules themselves, not
    pointers that could be nil. *)
Record VersionedConfiguration : Type := {
  Version : string;
  VRules : list Rule;
  Meta : option ConfigMeta
}.

Record ValidationError : Type := {
  Field : string;
  Rule_ : string;
  Message : string
}.

(** [checkDuplicateRuleNames]: [seen] maps a name to the index where it
    was met; [i] is the index of the first rule of [rs]. *)
Fixpoint checkDuplicateRuleNames_loop (rs : list Rule) (i : nat)
  (seen : gmap string nat) : option ValidationError :=
  match rs with
  | [] => None
  | rule :: rest =>
      match seen !! Name rule with
      | Some prevIndex =>
          Some {| Field := "rules[" ++ itoa i ++ "].name";
                  Rule_ := Name rule;
                  Message := "duplicate rule name (also at index "
                             ++ itoa prevIndex ++ ")" |}
      | None =>
          checkDuplicateRuleNames_loop rest (S i) (<[Name rule := i]> seen)
      end
  end.

Definition checkDuplicateRuleNames (vc : VersionedConfiguration)
  : option ValidationError :=
  checkDuplicateRuleNames_loop (VRules vc) 0 ∅.

(** [validateFieldPaths]: the loop over the matches of the rule of index
    [i]; [j] is the index of the first match of [ms].  The warning that is
    logged for an unknown CloudTrail field has no part in the result. *)
Fixpoint validateFieldPaths_matches (i : nat) (ruleName : string)
  (ms : list Match) (j : nat) : list ValidationError :=
  match ms with
  | [] => []
  | m :: rest =>
      (if negb (isValidFieldPath (FieldName m))
       then [ {| Field := "rules[" ++ itoa i ++ "].matches[" ++ itoa j
                          ++ "].field_name";
                 Rule_ := ruleName;
                 Message := "invalid field path syntax: " ++ FieldName m |} ]
       else [])
      ++ validateFieldPaths_matches i ruleName rest (S j)
  end%list.

Fixpoint validateFieldPaths_loop (rs : list Rule) (i : nat)
  : list ValidationError :=
  match rs with
  | [] => []
  | rule :: rest =>
      (validateFieldPaths_matches i (Name rule) (Matches rule) 0
       ++ validateFieldPaths_loop rest (S i))%list
  end.

Definition validateFieldPaths (vc : VersionedConfiguration)
  : list ValidationError :=
  validateFieldPaths_loop (VRules vc) 0.

(** [ToConfiguration] *)
Definition ToConfiguration (vc : VersionedConfiguration) : Configuration :=
  {| Rules := VRules vc |}.

(** [ValidateSemver]: [semverRegex.MatchString(version)] for
    [^v?(\d+)\.(\d+)\.(\d+)(-[a-zA-Z0-9.]+)?(\+[a-zA-Z0-9.]+)?$].
    No two alternatives of this expression can read the same byte, so
    it is matched from left to right without backtracking. *)
Definition semver_ident_class (c : ascii) : bool :=
  re2.is_alnum c || Ascii.eqb c ".".

(** The longest prefix of bytes of the class, and what follows it. *)
Fixpoint span (p : ascii → bool) (s : string) : string * string :=
  match s with
  | String c r =>
      if p c then let '(a, b) := span p r in (String c a, b)
      else (EmptyString, s)
  | EmptyString => (EmptyString, EmptyString)
  end.

(** [\d+] and then the byte [sep]. *)
Definition semver_number_then (sep : ascii) (s : string) : option string :=
  match span re2.is_digit s with
  | (String _ _, String c rest) =>
      if Ascii.eqb c sep then Some rest else None
  | _ => None
  end.

(** [(\+[a-zA-Z0-9.]+)?$] *)
Definition semver_build (s : string) : bool :=
  match s with
  | EmptyString => true
  | String "+" r =>
      match span semver_ident_class r with
      | (String _ _, EmptyString) => true
      | _ => false
      end
  | _ => false
  end.

(** [(-[a-zA-Z0-9.]+)?(\+[a-zA-Z0-9.]+)?$] *)
Definition semver_prerelease (s : string) : bool :=
  match s with
  | String "-" r =>
      match span semver_ident_class r with
      | (String _ _, rest) => semver_build rest
      | _ => false
      end
  | _ => semver_build s
  end.

Definition ValidateSemver (version : string) : bool :=
  let s := match version with
           | String "v" r => r
           | _ => version
           end in
  match semver_number_then "." s with
  | None => false
  | Some s1 =>
      match semver_number_then "." s1 with
      | None => false
      | Some s2 =>
          match span re2.is_digit s2 with
          | (String _ _, rest) => semver_prerelease rest
          | _ => false
          end
      end
  end.

Section Versioned.
Context {E : RegexpEngine}.

(** The text of the error that [regexp.Compile] returns for a pattern. *)
Variable CompileErrorText : string → string.

(** [validateRules]: the loop over the matches of the rule of index [i];
    [j] is the index of the first match of [ms]. *)
Fixpoint validateRules_matches (i : nat) (ruleName : string)
  (ms : list Match) (j : nat) : list ValidationError :=
  match ms with
  | [] => []
  | m :: rest =>
      let at_ := "rules[" ++ itoa i ++ "].matches[" ++ itoa j ++ "]" in
      ((if String.eqb (FieldName m) EmptyString
        then [ {| Field := at_ ++ ".field_name";
                  Rule_ := ruleName;
                  Message := "field name cannot be empty" |} ]
        else [])
       ++ (if String.eqb (Regex m) EmptyString
           then [ {| Field := at_ ++ ".regex";
                     Rule_ := ruleName;
                     Message := "regex pattern cannot be empty" |} ]
           else [])
       ++ (match Compile (Regex m) with
           | None =>
               [ {| Field := at_ ++ ".regex";
                    Rule_ := ruleName;
                    Message := "invalid regex pattern: "
                               ++ CompileErrorText (Regex m) |} ]
           | Some _ => []
           end)
       ++ (if containsReDoSPattern (Regex m)
           then [ {| Field := at_ ++ ".regex";
                     Rule_ := ruleName;
                     Message := "potentially dangerous regex pattern detected (ReDoS vulnerability)" |} ]
           else [])
       ++ validateRules_matches i ruleName rest (S j))%list
  end.

Fixpoint validateRules_loop (rs : list Rule) (i : nat)
  : list ValidationError :=
  match rs with
  | [] => []
  | rule :: rest =>
      ((if String.eqb (Name rule) EmptyString
        then [ {| Field := "rules[" ++ itoa i ++ "].name";
                  Rule_ := Name rule;
                  Message := "rule name cannot be empty" |} ]
        else [])
       ++ (if (List.length (Matches rule) =? 0)%nat
           then [ {| Field := "rules[" ++ itoa i ++ "].matches";
                     Rule_ := Name rule;
                     Message := "rule must have at least one match" |} ]
           else [])
       ++ validateRules_matches i (Name rule) (Matches rule) 0
       ++ validateRules_loop rest (S i))%list
  end.

(** [validateRules]: the errors it collects; it returns nil when there
    are none. *)
Definition validateRules (vc : VersionedConfiguration)
  : list ValidationError :=
  validateRules_loop (VRules vc) 0.

(** What [Validate] returns: nil, the error of the struct validator, or
    the collected [ValidationErrors]. *)
Inductive validation : Type :=
  | Valid
  | StructInvalid (err : string)
  | Invalid (errors : list ValidationError).

(** [validate.Struct(vc)] of the validator library, with the [semver]
    and [is-regex] validators registered. *)
Variable validate_Struct : VersionedConfiguration → error.

(** [VersionedConfiguration.Validate] *)
Definition Validate (vc : VersionedConfiguration) : validation :=
  match validate_Struct vc with
  | Some err => StructInvalid err
  | None =>
      let errors :=
        (validateRules vc
         ++ match checkDuplicateRuleNames vc with
            | Some err => [err]
            | None => []
            end
         ++ validateFieldPaths vc)%list in
      if (0 <? List.length errors)%nat then Invalid errors else Valid
  end.

(** [DryRunResult]; [FilterRate] is the quotient, in floating point, of
    the two integers of the pair that stands for it here. *)
Record DryRunResult : Type := {
  TotalEvents : Z;
  FilteredCount : Z;
  PassedCount : Z;
  FilterRate : Z * Z;
  RuleHits : gmap string Z
}.

(** The loop of [DryRun] over the events: the count of filtered events
    and the hits by rule so far.  [dropEvent.RuleName] is read through
    the pointer that [EvalRules] returns with [true]; a nil pointer
    there, which [EvalRules] never returns, ends the run. *)
Fixpoint DryRun_loop (cachedCfg : CachedConfiguration)
  (events : list (gmap string value)) (filtered : Z) (hits : gmap string Z)
  : result (Z * gmap string Z) :=
  match events with
  | [] => Ok (filtered, hits)
  | event :: rest =>
      match CachedConfiguration_EvalRules cachedCfg event with
      | (_, _, Some err) => Err "failed to evaluate rules"
      | (true, Some dropEvent, None) =>
          DryRun_loop cachedCfg rest (filtered + 1)
            (<[RuleName dropEvent :=
                 (default 0 (hits !! RuleName dropEvent) + 1)%Z]> hits)
      | (true, None, None) => Err "nil pointer dereference"
      | (false, _, None) => DryRun_loop cachedCfg rest filtered hits
      end
  end.

(** [DryRun]; the pattern cache is passed in and handed back. *)
Definition DryRun (vc : VersionedConfiguration)
  (sampleEvents : list (gmap string value)) (cache : gmap string Regexp)
  : result DryRunResult * gmap string Regexp :=
  match PrepareConfiguration (ToConfiguration vc) cache with
  | (None, cache') => (Err "failed to prepare configuration", cache')
  | (Some cachedCfg, cache') =>
      match DryRun_loop cachedCfg sampleEvents 0 ∅ with
      | Err e => (Err e, cache')
      | Ok (filtered, hits) =>
          let total := Z.of_nat (List.length sampleEvents) in
          (Ok {| TotalEvents := total;
                 FilteredCount := filtered;
                 PassedCount := total - filtered;
                 FilterRate := (filtered, total);
                 RuleHits := hits |}, cache')
      end
  end.

End Versioned.

End rules.

(** ** The JSON library

    [json.Unmarshal] of [github.com/segmentio/encoding/json].
    [json_decode data] is the value of the JSON text [data], [None] where
    the text is not one JSON value. *)

Class JsonDecoder : Type := {
  json_decode : string → option value
}.

(** [json.Unmarshal(data, &rec)] for [rec] of type [map[string]any]: a
    JSON object is stored into the map that [rec] holds (entries already
    there stay unless the object has the key), [null] sets [rec] to the
    nil map, any other value is an error. *)
Definition Unmarshal_map `{JsonDecoder} (data : string)
  (rec : gmap string value) : option (gmap string value) :=
  match json_decode data with
  | Some (VMap m) => Some (m ∪ rec)
  | Some VNull => Some ∅
  | _ => None
  end.

(** A reference decoder for JSON texts (RFC 8259) whose strings use no
    [\u] escape; numbers are kept as their text. *)

Module json.

Definition quote : ascii := "034".

Definition is_ws (c : ascii) : bool :=
  existsb (Ascii.eqb c) [" "; "009"; "010"; "013"]%char.

Fixpoint skip_ws (s : string) : string :=
  match s with
  | String c r => if is_ws c then skip_ws r else s
  | EmptyString => s
  end.

Definition unescape (e : ascii) : option ascii :=
  if Ascii.eqb e quote then Some quote
  else if Ascii.eqb e "\" then Some "\"%char
  else if Ascii.eqb e "/" then Some "/"%char
  else if Ascii.eqb e "b" then Some "008"%char
  else if Ascii.eqb e "f" then Some "012"%char
  else if Ascii.eqb e "n" then Some "010"%char
  else if Ascii.eqb e "r" then Some "013"%char
  else if Ascii.eqb e "t" then Some "009"%char
  else None.

(** The characters of a string literal, after its opening quote. *)
Fixpoint parse_chars (s : string) : option (string * string) :=
  match s with
  | EmptyString => None
  | String c r =>
      if Ascii.eqb c quote then Some (EmptyString, r)
      else if Ascii.eqb c "\" then
        match r with
        | String e r' =>
            match unescape e, parse_chars r' with
            | Some ch, Some (str, rest) => Some (String ch str, rest)
            | _, _ => None
            end
        | EmptyString => None
        end
      else if (N_of_ascii c <? 32)%N then None
      else match parse_chars r with
           | Some (str, rest) => Some (String c str, rest)
           | None => None
           end
  end.

Inductive num_state : Type :=
  | NStart | NMinus | NZero | NInt | NFrac0 | NFrac | NExp0 | NExp1 | NExp.

Definition num_accepting (q : num_state) : bool :=
  match q with
  | NZero | NInt | NFrac | NExp => true
  | _ => false
  end.

Definition num_step (q : num_state) (c : ascii) : option num_state :=
  let digit := re2.is_digit c in
  let e := Ascii.eqb c "e" || Ascii.eqb c "E" in
  match q with
  | NStart =>
      if Ascii.eqb c "-" then Some NMinus
      else if Ascii.eqb c "0" then Some NZero
      else if digit then Some NInt else None
  | NMinus =>
      if Ascii.eqb c "0" then Some NZero
      else if digit then Some NInt else None
  | NZero =>
      if Ascii.eqb c "." then Some NFrac0
      else if e then Some NExp0 else None
  | NInt =>
      if digit then Some NInt
      else if Ascii.eqb c "." then Some NFrac0
      else if e then Some NExp0 else None
  | NFrac0 => if digit then Some NFrac else None
  | NFrac =>
      if digit then Some NFrac
      else if e then Some NExp0 else None
  | NExp0 =>
      if Ascii.eqb c "+" || Ascii.eqb c "-" then Some NExp1
      else if digit then Some NExp else None
  | NExp1 => if digit then Some NExp else None
  | NExp => if digit then Some NExp else None
  end.

(** The longest number literal at the head of [s]. *)
Fixpoint parse_number (q : num_state) (s : string)
  : option (string * string) :=
  match s with
  | String c r =>
      match num_step q c with
      | Some q' =>
          match parse_number q' r with
          | Some (n, rest) => Some (String c n, rest)
          | None => None
          end
      | None => if num_accepting q then Some (EmptyString, s) else None
      end
  | EmptyString => if num_accepting q then Some (EmptyString, s) else None
  end.

Definition parse_literal (s : string) : option (value * string) :=
  if gostrings.HasPrefix s "true" then Some (VBool true, gostrings.drop 4 s)
  else if gostrings.HasPrefix s "false"
  then Some (VBool false, gostrings.drop 5 s)
  else if gostrings.HasPrefix s "null" then Some (VNull, gostrings.drop 4 s)
  else match parse_number NStart s with
       | Some (n, rest) => Some (VNumber n, rest)
       | None => None
       end.

Fixpoint parse_value (fuel : nat) (s : string) : option (value * string) :=
  match fuel with
  | 0 => None
  | S fuel' =>
      match skip_ws s with
      | String "{" r =>
          match skip_ws r with
          | String "}" r' => Some (VMap ∅, r')
          | r' => parse_members fuel' r' ∅
          end
      | String "[" r =>
          match skip_ws r with
          | String "]" r' => Some (VArray [], r')
          | r' => parse_elements fuel' r' []
          end
      | String "034" r =>
          match parse_chars r with
          | Some (str, rest) => Some (VString str, rest)
          | None => None
          end
      | s' => parse_literal s'
      end
  end
with parse_members (fuel : nat) (s : string) (acc : gmap string value)
  : option (value * string) :=
  match fuel with
  | 0 => None
  | S fuel' =>
      match skip_ws s with
      | String "034" r =>
          match parse_chars r with
          | Some (key, rest) =>
              match skip_ws rest with
              | String ":" rest' =>
                  match parse_value fuel' rest' with
                  | Some (v, rest'') =>
                      match skip_ws rest'' with
                      | String "," t =>
                          parse_members fuel' t (<[key := v]> acc)
                      | String "}" t => Some (VMap (<[key := v]> acc), t)
                      | _ => None
                      end
                  | None => None
                  end
              | _ => None
              end
          | None => None
          end
      | _ => None
      end
  end
with parse_elements (fuel : nat) (s : string) (acc : list value)
  : option (value * string) :=
  match fuel with
  | 0 => None
  | S fuel' =>
      match parse_value fuel' s with
      | Some (v, rest) =>
          match skip_ws rest with
          | String "," t => parse_elements fuel' t (acc ++ [v])
          | String "]" t => Some (VArray (acc ++ [v]), t)
          | _ => None
          end
      | None => None
      end
  end.

Definition decode (data : string) : option value :=
  match parse_value (S (S (String.length data))) data with
  | Some (v, rest) =>
      match skip_ws rest with
      | EmptyString => Some v
      | _ => None
      end
  | None => None
  end.

Definition decoder : JsonDecoder := {| json_decode := decode |}.

(** JSON texts are written with ['] for the double quote in the
    examples of this file. *)
Fixpoint dq (s : string) : string :=
  match s with
  | String c r => String (if Ascii.eqb c "'" then quote else c) (dq r)
  | EmptyString => EmptyString
  end.

End json.


(** ** Package [cloudtrailprocessor] (batch path) *)


Module cloudtrailprocessor.

Record Cloudtrail : Type := { Records : list string }.

(** [recordMapPool]: the maps that are currently in the pool.  [Get]
    takes one of them, or makes a new map when the pool is empty. *)
Definition recordMapPool_Get (pool : list (gmap string value))
  : gmap string value * list (gmap string value) :=
  match pool with
  | [] => (∅, [])
  | m :: pool' => (m, pool')
  end.

Definition recordMapPool_Put (m : gmap string value)
  (pool : list (gmap string value)) : list (gmap string value) :=
  m :: pool.

(** [for k := range rec { delete(rec, k) }] *)
Definition clear (rec : gmap string value) : gmap string value :=
  map_fold (fun k _ acc => delete k acc) rec rec.

Definition batchSize : nat := 100.

Section WithLibraries.
Context {E : RegexpEngine} {D : JsonDecoder}.

(** The body of the inner loop of [FilterRecords], for the record
    [inct.Records[j]]: [out] is [outCloudTrail.Records].  When
    [json.Unmarshal] fails the map it was writing into is cleared
    and put back all the same. *)
Definition filterRecord (cachedCfg : rules.CachedConfiguration)
  (record : string) (out : list string)
  (pool : list (gmap string value))
  : result (list string) * list (gmap string value) :=
  let '(rec, pool) := recordMapPool_Get pool in
  match Unmarshal_map record rec with
  | None =>
      (Err "unmarshal record failed", recordMapPool_Put ∅ pool)
  | Some rec =>
      match rules.CachedConfiguration_EvalRules cachedCfg rec with
      | (_, _, Some err) => (Err err, recordMapPool_Put (clear rec) pool)
      | (true, _, None) => (Ok out, recordMapPool_Put (clear rec) pool)
      | (false, _, None) =>
          (Ok (out ++ [record])%list, recordMapPool_Put (clear rec) pool)
      end
  end.

(** [for j := i; j < end; j++]: [n] is [end - j]. *)
Fixpoint FilterRecords_inner (cachedCfg : rules.CachedConfiguration)
  (records : list string) (n j : nat) (out : list string)
  (pool : list (gmap string value))
  : result (list string) * list (gmap string value) :=
  match n with
  | 0 => (Ok out, pool)
  | S n' =>
      match records !! j with
      | None => (Err "index out of range", pool)
      | Some record =>
          match filterRecord cachedCfg record out pool with
          | (Ok out', pool') =>
              FilterRecords_inner cachedCfg records n' (S j) out' pool'
          | (Err e, pool') => (Err e, pool')
          end
      end
  end.

(** [for i := 0; i < len(inct.Records); i += batchSize]; [fuel]
    bounds the number of batches. *)
Fixpoint FilterRecords_outer (cachedCfg : rules.CachedConfiguration)
  (records : list string) (fuel i : nat) (out : list string)
  (pool : list (gmap string value))
  : result (list string) * list (gmap string value) :=
  if (i <? List.length records)%nat then
    match fuel with
    | 0 => (Err "out of fuel", pool)
    | S fuel' =>
        let end_ := Nat.min (i + batchSize) (List.length records) in
        match FilterRecords_inner cachedCfg records (end_ - i) i out pool
        with
        | (Ok out', pool') =>
            FilterRecords_outer cachedCfg records fuel' (i + batchSize)
                                out' pool'
        | (Err e, pool') => (Err e, pool')
        end
    end
  else (Ok out, pool).

(** [FilterRecords] *)
Definition FilterRecords (inct : Cloudtrail)
  (cachedCfg : rules.CachedConfiguration)
  (pool : list (gmap string value))
  : result Cloudtrail * list (gmap string value) :=
  match FilterRecords_outer cachedCfg (Records inct)
          (List.length (Records inct)) 0 [] pool with
  | (Ok out, pool') => (Ok {| Records := out |}, pool')
  | (Err e, pool') => (Err e, pool')
  end.

(** [FilterRecordsWithConfig]: the configuration is compiled first, with
    the pattern cache, which is handed back. *)
Definition FilterRecordsWithConfig (inct : Cloudtrail)
  (rulesCfg : rules.Configuration) (cache : gmap string Regexp)
  (pool : list (gmap string value))
  : result Cloudtrail * gmap string Regexp * list (gmap string value) :=
  match rules.PrepareConfiguration rulesCfg cache with
  | (None, cache') =>
      (Err "failed to prepare rules configuration", cache', pool)
  | (Some cachedCfg, cache') =>
      let '(r, pool') := FilterRecords inct cachedCfg pool in
      (r, cache', pool')
  end.

End WithLibraries.

End cloudtrailprocessor.

(** ** Package [processor] (streaming path) *)

Module processor.

Record ProcessingResult : Type := {
  ProcessedCount : Z;
  FilteredCount : Z;
  OutputSize : Z
}.

(** The calls received by the [MetricsCollector] of the processor. *)
Inductive metric : Type :=
  | RecordProcessed (count : Z)
  | RecordFiltered (count : Z)
  | RecordError (err : string).

(** [io.Writer]: [Write w p] is [writer.Write(p)] on a writer in the
    state [w]; it gives the state of the writer afterwards, whether the
    write succeeded or not, and the error.  The number of bytes that
    [Write] reports is not read by the program. *)
Class Writer (W : Type) : Type := {
  Write : W → string → W * error
}.

(** A [bytes.Buffer] as the writer: it takes every write. *)
#[global] Instance buffer : Writer string := {|
  Write := fun w p => ((w ++ p)%string, None)
|}.

Section State.
Context {W : Type}.

(** The variables of [ProcessStream] that live across the scan loop,
    the state of [writer] and the calls made to the metrics collector
    so far. *)
Record state : Type := {
  foundRecords : bool;
  inRecordsArray : bool;
  bracketDepth : Z;
  recordBuffer : string;
  firstRecord : bool;
  res : ProcessingResult;
  written : W;
  metrics : list metric
}.

End State.
Arguments state : clear implicits.

(** *** [bufio.Scanner] with [bufio.ScanLines] *)

Definition maxTokenSize : N := 10 * 1024 * 1024.

Fixpoint dropCR (line : string) : string :=
  match line with
  | String "013" EmptyString => EmptyString
  | String c r => String c (dropCR r)
  | EmptyString => EmptyString
  end.

(** The lines of the input: the text between newlines; an empty text
    after the last newline is no line. *)
Fixpoint rawLines (data : string) : list string :=
  match data with
  | EmptyString => []
  | String c r =>
      if Ascii.eqb c "010" then EmptyString :: rawLines r
      else match rawLines r with
           | h :: t => String c h :: t
           | [] => [String c EmptyString]
           end
  end.

(** The tokens that successive [scanner.Scan()] calls deliver and the
    final [scanner.Err()]: a line that does not fit the token buffer
    ends the scan with [bufio.ErrTooLong]. *)
Fixpoint scan (lines : list string) : list string * error :=
  match lines with
  | [] => ([], None)
  | l :: rest =>
      if (maxTokenSize <=? N.of_nat (String.length l))%N
      then ([], Some "bufio.Scanner: token too long")
      else let '(ls, e) := scan rest in (dropCR l :: ls, e)
  end.

(** *** [bytes.TrimSpace] *)

Definition byte_is (n : N) (c : ascii) : bool := (N_of_ascii c =? n)%N.

(** Is every rune of [s] white space ([unicode.IsSpace])?  Then
    [bytes.TrimSpace(s)] is empty. *)
Fixpoint all_space (s : string) : bool :=
  match s with
  | EmptyString => true
  | String c r =>
      if existsb (fun n => byte_is n c) [9; 10; 11; 12; 13; 32]%N
      then all_space r
      else
        match r with
        | String d r' =>
            if byte_is 194 c then
              (byte_is 133 d || byte_is 160 d) && all_space r'
            else
              match r' with
              | String e r'' =>
                  ((byte_is 225 c && byte_is 154 d && byte_is 128 e)
                   || (byte_is 226 c && byte_is 128 d &&
                       (re2.in_range 128 138 e || byte_is 168 e
                        || byte_is 169 e || byte_is 175 e))
                   || (byte_is 226 c && byte_is 129 d && byte_is 159 e)
                   || (byte_is 227 c && byte_is 128 d && byte_is 128 e))
                  && all_space r''
              | EmptyString => false
              end
        | EmptyString => false
        end
  end.

Definition records_token : string :=
  String json.quote ("Records" ++ String json.quote EmptyString).

Section WithLibraries.
Context {E : RegexpEngine} {D : JsonDecoder} {W : Type} {Wr : Writer W}.
Variable rules_ : rules.CachedConfiguration.

(** [shouldFilterRecord]: the record is decoded into a nil map. *)
Definition shouldFilterRecord (recordJSON : string) : bool * error :=
  match Unmarshal_map recordJSON ∅ with
  | None => (false, Some "failed to unmarshal record")
  | Some record =>
      match rules.CachedConfiguration_EvalRules rules_ record with
      | (_, _, Some err) => (false, Some "failed to evaluate rules")
      | (match_, _, None) => (match_, None)
      end
  end.

Definition add_processed (r : ProcessingResult) : ProcessingResult :=
  {| ProcessedCount := ProcessedCount r + 1;
     FilteredCount := FilteredCount r;
     OutputSize := OutputSize r |}.

Definition add_filtered (r : ProcessingResult) : ProcessingResult :=
  {| ProcessedCount := ProcessedCount r;
     FilteredCount := FilteredCount r + 1;
     OutputSize := OutputSize r |}.

(** The state with a new [*result], and with a new state of the
    writer. *)
Definition with_res (st : state W) (r : ProcessingResult) : state W :=
  {| foundRecords := foundRecords st;
     inRecordsArray := inRecordsArray st;
     bracketDepth := bracketDepth st;
     recordBuffer := recordBuffer st;
     firstRecord := firstRecord st;
     res := r;
     written := written st;
     metrics := metrics st |}.

Definition with_written (st : state W) (w : W) : state W :=
  {| foundRecords := foundRecords st;
     inRecordsArray := inRecordsArray st;
     bracketDepth := bracketDepth st;
     recordBuffer := recordBuffer st;
     firstRecord := firstRecord st;
     res := res st;
     written := w;
     metrics := metrics st |}.

(** [processRecord]: the new values of [*result], [*firstRecord], of
    the writer and of the metrics calls, and the error. *)
Definition processRecord (recordJSON : string) (st : state W)
  : state W * error :=
  let result1 := add_processed (res st) in
  match shouldFilterRecord recordJSON with
  | (_, Some err) => (with_res st result1, Some err)
  | (true, None) =>
      ({| foundRecords := foundRecords st;
          inRecordsArray := inRecordsArray st;
          bracketDepth := bracketDepth st;
          recordBuffer := recordBuffer st;
          firstRecord := firstRecord st;
          res := add_filtered result1;
          written := written st;
          metrics := (metrics st ++ [RecordFiltered 1])%list |}, None)
  | (false, None) =>
      let '(w, sepErr) :=
        if firstRecord st then (written st, None)
        else Write (written st) "," in
      match sepErr with
      | Some e =>
          (with_written (with_res st result1) w,
           Some ("failed to write separator: " ++ e))
      | None =>
          match Write w recordJSON with
          | (w', Some e) =>
              (with_written (with_res st result1) w',
               Some ("failed to write record: " ++ e))
          | (w', None) =>
              ({| foundRecords := foundRecords st;
                  inRecordsArray := inRecordsArray st;
                  bracketDepth := bracketDepth st;
                  recordBuffer := recordBuffer st;
                  firstRecord := false;
                  res := result1;
                  written := w';
                  metrics := (metrics st ++ [RecordProcessed 1])%list |},
               None)
          end
      end
  end.

(** The state with new values of [bracketDepth] and [recordBuffer]. *)
Definition with_buffer (st : state W) (depth : Z) (buf : string) : state W :=
  {| foundRecords := foundRecords st;
     inRecordsArray := inRecordsArray st;
     bracketDepth := depth;
     recordBuffer := buf;
     firstRecord := firstRecord st;
     res := res st;
     written := written st;
     metrics := metrics st |}.

Definition append_byte (buf : string) (b : ascii) : string :=
  buf ++ String b EmptyString.

(** One turn of [for _, b := range line], the [switch b]. *)
Definition byte_step (st : state W) (b : ascii) : state W :=
  if Ascii.eqb b "{" then
    let buf := if (bracketDepth st =? 0)%Z then EmptyString
               else recordBuffer st in
    with_buffer st (bracketDepth st + 1) (append_byte buf b)
  else if Ascii.eqb b "}" then
    let buf := append_byte (recordBuffer st) b in
    let depth := (bracketDepth st - 1)%Z in
    if (depth =? 0)%Z && (0 <? String.length buf)%nat then
      let '(st', err) := processRecord buf (with_buffer st depth buf) in
      let st'' :=
        match err with
        | Some e =>
            {| foundRecords := foundRecords st';
               inRecordsArray := inRecordsArray st';
               bracketDepth := bracketDepth st';
               recordBuffer := recordBuffer st';
               firstRecord := firstRecord st';
               res := res st';
               written := written st';
               metrics := (metrics st' ++ [RecordError e])%list |}
        | None => st'
        end in
      with_buffer st'' depth EmptyString
    else with_buffer st depth buf
  else if Ascii.eqb b "]" then
    if (bracketDepth st =? 0)%Z then
      {| foundRecords := foundRecords st;
         inRecordsArray := false;
         bracketDepth := bracketDepth st;
         recordBuffer := recordBuffer st;
         firstRecord := firstRecord st;
         res := res st;
         written := written st;
         metrics := metrics st |}
    else with_buffer st (bracketDepth st) (append_byte (recordBuffer st) b)
  else
    if (0 <? bracketDepth st)%Z
    then with_buffer st (bracketDepth st) (append_byte (recordBuffer st) b)
    else st.

(** [for _, b := range line { ... }] *)
Fixpoint bytes_loop (st : state W) (line : string) : state W :=
  match line with
  | EmptyString => st
  | String b rest => bytes_loop (byte_step st b) rest
  end.

Definition set_flags (st : state W) (found inArray : bool) : state W :=
  {| foundRecords := found;
     inRecordsArray := inArray;
     bracketDepth := bracketDepth st;
     recordBuffer := recordBuffer st;
     firstRecord := firstRecord st;
     res := res st;
     written := written st;
     metrics := metrics st |}.

(** The body of [for scanner.Scan()], for one line, up to the look at
    the context: the state, and whether the body ran to its end, where
    the context is looked at (the three [continue] statements go around
    that look). *)
Definition line_body (st : state W) (line : string) : state W * bool :=
  if all_space line then (st, false)
  else
    let '(st, line, skip) :=
      if negb (foundRecords st) then
        if gostrings.Contains line records_token then
          match gostrings.IndexByte line "[" with
          | Some idx =>
              (set_flags st true true, gostrings.drop (idx + 1) line,
               false)
          | None => (set_flags st true (inRecordsArray st), line, false)
          end
        else (st, line, true)
      else (st, line, false) in
    if skip then (st, false)
    else if negb (inRecordsArray st) then (st, false)
    else (bytes_loop st line, true).

(** The state after the body. *)
Definition line_step (st : state W) (line : string) : state W :=
  (line_body st line).1.

(** [for scanner.Scan() { ... }] over the tokens that the scanner
    delivers.  [ctx k] is what the [k]-th look at the context finds:
    [None] while the context is live, the error [ctx.Err()] once it is
    done.  The loop returns that error at once. *)
Variable ctx : nat → error.

Fixpoint lines_loop (lines : list string) (k : nat) (st : state W)
  : state W * error :=
  match lines with
  | [] => (st, None)
  | line :: rest =>
      let '(st', toEnd) := line_body st line in
      if toEnd then
        match ctx k with
        | Some e => (st', Some e)
        | None => lines_loop rest (S k) st'
        end
      else lines_loop rest k st'
  end.

Definition initial (output : W) : state W :=
  {| foundRecords := false;
     inRecordsArray := false;
     bracketDepth := 0;
     recordBuffer := EmptyString;
     firstRecord := true;
     res := {| ProcessedCount := 0; FilteredCount := 0; OutputSize := 0 |};
     written := output;
     metrics := [] |}.

(** [ProcessStream].  [reader] is what [setupReader] gives: its error,
    or the plain bytes that the reader delivers together with the error
    that ends the reading ([None] at the end of the input).  [output]
    is the writer that [setupWriter] returns; [setupWriter] returns no
    error on any path, so that the return on its error is never taken;
    the deferred [flush], whose error is dropped, is left to the writer.
    [ctx k] is what the [k]-th look at [ctx.Done()] finds: [None] while
    the context is live, [ctx.Err()] once it is done.
    The final state (with [*result], the writer and the metrics calls)
    and the returned error. *)
Definition ProcessStream (reader : result (string * error)) (output : W)
  : state W * error :=
  match reader with
  | Err e => (initial output, Some ("failed to setup reader: " ++ e))
  | Ok (input, readErr) =>
      match Write output ("{" ++ records_token ++ ":[") with
      | (w, Some e) =>
          (initial w, Some ("failed to write output header: " ++ e))
      | (w, None) =>
          let '(lines, tooLong) := scan (rawLines input) in
          match lines_loop lines 0 (initial w) with
          | (st, Some e) => (st, Some e)
          | (st, None) =>
              let scanErr :=
                match tooLong with
                | Some e => Some e
                | None => readErr
                end in
              match scanErr with
              | Some e => (st, Some ("scanner error: " ++ e))
              | None =>
                  match Write (written st) "]}" with
                  | (w', Some e) =>
                      (with_written st w',
                       Some ("failed to write output footer: " ++ e))
                  | (w', None) => (with_written st w', None)
                  end
              end
          end
      end
  end.

End WithLibraries.

End processor.


(** ** Package [retry] *)

Module retry.

(** [Config]: the fields that decide whether the driver tries again.
    [BaseDelay], [MaxDelay], [Multiplier] and [Jitter] only set the
    length of the sleep between two attempts. *)
Record Config : Type := {
  MaxRetries : Z;
  RetryableError : error → bool
}.

(** [DefaultConfig] *)
Definition DefaultConfig : Config :=
  {| MaxRetries := 3;
     RetryableError := fun err => true |}.

Definition Option : Type := Config → Config.

Definition WithMaxRetries (n : Z) : Option :=
  fun c => {| MaxRetries := n; RetryableError := RetryableError c |}.


(** What [DoWithConfig] returns: [nil], one of the two
    "context cancelled" errors, the error of [fn] itself when it is not
    retryable, or "operation failed after N retries" around the last
    error. *)
Inductive outcome : Type :=
  | Succeeded
  | Cancelled
  | CancelledDuringRetry
  | GaveUp (err : string)
  | Exhausted (retries : Z) (lastErr : error).

Section Driver.
(** [fn] is a closure: it reads and updates a state [St].  [ctxDone k]
    tells whether the context is done when the driver looks at it
    for the [k]-th time. *)
Context {St : Type}.
Variable ctxDone : nat → bool.
Variable fn : St → error * St.

(** [for attempt := 0; attempt <= cfg.MaxRetries; attempt++]: [n] is
    the number of turns left. *)
Fixpoint DoWithConfig_loop (cfg : Config) (n : nat) (attempt : Z)
  (lastErr : error) (k : nat) (s : St) : outcome * St :=
  match n with
  | 0 => (Exhausted (MaxRetries cfg) lastErr, s)
  | S n' =>
      if ctxDone k then (Cancelled, s)
      else
        match fn s with
        | (None, s') => (Succeeded, s')
        | (Some err, s') =>
            if negb (RetryableError cfg (Some err)) then (GaveUp err, s')
            else if (attempt =? MaxRetries cfg)%Z
            then (Exhausted (MaxRetries cfg) (Some err), s')
            else if ctxDone (S k) then (CancelledDuringRetry, s')
            else DoWithConfig_loop cfg n' (attempt + 1) (Some err)
                                   (S (S k)) s'
        end
  end.

(** [DoWithConfig] *)
Definition DoWithConfig (cfg : Config) (s : St) : outcome * St :=
  DoWithConfig_loop cfg (Z.to_nat (MaxRetries cfg + 1)) 0 None 0 s.

(** [Do] *)
Definition Do (opts : list Option) (s : St) : outcome * St :=
  let cfg := fold_left (fun cfg opt => opt cfg) opts DefaultConfig in
  DoWithConfig cfg s.

End Driver.

Section DriverTyped.
(** [DoTyped[T]]: [fn] returns a value of [T] with its error; [zero] is
    the zero value of [T], which [DoTyped] returns with every error. *)
Context {St T : Type}.
Variable zero : T.
Variable ctxDone : nat → bool.
Variable fn : St → (T * error) * St.

Fixpoint DoTyped_loop (cfg : Config) (n : nat) (attempt : Z)
  (lastErr : error) (k : nat) (s : St) : (T * outcome) * St :=
  match n with
  | 0 => ((zero, Exhausted (MaxRetries cfg) lastErr), s)
  | S n' =>
      if ctxDone k then ((zero, Cancelled), s)
      else
        match fn s with
        | ((res, None), s') => ((res, Succeeded), s')
        | ((_, Some err), s') =>
            if negb (RetryableError cfg (Some err))
            then ((zero, GaveUp err), s')
            else if (attempt =? MaxRetries cfg)%Z
            then ((zero, Exhausted (MaxRetries cfg) (Some err)), s')
            else if ctxDone (S k) then ((zero, CancelledDuringRetry), s')
            else DoTyped_loop cfg n' (attempt + 1) (Some err) (S (S k)) s'
        end
  end.

(** [DoTyped] *)
Definition DoTyped (opts : list Option) (s : St) : (T * outcome) * St :=
  let cfg := fold_left (fun cfg opt => opt cfg) opts DefaultConfig in
  DoTyped_loop cfg (Z.to_nat (MaxRetries cfg + 1)) 0 None 0 s.

End DriverTyped.





End retry.

(** ** Package [config]: the caching loader *)

Module config.

Section WithLoader.
(** [loader_Load] is [l.loader.Load(ctx)]: it reads the source of the
    configuration, in the state [Src], and may fail; a loader that
    succeeds returns a configuration that is not nil.  Times are
    nanoseconds; [ttl] is a [time.Duration]. *)
Context {E : RegexpEngine} {Src : Type}.
Variable loader_Load : Src → result rules.Configuration * Src.

Record CachedConfigLoader : Type := {
  ttl : Z;
  lastLoaded : Z;
  config_ : option rules.Configuration;
  cachedRules : option rules.CachedConfiguration
}.

(** [NewCachedConfigLoader] *)
Definition NewCachedConfigLoader (ttl : Z) : CachedConfigLoader :=
  {| ttl := ttl; lastLoaded := 0; config_ := None; cachedRules := None |}.

(** [l.config != nil && time.Since(l.lastLoaded) < l.ttl], with the
    clock at [now]. *)
Definition cached_at (l : CachedConfigLoader) (now : Z)
  : option rules.Configuration :=
  match config_ l with
  | Some config =>
      if (now - lastLoaded l <? ttl l)%Z then Some config else None
  | None => None
  end.

(** [CachedConfigLoader.Load]: the clock reads [now1] at the check under
    the read lock, [now2] at the check under the write lock and [now3] at
    [time.Now()].  The result, the loader afterwards, the source
    afterwards and the pattern cache afterwards. *)
Definition Load (now1 now2 now3 : Z) (l : CachedConfigLoader) (src : Src)
  (cache : gmap string Regexp)
  : result rules.Configuration * CachedConfigLoader * Src
    * gmap string Regexp :=
  match cached_at l now1 with
  | Some config => (Ok config, l, src, cache)
  | None =>
      match cached_at l now2 with
      | Some config => (Ok config, l, src, cache)
      | None =>
          match loader_Load src with
          | (Err e, src') => (Err e, l, src', cache)
          | (Ok config, src') =>
              match rules.PrepareConfiguration config cache with
              | (None, cache') =>
                  (Err "failed to prepare cached rules", l, src', cache')
              | (Some cachedRules, cache') =>
                  (Ok config,
                   {| ttl := ttl l;
                      lastLoaded := now3;
                      config_ := Some config;
                      cachedRules := Some cachedRules |},
                   src', cache')
              end
          end
      end
  end.

(** [CachedConfigLoader.LoadCached]: [None] in the result is a nil
    [*rules.CachedConfiguration]. *)
Definition LoadCached (now1 now2 now3 : Z) (l : CachedConfigLoader)
  (src : Src) (cache : gmap string Regexp)
  : result (option rules.CachedConfiguration) * CachedConfigLoader * Src
    * gmap string Regexp :=
  match Load now1 now2 now3 l src cache with
  | (Err e, l', src', cache') => (Err e, l', src', cache')
  | (Ok _, l', src', cache') => (Ok (cachedRules l'), l', src', cache')
  end.

End WithLoader.

End config.

(** ** Package [metrics] *)

Module metrics.

(** The batch size that [NewCloudWatchMetrics] sets; nothing changes it
    afterwards. *)
Definition batchSize : nat := 20.

Section WithClient.
(** [Datum] is [types.MetricDatum].  [PutMetricData namespace batch] is
    the call of the CloudWatch client: it acts on the state [St] of the
    service and may fail. *)
Context {Datum St : Type}.
Variable PutMetricData : string → list Datum → St → error * St.

(** The fields of [CloudWatchMetrics] that [Flush] reads and writes. *)
Record CloudWatchMetrics : Type := {
  namespace : string;
  metrics_ : list Datum;
  enabled : bool
}.

(** [for i := 0; i < len(metricsToSend); i += cwm.batchSize]; [fuel]
    bounds the number of batches. *)
Fixpoint Flush_loop (ns : string) (metricsToSend : list Datum)
  (fuel i : nat) (st : St) : error * St :=
  if (i <? List.length metricsToSend)%nat then
    match fuel with
    | 0 => (Some "out of fuel", st)
    | S fuel' =>
        let end_ :=
          if (List.length metricsToSend <? i + batchSize)%nat
          then List.length metricsToSend else (i + batchSize)%nat in
        let batch := take (end_ - i) (drop i metricsToSend) in
        match PutMetricData ns batch st with
        | (Some err, st') =>
            (Some ("failed to put metric data: " ++ err), st')
        | (None, st') =>
            Flush_loop ns metricsToSend fuel' (i + batchSize) st'
        end
    end
  else (None, st).

(** [Flush]: the error, the collector afterwards and the state of the
    service afterwards. *)
Definition Flush (cwm : CloudWatchMetrics) (st : St)
  : error * CloudWatchMetrics * St :=
  if negb (enabled cwm) then (None, cwm, st)
  else if (List.length (metrics_ cwm) =? 0)%nat then (None, cwm, st)
  else
    let metricsToSend := metrics_ cwm in
    let cwm' := {| namespace := namespace cwm;
                   metrics_ := [];
                   enabled := enabled cwm |} in
    let '(err, st') :=
      Flush_loop (namespace cwm) metricsToSend
                 (List.length metricsToSend) 0 st in
    (err, cwm', st').

End WithClient.

End metrics.
(** ** Vocabulary of the specification *)

Module spec.

(** The mapping reached from [obj] by the segments [pre], when every one
    of them is present and holds a mapping. *)
Fixpoint reach (obj : gmap string value) (pre : list string)
  : option (gmap string value) :=
  match pre with
  | [] => Some obj
  | k :: rest =>
      match obj !! k with
      | Some (VMap nested) => reach nested rest
      | _ => None
      end
  end.


(** A segment of a field path as the specification has it:
    [[A-Za-z][A-Za-z0-9_-]*]. *)
Definition segment_class (c : ascii) : bool :=
  re2.is_alnum c || Ascii.eqb c "_" || Ascii.eqb c "-".

Definition segment_ok (seg : string) : bool :=
  match seg with
  | EmptyString => false
  | String c r => re2.is_alpha c && rules.all_bytes segment_class r
  end.

(** A non-empty dotted path all of whose segments are such. *)
Definition valid_field_path (path : string) : bool :=
  forallb segment_ok (gostrings.Split path ".").

(** A segment that is not empty and has bytes of [[A-Za-z0-9_-]] only. *)
Definition segment_bytes_ok (seg : string) : bool :=
  negb (String.eqb seg EmptyString) && rules.all_bytes segment_class seg.

Definition starts_with_letter (path : string) : bool :=
  match path with
  | EmptyString => false
  | String c _ => re2.is_alpha c
  end.

(** A dotted path of such segments that begins with a letter. *)
Definition valid_field_path_amended (path : string) : bool :=
  starts_with_letter path
  && forallb segment_bytes_ok (gostrings.Split path ".").

(** The six dangerous shapes, as texts. *)
Definition dangerousShapes : list string :=
  [ "(.*)+"; "(.+)+"; "(.*)*"; "(\w+)*\w*"; "(\d+)+"; "([^/]+)+/" ].

(** The pattern holds a literal occurrence of one of the shapes. *)
Definition has_dangerous_shape (pattern : string) : bool :=
  existsb (gostrings.Contains pattern) dangerousShapes.

(** The compiled form of a screen that is a literal text. *)
Definition lits (s : string) : list re2.item :=
  map (fun c => {| re2.it_atom := re2.ALit c; re2.it_star := false |})
      (list_ascii_of_string s).

Section WithEngine.
Context {E : RegexpEngine}.

(** A match succeeds on a record when its field path resolves to a
    scalar string and the compiled matcher matches that string. *)
Definition match_succeeds (evt : gmap string value)
  (m : rules.CachedMatch) : bool :=
  match utils.FieldExists (rules.CFieldName m) evt with
  | (true, VString s) => MatchString (rules.Pattern m) s
  | _ => false
  end.

(** A rule matches a record when every match in it succeeds. *)
Definition rule_matches (r : rules.CachedRule)
  (evt : gmap string value) : bool :=
  forallb (match_succeeds evt) (rules.CMatches r).

(** The pattern cache holds, for a pattern text, what [Compile]
    returns for it. *)
Definition cache_ok (cache : gmap string Regexp) : Prop :=
  ∀ p re, cache !! p = Some re → Compile p = Some re.

(** [cm] is the compiled form of the match [m]; [cr] of the rule [r]. *)
Definition compiles_to (m : rules.Match) (cm : rules.CachedMatch) : Prop :=
  rules.CFieldName cm = rules.FieldName m
  ∧ Compile (rules.Regex m) = Some (rules.Pattern cm).

Definition rule_compiles_to (r : rules.Rule) (cr : rules.CachedRule)
  : Prop :=
  rules.CName cr = rules.Name r
  ∧ Forall2 compiles_to (rules.Matches r) (rules.CMatches cr).

(** Every field that a match of the rules names and that the record
    has, holds a string. *)
Definition fields_are_strings (rs : list rules.Rule)
  (evt : gmap string value) : Prop :=
  ∀ r m, r ∈ rs → m ∈ rules.Matches r →
         (utils.FieldExists (rules.FieldName m) evt).1 = true →
         is_string (utils.FieldExists (rules.FieldName m) evt).2 = true.

End WithEngine.

Section WithLibraries.
Context {E : RegexpEngine} {D : JsonDecoder}.

(** The record decodes into a mapping. *)
Definition decodes (record : string) : bool :=
  match Unmarshal_map record ∅ with
  | Some _ => true
  | None => false
  end.

(** The evaluation of the record returns KEEP: it decodes, and no
    rule of the set matches it. *)
Definition keeps (cc : rules.CachedConfiguration) (record : string)
  : bool :=
  match Unmarshal_map record ∅ with
  | Some rec => negb (rules.CachedConfiguration_EvalRules cc rec).1.1
  | None => false
  end.

(** The records of [l] that are kept, after [out]; an error at the
    first record that does not decode. *)
Fixpoint filter_from (cc : rules.CachedConfiguration) (l : list string)
  (out : list string) : result (list string) :=
  match l with
  | [] => Ok out
  | record :: l' =>
      if decodes record
      then filter_from cc l'
             (if keeps cc record then (out ++ [record])%list else out)
      else Err "unmarshal record failed"
  end.

Definition pool_ok (pool : list (gmap string value)) : Prop :=
  Forall (fun m => m = ∅) pool.

End WithLibraries.

End spec.

(** ** Example data *)

Module examples.

Definition ev1 : gmap string value :=
  <["baz" := VMap (<["qux" := VString "quux"]> ∅)]>
    (<["foo" := VString "bar"]> ∅).

(** The rules of the "KMS drop" scenario, and a second rule. *)
Definition check_kms : rules.Rule :=
  {| rules.Name := "check_kms";
     rules.Matches :=
       [ {| rules.FieldName := "eventName"; rules.Regex := ".*crypt" |};
         {| rules.FieldName := "eventSource"; rules.Regex := "kms.*" |} ] |}.

Definition check_sts : rules.Rule :=
  {| rules.Name := "check_sts";
     rules.Matches :=
       [ {| rules.FieldName := "eventSource"; rules.Regex := "^sts.*" |} ] |}.

Definition kms_cfg : rules.Configuration :=
  {| rules.Rules := [check_kms; check_sts] |}.

Definition compiled (r : rules.Rule) : @rules.CachedRule re2.engine :=
  {| rules.CName := rules.Name r;
     rules.CMatches :=
       omap (fun m =>
               match re2.compile (rules.Regex m) with
               | Some p =>
                   Some (@rules.Build_CachedMatch re2.engine
                           (rules.FieldName m) p)
               | None => None
               end) (rules.Matches r) |}.

Definition kms_cached : @rules.CachedConfiguration re2.engine :=
  {| rules.CRules := [compiled check_kms; compiled check_sts] |}.

Definition kms_event : gmap string value :=
  <["eventName" := VString "Encrypt"]>
    (<["eventSource" := VString "kms.amazonaws.com"]> ∅).

Definition logs_event : gmap string value :=
  <["eventName" := VString "Encrypt"]>
    (<["eventSource" := VString "logs.amazonaws.com"]> ∅).

(** A rule on [eventName], and a record whose [eventName] is the
    number 42 (the JSON text [{"eventName":42}], decoded). *)
Definition check_name : rules.Rule :=
  {| rules.Name := "check_name";
     rules.Matches :=
       [ {| rules.FieldName := "eventName"; rules.Regex := "Encrypt" |} ] |}.

Definition name_cfg : rules.Configuration :=
  {| rules.Rules := [check_name] |}.

Definition name_cached : @rules.CachedConfiguration re2.engine :=
  {| rules.CRules := [compiled check_name] |}.

Definition numeric_event : gmap string value :=
  <["eventName" := VNumber "42"]> ∅.

(** The two records of the "KMS drop" scenario, as JSON texts, and a
    document that holds them. *)
Definition kms_record : string :=
  json.dq "{'eventName':'Encrypt','eventSource':'kms.amazonaws.com'}".

Definition logs_record : string :=
  json.dq "{'eventName':'Encrypt','eventSource':'logs.amazonaws.com'}".

Definition trail : cloudtrailprocessor.Cloudtrail :=
  {| cloudtrailprocessor.Records := [kms_record; logs_record] |}.

Definition trail_kept : cloudtrailprocessor.Cloudtrail :=
  {| cloudtrailprocessor.Records := [logs_record] |}.

(** A document with a record that is not JSON. *)
Definition bad_record : string := "{bad}".

Definition bad_trail : cloudtrailprocessor.Cloudtrail :=
  {| cloudtrailprocessor.Records := [logs_record; bad_record] |}.

Definition no_rules : @rules.CachedConfiguration re2.engine :=
  {| rules.CRules := [] |}.

(** The state of the scan loop when the record [{bad}] lacks only its
    closing brace. *)
Definition before_bad_close : processor.state string :=
  {| processor.foundRecords := true;
     processor.inRecordsArray := true;
     processor.bracketDepth := 1;
     processor.recordBuffer := "{bad";
     processor.firstRecord := true;
     processor.res :=
       {| processor.ProcessedCount := 0;
          processor.FilteredCount := 0;
          processor.OutputSize := 0 |};
     processor.written := processor.records_token;
     processor.metrics := [] |}.

(** Input streams of the streaming path, each on one line. *)
Definition stream_bad : string :=
  json.dq "{'Records':[{'a':'1'},{bad},{'c':'3'}]}".

Definition stream_bad_out : string :=
  json.dq "{'Records':[{'a':'1'},{'c':'3'}]}".

Definition stream_trailing : string :=
  json.dq "{'Records':[{'a':'1'}],'extra':{'b':'2'}}".

Definition stream_trailing_out : string :=
  json.dq "{'Records':[{'a':'1'},{'b':'2'}]}".

Definition stream_trailing_expected : string :=
  json.dq "{'Records':[{'a':'1'}]}".

(** An operation that fails with "access denied" every time it is
    called; its state counts the calls. *)
Definition always_denied (calls : nat) : error * nat :=
  (Some "access denied", S calls).

Definition never_done (k : nat) : bool := false.

(** A context that is never done. *)
Definition live (k : nat) : error := None.

End examples.


(** ** Further vocabulary *)

Module xspec.

(** The index of a rule and the index of an earlier rule with the same
    name, as [checkDuplicateRuleNames] reports them. *)
Definition duplicate_error (i prev : nat) (name : string)
  : rules.ValidationError :=
  {| rules.Field := "rules[" ++ rules.itoa i ++ "].name";
     rules.Rule_ := name;
     rules.Message := "duplicate rule name (also at index "
                      ++ rules.itoa prev ++ ")" |}.

Section WithEngine.
Context {E : RegexpEngine}.

(** What [validateRules] asks of a match and of a rule. *)
Definition match_ok (m : rules.Match) : Prop :=
  rules.FieldName m ≠ EmptyString
  ∧ rules.Regex m ≠ EmptyString
  ∧ is_Some (Compile (rules.Regex m))
  ∧ rules.containsReDoSPattern (rules.Regex m) = false.

Definition rule_ok (r : rules.Rule) : Prop :=
  rules.Name r ≠ EmptyString
  ∧ rules.Matches r ≠ []
  ∧ Forall match_ok (rules.Matches r).

(** The compiled rule [cr] is the rule [r] with, for every match, the
    expression that the cache holds for its pattern. *)
Definition served_by (cache : gmap string Regexp) (r : rules.Rule)
  (cr : rules.CachedRule) : Prop :=
  rules.CName cr = rules.Name r
  ∧ Forall2
      (fun m cm => rules.CFieldName cm = rules.FieldName m
                   ∧ cache !! rules.Regex m = Some (rules.Pattern cm))
      (rules.Matches r) (rules.CMatches cr).

(** The compiled evaluator drops the event; it drops it under the rule
    [name]. *)
Definition dropped (cc : rules.CachedConfiguration)
  (event : gmap string value) : bool :=
  (rules.CachedConfiguration_EvalRules cc event).1.1.

Definition dropped_by (cc : rules.CachedConfiguration) (name : string)
  (event : gmap string value) : bool :=
  match rules.CachedConfiguration_EvalRules cc event with
  | (true, Some d, _) => String.eqb (rules.RuleName d) name
  | _ => false
  end.

End WithEngine.

Section WithLibraries.
Context {E : RegexpEngine} {D : JsonDecoder}.

(** The rule, as it is written in the configuration, drops the record:
    every match of it names a field that resolves to a string which the
    compiled pattern of the match matches. *)
Definition rule_drops (r : rules.Rule) (evt : gmap string value) : bool :=
  forallb
    (fun m =>
       match utils.FieldExists (rules.FieldName m) evt with
       | (true, VString s) =>
           match Compile (rules.Regex m) with
           | Some re => MatchString re s
           | None => false
           end
       | _ => false
       end)
    (rules.Matches r).

(** The record decodes and no rule of the configuration drops it. *)
Definition kept_by (cfg : rules.Configuration) (record : string) : bool :=
  match Unmarshal_map record ∅ with
  | Some rec => negb (existsb (fun r => rule_drops r rec) (rules.Rules cfg))
  | None => false
  end.

(** What the streaming path reports to the metrics collector for a
    record that is handed to [processRecord]. *)
Definition metric_of (cc : rules.CachedConfiguration) (record : string)
  : processor.metric :=
  if spec.keeps cc record then processor.RecordProcessed 1
  else if spec.decodes record then processor.RecordFiltered 1
  else processor.RecordError "failed to unmarshal record".

(** The state of the scan loop, with a buffer as the writer, once the
    record [record] has been cut out of the line and handled. *)
Definition after_record (cc : rules.CachedConfiguration)
  (st : processor.state string) (record : string) : processor.state string :=
  {| processor.foundRecords := processor.foundRecords st;
     processor.inRecordsArray := processor.inRecordsArray st;
     processor.bracketDepth := 0;
     processor.recordBuffer := EmptyString;
     processor.firstRecord :=
       if spec.keeps cc record then false else processor.firstRecord st;
     processor.res :=
       if spec.keeps cc record then processor.add_processed (processor.res st)
       else if spec.decodes record
       then processor.add_filtered (processor.add_processed (processor.res st))
       else processor.add_processed (processor.res st);
     processor.written :=
       if spec.keeps cc record
       then (if processor.firstRecord st
             then (processor.written st ++ record)%string
             else ((processor.written st ++ ",") ++ record)%string)
       else processor.written st;
     processor.metrics :=
       (processor.metrics st ++ [metric_of cc record])%list |}.

End WithLibraries.

Section Loader.
Context {E : RegexpEngine}.

(** The configuration that the caching loader holds comes with its
    compiled form. *)
Definition loader_ok (l : config.CachedConfigLoader) : Prop :=
  ∀ c, config.config_ l = Some c →
       ∃ cc, config.cachedRules l = Some cc
             ∧ Forall2 spec.rule_compiles_to (rules.Rules c) (rules.CRules cc).

End Loader.

(** The matches of the rules, in order, with the name of their rule. *)
Definition all_matches (rs : list rules.Rule) : list (string * rules.Match) :=
  List.concat
    (map (fun r => map (fun m => (rules.Name r, m)) (rules.Matches r)) rs).

(** A non-empty text of decimal digits; a non-empty text over
    [[a-zA-Z0-9.]]. *)
Definition digits (s : string) : Prop :=
  s ≠ EmptyString ∧ rules.all_bytes re2.is_digit s = true.

Definition identifier (s : string) : Prop :=
  s ≠ EmptyString ∧ rules.all_bytes rules.semver_ident_class s = true.

(** [v?MAJOR.MINOR.PATCH(-PRERELEASE)?(+BUILD)?] *)
Definition semver (version : string) : Prop :=
  ∃ v major minor patch pre build : string,
    version = (v ++ major ++ "." ++ minor ++ "." ++ patch ++ pre ++ build)%string
    ∧ (v = EmptyString ∨ v = "v")
    ∧ digits major ∧ digits minor ∧ digits patch
    ∧ (pre = EmptyString ∨ ∃ id, pre = ("-" ++ id)%string ∧ identifier id)
    ∧ (build = EmptyString
       ∨ ∃ id, build = ("+" ++ id)%string ∧ identifier id).

(** [fn] with a count of its calls beside its state. *)
Definition counted {St : Type} (fn : St → error * St)
  : St * nat → error * (St * nat) :=
  fun sc => let '(err, s') := fn sc.1 in (err, (s', S sc.2)).

(** The state after [n] calls of [fn]. *)
Fixpoint after_calls {St : Type} (fn : St → error * St) (n : nat) (s : St)
  : St :=
  match n with
  | 0 => s
  | S n' => after_calls fn n' (fn s).2
  end.

(** [fn] without the value it returns. *)
Definition forget {St T : Type} (fn : St → (T * error) * St)
  : St → error * St :=
  fun s => ((fn s).1.2, (fn s).2).

Section Sending.
Context {Datum St : Type}.
Variable PutMetricData : string → list Datum → St → error * St.

(** The batches are sent one after the other, up to the first one that
    the service refuses. *)
Fixpoint send_all (ns : string) (batches : list (list Datum)) (st : St)
  : error * St :=
  match batches with
  | [] => (None, st)
  | batch :: rest =>
      match PutMetricData ns batch st with
      | (Some err, st') =>
          (Some ("failed to put metric data: " ++ err)%string, st')
      | (None, st') => send_all ns rest st'
      end
  end.

End Sending.

(** The calls of the metrics collector that report a filtered record, a
    written record, an error. *)
Definition is_filtered (m : processor.metric) : bool :=
  match m with processor.RecordFiltered _ => true | _ => false end.

Definition is_processed (m : processor.metric) : bool :=
  match m with processor.RecordProcessed _ => true | _ => false end.

Definition is_error (m : processor.metric) : bool :=
  match m with processor.RecordError _ => true | _ => false end.

(** The counters of the result agree with the calls made to the metrics
    collector. *)
Definition counts_ok {W : Type} (st : processor.state W) : Prop :=
  processor.ProcessedCount (processor.res st)
  = Z.of_nat (List.length (processor.metrics st))
  ∧ processor.FilteredCount (processor.res st)
    = Z.of_nat (List.length
                  (List.filter is_filtered (processor.metrics st)))
  ∧ processor.OutputSize (processor.res st) = 0%Z
  ∧ Forall (fun m => m = processor.RecordProcessed 1
                     ∨ m = processor.RecordFiltered 1
                     ∨ ∃ e, m = processor.RecordError e)
           (processor.metrics st).

(** The header and the footer that [ProcessStream] writes. *)
Definition stream_header : string := "{" ++ processor.records_token ++ ":[".

Definition stream_footer : string := "]}".

(** Brace counting as the streaming extractor does it, on every byte:
    from depth [d] the text [w] comes back to depth zero at its last
    byte and not before. *)
Fixpoint closes (d : nat) (w : string) : bool :=
  match w with
  | EmptyString => false
  | String c r =>
      if Ascii.eqb c "{" then closes (S d) r
      else if Ascii.eqb c "}" then
        match d with
        | 0 => false
        | 1 => String.eqb r EmptyString
        | S d' => closes d' r
        end
      else closes d r
  end.

(** A record as the extractor can cut it out of a line: it opens with a
    brace, which its last byte closes. *)
Definition balanced (record : string) : bool :=
  match record with
  | String c r => Ascii.eqb c "{" && closes 1 r
  | EmptyString => false
  end.

End xspec.

(** ** Further example data *)

Module more_examples.

(** A record with a scalar at [foo] and a mapping at [baz]. *)
Definition nested_event : gmap string value :=
  <["baz" := VMap (<["qux" := VString "quux"]> ∅)]>
    (<["foo" := VString "bar"]> ∅).

(** The compiled form of [kms.*] in the reference engine. *)
Definition kms_prog : re2.prog :=
  {| re2.anchored_start := false;
     re2.items :=
       [ {| re2.it_atom := re2.ALit "k"; re2.it_star := false |};
         {| re2.it_atom := re2.ALit "m"; re2.it_star := false |};
         {| re2.it_atom := re2.ALit "s"; re2.it_star := false |};
         {| re2.it_atom := re2.AAny; re2.it_star := true |} ];
     re2.anchored_end := false |}.

(** A configuration with a pattern that does not compile (an opening
    parenthesis that is never closed). *)
Definition broken_match : rules.Match :=
  {| rules.FieldName := "eventName"; rules.Regex := "(" |}.

Definition broken_rule : rules.Rule :=
  {| rules.Name := "broken"; rules.Matches := [broken_match] |}.

Definition broken_cfg : rules.Configuration :=
  {| rules.Rules := [broken_rule] |}.

(** The compiled form of [broken_rule] cannot be built by
    [PrepareConfiguration]; a record whose [eventName] is a string. *)
Definition named_event : gmap string value :=
  <["eventName" := VString "Encrypt"]> ∅.

Definition empty_event : gmap string value := ∅.

(** Three rules of which the third has the name of the first. *)
Definition dup_rules : rules.VersionedConfiguration :=
  {| rules.Version := "1.0.0";
     rules.VRules :=
       [ examples.check_kms; examples.check_sts; examples.check_kms ];
     rules.Meta := None |}.

Definition kms_versioned : rules.VersionedConfiguration :=
  {| rules.Version := "1.0.0";
     rules.VRules := [ examples.check_kms; examples.check_sts ];
     rules.Meta := None |}.

(** A struct validator that accepts every configuration, and an engine
    error text; they leave the checks of [Validate] itself. *)
Definition lenient_validator : rules.VersionedConfiguration → error :=
  fun _ => None.

Definition error_text : string → string :=
  fun pattern => ("error parsing regexp: " ++ pattern)%string.

(** A metrics service that accepts every batch and keeps the batches it
    was sent; a collector with forty-five metrics in its buffer. *)
Definition record_put (ns : string) (batch : list nat)
  (sent : list (list nat)) : error * list (list nat) :=
  (None, (sent ++ [batch])%list).

Definition full_buffer : metrics.CloudWatchMetrics :=
  {| metrics.namespace := "CloudTrail/LogParser";
     metrics.metrics_ := seq 0 45;
     metrics.enabled := true |}.

(** An operation that fails with "timeout" on its first two calls and
    succeeds afterwards; its state counts the calls.  An operation that
    returns a value with its error. *)
Definition flaky (calls : nat) : error * nat :=
  (if (calls <? 2)%nat then Some "timeout" else None, S calls).

Definition denied_with_value (calls : nat) : (Z * error) * nat :=
  ((7%Z, Some "access denied"), S calls).

(** A document that is printed on four lines, with the bracket of the
    array on the line after ["Records":]. *)
Definition stream_pretty : string :=
  "{" ++ String "010"
    (json.dq "  'Records':" ++ String "010"
       (json.dq "  [{'a':'1'}]" ++ String "010" "}")).

(** A pattern of 1001 bytes. *)
Definition long_pattern : string :=
  string_of_list_ascii (repeat "a"%char 1001).

(** A source of configurations that serves [kms_cfg] and counts the
    reads. *)
Definition kms_source (reads : nat) : result rules.Configuration * nat :=
  (Ok examples.kms_cfg, S reads).

(** A source of configurations that cannot be read. *)
Definition failing_source (reads : nat) : result rules.Configuration * nat :=
  (Err "access denied", S reads).

End more_examples.
(** * Properties *)

Open Scope list_scope.

(** ** Field path resolver *)

Lemma findField_reach (obj m : gmap string value) (pre rest : list string) :
  spec.reach obj pre = Some m →
  utils.findField obj (pre ++ rest) = utils.findField m rest.
Proof.
  revert obj. induction pre as [|k pre IH]; intros obj Hreach.
  - simpl in Hreach. by inversion Hreach.
  - simpl in Hreach. simpl.
    destruct (obj !! k) as [[| | | | |nested]|] eqn:Hk; try discriminate.
    by apply IH.
Qed.

Lemma findField_miss (m : gmap string value) (k : string) (post : list string) :
  m !! k = None → utils.findField m (k :: post) = (false, VNull).
Proof. intros Hk. simpl. by rewrite Hk. Qed.

Lemma findField_scalar_inner (m : gmap string value) (k : string)
  (post : list string) (v : value) :
  m !! k = Some v → is_map v = false → post ≠ [] →
  utils.findField m (k :: post) = (false, VNull).
Proof.
  intros Hk Hv Hpost. simpl. rewrite Hk.
  destruct post as [|p post]; [done|].
  by destruct v.
Qed.

Lemma findField_last (m : gmap string value) (k : string) :
  utils.findField m [k] =
  match m !! k with
  | Some v => if is_map v then (false, VNull) else (true, v)
  | None => (false, VNull)
  end.
Proof.
  simpl. destruct (m !! k) as [v|]; [|done].
  destruct v as [| | | | |nested]; try done.
Qed.

(** C5. For every dotted field path and every decoded record:
    [FieldExists] returns [(false, nil)] when a key lookup misses, and when
    the value at a segment that is not the last one is not a mapping; at
    the last segment it returns [(true, value)] exactly when the value is
    present and is not a mapping; a sequence there is returned as
    present, a mapping there counts as not present. *)
Theorem C5_FieldExists_resolution (field : string) (event : gmap string value) :
  let path := gostrings.Split field "." in
  (∀ pre k post m,
      path = pre ++ k :: post → spec.reach event pre = Some m →
      m !! k = None →
      utils.FieldExists field event = (false, VNull))
  ∧ (∀ pre k post m v,
      path = pre ++ k :: post → post ≠ [] →
      spec.reach event pre = Some m → m !! k = Some v → is_map v = false →
      utils.FieldExists field event = (false, VNull))
  ∧ (∀ pre k m,
      path = pre ++ [k] → spec.reach event pre = Some m →
      (∀ v, utils.FieldExists field event = (true, v)
            ↔ m !! k = Some v ∧ is_map v = false)
      ∧ (∀ l, m !! k = Some (VArray l) →
              utils.FieldExists field event = (true, VArray l))
      ∧ (∀ nested, m !! k = Some (VMap nested) →
              utils.FieldExists field event = (false, VNull))).
Proof.
  intros path. unfold utils.FieldExists. fold path.
  split; [|split].
  - intros pre k post m -> Hreach Hk.
    rewrite (findField_reach _ _ _ _ Hreach). by apply findField_miss.
  - intros pre k post m v -> Hpost Hreach Hk Hv.
    rewrite (findField_reach _ _ _ _ Hreach).
    by apply (findField_scalar_inner _ _ _ v).
  - intros pre k m -> Hreach.
    rewrite (findField_reach _ _ _ _ Hreach), findField_last.
    split; [|split].
    + intros v. destruct (m !! k) as [w|] eqn:Hk.
      * destruct (is_map w) eqn:Hw; split.
        -- discriminate.
        -- intros [[= ->] Hv]. congruence.
        -- intros [= ->]. done.
        -- intros [[= ->] _]. done.
      * split; [discriminate|]. intros [? _]. discriminate.
    + intros l ->. done.
    + intros nested ->. done.
Qed.

Lemma C5_FieldExists_resolution_witness :
  utils.FieldExists "baz.qux" examples.ev1 = (true, VString "quux")
  ∧ utils.FieldExists "baz.zzz" examples.ev1 = (false, VNull)
  ∧ utils.FieldExists "foo.qux" examples.ev1 = (false, VNull).
Proof.
  destruct (C5_FieldExists_resolution "baz.qux" examples.ev1) as (_ & _ & H3).
  destruct (C5_FieldExists_resolution "baz.zzz" examples.ev1) as (H1 & _ & _).
  destruct (C5_FieldExists_resolution "foo.qux" examples.ev1) as (_ & H2 & _).
  split; [|split].
  - apply (H3 ["baz"] "qux" (<["qux" := VString "quux"]> ∅));
      [reflexivity|vm_compute; reflexivity|].
    split; vm_compute; reflexivity.
  - apply (H1 ["baz"] "zzz" [] (<["qux" := VString "quux"]> ∅));
      vm_compute; reflexivity.
  - apply (H2 [] "foo" ["qux"] examples.ev1 (VString "bar"));
      try (vm_compute; reflexivity).
    discriminate.
Defined.

(** ** Evaluator *)

Section Evaluator.
Context {E : RegexpEngine}.

Lemma CachedRule_Eval_loop_false (ms : list rules.CachedMatch)
  (evt : gmap string value) :
  rules.CachedRule_Eval_loop ms evt false = false.
Proof.
  destruct ms as [|m ms]; [done|]. simpl.
  destruct (utils.FieldExists (rules.CFieldName m) evt) as [[] v]; [|done].
  by destruct v.
Qed.

Lemma CachedRule_Eval_loop_forallb (ms : list rules.CachedMatch)
  (evt : gmap string value) :
  rules.CachedRule_Eval_loop ms evt true
  = forallb (spec.match_succeeds evt) ms.
Proof.
  induction ms as [|m ms IH]; [done|].
  simpl. unfold spec.match_succeeds at 1.
  destruct (utils.FieldExists (rules.CFieldName m) evt) as [[] v]; [|done].
  destruct v; try done.
  destruct (MatchString (rules.Pattern m) s); [|done].
  simpl. apply IH.
Qed.

Lemma CachedRule_Eval_spec (r : rules.CachedRule) (evt : gmap string value) :
  rules.CachedRule_Eval r evt =
  (spec.rule_matches r evt,
   Some {| rules.RuleName :=
             if spec.rule_matches r evt then rules.CName r else "" |},
   None).
Proof.
  unfold rules.CachedRule_Eval, spec.rule_matches.
  rewrite CachedRule_Eval_loop_forallb.
  by destruct (forallb _ _).
Qed.

Lemma EvalRules_loop_cons (r : rules.CachedRule) (rs : list rules.CachedRule)
  (evt : gmap string value) :
  rules.CachedConfiguration_EvalRules_loop (r :: rs) evt
  = if spec.rule_matches r evt
    then (true, Some {| rules.RuleName := rules.CName r |}, None)
    else rules.CachedConfiguration_EvalRules_loop rs evt.
Proof.
  cbn [rules.CachedConfiguration_EvalRules_loop].
  rewrite CachedRule_Eval_spec.
  by destruct (spec.rule_matches r evt).
Qed.

Lemma EvalRules_loop_skip (pre rest : list rules.CachedRule)
  (evt : gmap string value) :
  Forall (fun r => spec.rule_matches r evt = false) pre →
  rules.CachedConfiguration_EvalRules_loop (pre ++ rest) evt
  = rules.CachedConfiguration_EvalRules_loop rest evt.
Proof.
  induction 1 as [|r pre Hr _ IH]; [done|].
  rewrite <- app_comm_cons, EvalRules_loop_cons, Hr. apply IH.
Qed.

Lemma EvalRules_loop_hit (r : rules.CachedRule) (post : list rules.CachedRule)
  (evt : gmap string value) :
  spec.rule_matches r evt = true →
  rules.CachedConfiguration_EvalRules_loop (r :: post) evt
  = (true, Some {| rules.RuleName := rules.CName r |}, None).
Proof. intros Hr. by rewrite EvalRules_loop_cons, Hr. Qed.

Lemma EvalRules_loop_no_error (rs : list rules.CachedRule)
  (evt : gmap string value) :
  (rules.CachedConfiguration_EvalRules_loop rs evt).2 = None.
Proof.
  induction rs as [|r rs IH]; [done|].
  rewrite EvalRules_loop_cons.
  by destruct (spec.rule_matches r evt).
Qed.

Lemma EvalRules_loop_drop_iff (rs : list rules.CachedRule)
  (evt : gmap string value) :
  (rules.CachedConfiguration_EvalRules_loop rs evt).1.1 = true
  ↔ ∃ r, r ∈ rs ∧ spec.rule_matches r evt = true.
Proof.
  induction rs as [|r rs IH].
  - simpl. split; [done|]. intros (r & Hr & _). by apply elem_of_nil in Hr.
  - rewrite EvalRules_loop_cons.
    destruct (spec.rule_matches r evt) eqn:Hr.
    + simpl. split; [|done]. intros _. exists r. split; [left|done].
    + rewrite IH. split.
      * intros (r' & Hin & Hm). exists r'. split; [by right|done].
      * intros (r' & Hin & Hm). apply elem_of_cons in Hin as [->|Hin].
        -- congruence.
        -- by exists r'.
Qed.

(** C1. For every decoded record and every compiled rule set,
    [CachedConfiguration.EvalRules] returns drop=true together with the
    name of the first rule, in declared order, all of whose matches
    succeed; it does so if and only if some rule of the set matches the
    record, and returns drop=false otherwise; the rules after the first
    matching one are not looked at. *)
Theorem C1_EvalRules_first_matching_rule (cc : rules.CachedConfiguration)
  (evt : gmap string value) :
  (∀ pre r post,
      rules.CRules cc = pre ++ r :: post →
      Forall (fun r' => spec.rule_matches r' evt = false) pre →
      spec.rule_matches r evt = true →
      rules.CachedConfiguration_EvalRules cc evt
      = (true, Some {| rules.RuleName := rules.CName r |}, None))
  ∧ ((∀ r, r ∈ rules.CRules cc → spec.rule_matches r evt = false) →
     rules.CachedConfiguration_EvalRules cc evt = (false, None, None))
  ∧ ((rules.CachedConfiguration_EvalRules cc evt).1.1 = true
     ↔ ∃ r, r ∈ rules.CRules cc ∧ spec.rule_matches r evt = true).
Proof.
  unfold rules.CachedConfiguration_EvalRules. split; [|split].
  - intros pre r post -> Hpre Hr.
    rewrite (EvalRules_loop_skip _ _ _ Hpre). by apply EvalRules_loop_hit.
  - intros Hnone. apply list.Forall_forall in Hnone.
    rewrite <- (app_nil_r (rules.CRules cc)).
    by rewrite (EvalRules_loop_skip _ _ _ Hnone).
  - apply EvalRules_loop_drop_iff.
Qed.

End Evaluator.

(** [PrepareConfiguration] builds the compiled rule set of the examples
    from the configuration of the "KMS drop" scenario. *)
Example PrepareConfiguration_kms :
  (@rules.PrepareConfiguration re2.engine examples.kms_cfg ∅).1
  = Some examples.kms_cached.
Proof. reflexivity. Qed.

Lemma C1_EvalRules_first_matching_rule_witness :
  @rules.CachedConfiguration_EvalRules re2.engine examples.kms_cached
    examples.kms_event
  = (true, Some {| rules.RuleName := "check_kms" |}, None)
  ∧ @rules.CachedConfiguration_EvalRules re2.engine examples.kms_cached
      examples.logs_event
    = (false, None, None).
Proof.
  pose proof (@C1_EvalRules_first_matching_rule re2.engine
                examples.kms_cached examples.kms_event) as (H1 & _ & _).
  pose proof (@C1_EvalRules_first_matching_rule re2.engine
                examples.kms_cached examples.logs_event) as (_ & H2 & _).
  split.
  - apply (H1 [] (examples.compiled examples.check_kms)
              [examples.compiled examples.check_sts]).
    + reflexivity.
    + constructor.
    + vm_compute. reflexivity.
  - apply H2. intros r Hr.
    apply elem_of_cons in Hr as [->|Hr]; [vm_compute; reflexivity|].
    apply elem_of_cons in Hr as [->|Hr]; [vm_compute; reflexivity|].
    by apply elem_of_nil in Hr.
Defined.
(** ** The uncompiled evaluator and the compiled one *)

Section TwoEvaluators.
Context {E : RegexpEngine}.

(** In the compiled evaluator a match on an absent field, or on a field
    that holds something other than a string, makes the rule fail. *)
Lemma CachedRule_Eval_absent_or_not_string (cr : rules.CachedRule)
  (evt : gmap string value) (m : rules.CachedMatch) :
  m ∈ rules.CMatches cr →
  (utils.FieldExists (rules.CFieldName m) evt).1 = false
  ∨ is_string (utils.FieldExists (rules.CFieldName m) evt).2 = false →
  (rules.CachedRule_Eval cr evt).1.1 = false.
Proof.
  intros Hin Hm. rewrite CachedRule_Eval_spec. simpl.
  unfold spec.rule_matches.
  apply not_true_is_false. intros Hall.
  rewrite forallb_forall in Hall.
  specialize (Hall m (proj1 (list_elem_of_In _ _) Hin)).
  unfold spec.match_succeeds in Hall.
  destruct (utils.FieldExists (rules.CFieldName m) evt) as [[] v];
    simpl in Hm; destruct Hm as [Hm|Hm]; try discriminate;
    destruct v; discriminate.
Qed.

(** In the uncompiled evaluator a match on an absent field makes the
    rule fail. *)
Lemma Rule_Eval_loop_false (ms : list rules.Match) (evt : gmap string value) :
  (rules.Rule_Eval_loop ms evt false).1 = false.
Proof.
  induction ms as [|m ms IH]; [done|]. simpl.
  destruct (utils.FieldExists (rules.FieldName m) evt) as [[] v]; [|done].
  destruct v; try done.
  by destruct (Compile (rules.Regex m)).
Qed.

Lemma Rule_Eval_loop_absent (ms : list rules.Match) (evt : gmap string value)
  (m : rules.Match) (b : bool) :
  m ∈ ms →
  (utils.FieldExists (rules.FieldName m) evt).1 = false →
  (rules.Rule_Eval_loop ms evt b).1 = false.
Proof.
  intros Hin Habs. revert b.
  induction ms as [|m' ms IH]; intros b; [by apply elem_of_nil in Hin|].
  apply elem_of_cons in Hin as [<-|Hin].
  - simpl. destruct (utils.FieldExists (rules.FieldName m) evt) as [ex v].
    simpl in Habs. subst ex. rewrite andb_false_r.
    apply Rule_Eval_loop_false.
  - specialize (IH Hin). simpl.
    destruct (utils.FieldExists (rules.FieldName m') evt) as [[] v]; [|done].
    destruct v; try done.
    by destruct (Compile (rules.Regex m')).
Qed.

(** In the uncompiled evaluator a match on a field that the record does
    not have makes the rule fail. *)
Lemma Rule_Eval_absent (mc : rules.Rule) (evt : gmap string value)
  (m : rules.Match) :
  m ∈ rules.Matches mc →
  (utils.FieldExists (rules.FieldName m) evt).1 = false →
  (rules.Rule_Eval mc evt).1.1 = false.
Proof.
  intros Hin Habs. unfold rules.Rule_Eval.
  pose proof (Rule_Eval_loop_absent _ evt m true Hin Habs) as H.
  destruct (rules.Rule_Eval_loop (rules.Matches mc) evt true) as [b [err|]];
    [done|]. simpl in H. by subst b.
Qed.

(** C3, at its failing input.  The rule [check_name] has one match, on
    [eventName]; in the record [{"eventName":42}] that field is present
    and is not a string.  [Rule.Eval] takes its [continue], leaves the
    conjunction at [true] and reports the rule as matching, whatever the
    regular-expression engine. *)
Theorem C3_Rule_Eval_matches_on_non_string_field :
  utils.FieldExists "eventName" examples.numeric_event
  = (true, VNumber "42")
  ∧ rules.Rule_Eval examples.check_name examples.numeric_event
    = (true, Some {| rules.RuleName := "check_name" |}, None).
Proof. split; reflexivity. Qed.

(** C4, at its failing input.  Whenever [PrepareConfiguration] accepts
    the configuration with the single rule [check_name], the uncompiled
    evaluator drops the record [{"eventName":42}] under that rule and
    the compiled evaluator keeps it. *)
Theorem C4_evaluators_disagree_on_non_string_field
  (cache cache' : gmap string Regexp) (cc : rules.CachedConfiguration) :
  rules.PrepareConfiguration examples.name_cfg cache = (Some cc, cache') →
  rules.Configuration_EvalRules examples.name_cfg examples.numeric_event
  = (true, Some {| rules.RuleName := "check_name" |}, None)
  ∧ rules.CachedConfiguration_EvalRules cc examples.numeric_event
    = (false, None, None).
Proof.
  intros Hprep. split; [reflexivity|].
  unfold rules.PrepareConfiguration in Hprep. simpl in Hprep.
  destruct (rules.getOrCompileRegex "Encrypt" cache) as [[re|] c1];
    [|discriminate].
  inversion Hprep; subst. reflexivity.
Qed.

End TwoEvaluators.

Lemma C4_evaluators_disagree_on_non_string_field_witness :
  (@rules.PrepareConfiguration re2.engine examples.name_cfg ∅).1
  = Some examples.name_cached
  ∧ @rules.Configuration_EvalRules re2.engine examples.name_cfg
      examples.numeric_event
    = (true, Some {| rules.RuleName := "check_name" |}, None)
  ∧ rules.CachedConfiguration_EvalRules examples.name_cached
      examples.numeric_event
    = (false, None, None).
Proof.
  split; [reflexivity|].
  apply (@C4_evaluators_disagree_on_non_string_field re2.engine ∅
           (@rules.PrepareConfiguration re2.engine examples.name_cfg ∅).2).
  reflexivity.
Defined.
(** ** What [PrepareConfiguration] builds, and where the two evaluators
    agree *)

Section Prepared.
Context {E : RegexpEngine}.

Lemma getOrCompileRegex_ok (pattern : string)
  (cache cache' : gmap string Regexp)
  (re : Regexp) :
  spec.cache_ok cache →
  rules.getOrCompileRegex pattern cache = (Some re, cache') →
  Compile pattern = Some re ∧ spec.cache_ok cache'.
Proof.
  intros Hok. unfold rules.getOrCompileRegex.
  destruct (cache !! pattern) as [re0|] eqn:Hc.
  - intros [= -> <-]. split; [by apply Hok|done].
  - destruct (Compile pattern) as [re0|] eqn:Hp; [|discriminate].
    intros [= -> <-]. split; [done|].
    intros p re'. rewrite lookup_insert. case_decide as Hd.
    + intros [= <-]. by subst p.
    + apply Hok.
Qed.

Lemma getOrCompileRegex_fail (pattern : string)
  (cache cache' : gmap string Regexp) :
  rules.getOrCompileRegex pattern cache = (None, cache') → cache' = cache.
Proof.
  unfold rules.getOrCompileRegex.
  destruct (cache !! pattern); [discriminate|].
  destruct (Compile pattern); [discriminate|]. by intros [= <-].
Qed.

Lemma getOrCompileRegex_cache_ok (pattern : string)
  (cache : gmap string Regexp) :
  spec.cache_ok cache →
  spec.cache_ok (rules.getOrCompileRegex pattern cache).2.
Proof.
  intros Hok.
  destruct (rules.getOrCompileRegex pattern cache) as [[re|] c] eqn:Hg.
  - by destruct (getOrCompileRegex_ok _ _ _ _ Hok Hg).
  - by rewrite (getOrCompileRegex_fail _ _ _ Hg).
Qed.

Lemma prepareMatches_ok (ms : list rules.Match) :
  ∀ (cache cache' : gmap string Regexp) (cms : list rules.CachedMatch),
    spec.cache_ok cache →
    rules.prepareMatches ms cache = (Some cms, cache') →
    Forall2 spec.compiles_to ms cms ∧ spec.cache_ok cache'.
Proof.
  induction ms as [|m ms IH]; intros cache cache' cms Hok.
  - intros [= <- <-]. split; [constructor|done].
  - cbn [rules.prepareMatches].
    destruct (rules.getOrCompileRegex (rules.Regex m) cache)
      as [[re|] c1] eqn:Hg; [|discriminate].
    destruct (getOrCompileRegex_ok _ _ _ _ Hok Hg) as [Hre Hok1].
    destruct (rules.prepareMatches ms c1) as [[cms'|] c2] eqn:Hp;
      [|discriminate].
    intros [= <- <-].
    destruct (IH _ _ _ Hok1 Hp) as [Hall Hok2].
    split; [|done]. constructor; [|done]. by split.
Qed.

Lemma prepareMatches_cache_ok (ms : list rules.Match) :
  ∀ cache : gmap string Regexp,
    spec.cache_ok cache → spec.cache_ok (rules.prepareMatches ms cache).2.
Proof.
  induction ms as [|m ms IH]; intros cache Hok; [done|].
  cbn [rules.prepareMatches].
  pose proof (getOrCompileRegex_cache_ok (rules.Regex m) cache Hok) as H1.
  destruct (rules.getOrCompileRegex (rules.Regex m) cache) as [[re|] c1];
    [|done].
  specialize (IH c1 H1).
  by destruct (rules.prepareMatches ms c1) as [[cms'|] c2].
Qed.

Lemma prepareRules_ok (rs : list rules.Rule) :
  ∀ (cache cache' : gmap string Regexp) (crs : list rules.CachedRule),
    spec.cache_ok cache →
    rules.prepareRules rs cache = (Some crs, cache') →
    Forall2 spec.rule_compiles_to rs crs ∧ spec.cache_ok cache'.
Proof.
  induction rs as [|r rs IH]; intros cache cache' crs Hok.
  - intros [= <- <-]. split; [constructor|done].
  - cbn [rules.prepareRules].
    destruct (rules.prepareMatches (rules.Matches r) cache)
      as [[cms|] c1] eqn:Hm; [|discriminate].
    destruct (prepareMatches_ok _ _ _ _ Hok Hm) as [Hcms Hok1].
    destruct (rules.prepareRules rs c1) as [[crs'|] c2] eqn:Hp;
      [|discriminate].
    intros [= <- <-].
    destruct (IH _ _ _ Hok1 Hp) as [Hall Hok2].
    split; [|done]. constructor; [|done]. by split.
Qed.

(** The compiled rule set has the rules of the configuration, name by
    name and match by match, in the same order. *)
Lemma PrepareConfiguration_ok (cfg : rules.Configuration)
  (cache cache' : gmap string Regexp) (cc : rules.CachedConfiguration) :
  spec.cache_ok cache →
  rules.PrepareConfiguration cfg cache = (Some cc, cache') →
  Forall2 spec.rule_compiles_to (rules.Rules cfg) (rules.CRules cc)
  ∧ spec.cache_ok cache'.
Proof.
  intros Hok. unfold rules.PrepareConfiguration.
  destruct (rules.prepareRules (rules.Rules cfg) cache)
    as [[crs|] c1] eqn:Hp; [|discriminate].
  intros [= <- <-]. simpl. by apply (prepareRules_ok _ cache).
Qed.

Lemma Rule_Eval_loop_agree (ms : list rules.Match)
  (cms : list rules.CachedMatch) (evt : gmap string value) :
  Forall2 spec.compiles_to ms cms →
  (∀ m, m ∈ ms →
        (utils.FieldExists (rules.FieldName m) evt).1 = true →
        is_string (utils.FieldExists (rules.FieldName m) evt).2 = true) →
  ∀ b, rules.Rule_Eval_loop ms evt b
       = (b && forallb (spec.match_succeeds evt) cms, None).
Proof.
  induction 1 as [|m cm ms cms [Hf Hc] _ IH]; intros Hstr b.
  - simpl. by rewrite andb_true_r.
  - cbn [rules.Rule_Eval_loop forallb]. unfold spec.match_succeeds at 1.
    rewrite Hf.
    pose proof (Hstr m (list_elem_of_here _ _)) as Hm.
    destruct (utils.FieldExists (rules.FieldName m) evt) as [[] v];
      simpl in Hm.
    + specialize (Hm eq_refl). destruct v; try discriminate.
      rewrite Hc, IH; [|intros m' Hin; apply Hstr; by right].
      by rewrite andb_assoc.
    + rewrite IH; [|intros m' Hin; apply Hstr; by right].
      by destruct b.
Qed.

Lemma Rule_Eval_agree (r : rules.Rule) (cr : rules.CachedRule)
  (evt : gmap string value) :
  spec.rule_compiles_to r cr →
  (∀ m, m ∈ rules.Matches r →
        (utils.FieldExists (rules.FieldName m) evt).1 = true →
        is_string (utils.FieldExists (rules.FieldName m) evt).2 = true) →
  rules.Rule_Eval r evt = rules.CachedRule_Eval cr evt.
Proof.
  intros [Hn Hms] Hstr. unfold rules.Rule_Eval.
  rewrite (Rule_Eval_loop_agree _ _ _ Hms Hstr), CachedRule_Eval_spec.
  unfold spec.rule_matches. simpl. rewrite Hn.
  by destruct (forallb _ _).
Qed.

(** On a record in which the fields that the rules look at hold
    strings, the uncompiled evaluator and the compiled one return the
    same decision and the same rule name. *)
Lemma EvalRules_agree_on_string_fields (cfg : rules.Configuration)
  (cache cache' : gmap string Regexp) (cc : rules.CachedConfiguration)
  (evt : gmap string value) :
  spec.cache_ok cache →
  rules.PrepareConfiguration cfg cache = (Some cc, cache') →
  spec.fields_are_strings (rules.Rules cfg) evt →
  rules.Configuration_EvalRules cfg evt
  = rules.CachedConfiguration_EvalRules cc evt.
Proof.
  intros Hok Hprep Hstr.
  destruct (PrepareConfiguration_ok _ _ _ _ Hok Hprep) as [Hall _].
  unfold rules.Configuration_EvalRules, rules.CachedConfiguration_EvalRules.
  unfold spec.fields_are_strings in Hstr.
  induction Hall as [|r cr rs crs Hr _ IH]; [done|].
  cbn [rules.Configuration_EvalRules_loop
       rules.CachedConfiguration_EvalRules_loop].
  rewrite (Rule_Eval_agree r cr evt Hr);
    [|intros m Hm; apply (Hstr r m); [left|done]].
  rewrite CachedRule_Eval_spec.
  destruct (spec.rule_matches cr evt); [done|].
  apply IH. intros r' m Hr' Hm. apply (Hstr r' m); [by right|done].
Qed.

End Prepared.
(** ** Batch path: [FilterRecords] *)

Lemma clear_empty (rec : gmap string value) :
  cloudtrailprocessor.clear rec = ∅.
Proof.
  unfold cloudtrailprocessor.clear.
  apply map_eq. intros k. rewrite lookup_empty.
  assert (∀ base m : gmap string value,
             ∀ j, map_fold (fun k _ acc => delete k acc) base m !! j
                  = match m !! j with Some _ => None | None => base !! j end)
    as Hfold.
  { intros base.
    apply (map_fold_weak_ind
             (fun r m => ∀ j, r !! j
                = match m !! j with Some _ => None | None => base !! j end)).
    - intros j. by rewrite lookup_empty.
    - intros i x m r Hi IH j. rewrite lookup_delete, lookup_insert.
      case_decide; [done|]. apply IH. }
  rewrite Hfold. by destruct (rec !! k).
Qed.

Section Batch.
Context {E : RegexpEngine} {D : JsonDecoder}.
Variable cc : rules.CachedConfiguration.

Lemma EvalRules_no_error (evt : gmap string value) :
  ∃ b d, rules.CachedConfiguration_EvalRules cc evt = (b, d, None).
Proof.
  pose proof (EvalRules_loop_no_error (rules.CRules cc) evt) as H.
  unfold rules.CachedConfiguration_EvalRules.
  destruct (rules.CachedConfiguration_EvalRules_loop (rules.CRules cc) evt)
    as [[b d] e]. simpl in H. subst e. by exists b, d.
Qed.

Lemma filterRecord_spec (record : string) (out : list string)
  (pool : list (gmap string value)) :
  spec.pool_ok pool →
  (cloudtrailprocessor.filterRecord cc record out pool).1
  = spec.filter_from cc [record] out
  ∧ spec.pool_ok (cloudtrailprocessor.filterRecord cc record out pool).2.
Proof.
  intros Hpool. unfold cloudtrailprocessor.filterRecord.
  assert (∃ pool', cloudtrailprocessor.recordMapPool_Get pool = (∅, pool')
                   ∧ spec.pool_ok pool') as (pool' & -> & Hpool').
  { destruct Hpool as [|m pool -> Hpool]; simpl; eauto.
    exists []. split; [done|constructor]. }
  simpl. unfold spec.decodes, spec.keeps.
  unfold cloudtrailprocessor.recordMapPool_Put.
  destruct (Unmarshal_map record ∅) as [rec|].
  - destruct (EvalRules_no_error rec) as (b & d & ->). simpl.
    rewrite clear_empty.
    destruct b; (split; [done|by constructor]).
  - split; [done|by constructor].
Qed.

Lemma filter_from_app (l1 l2 out : list string) :
  spec.filter_from cc (l1 ++ l2) out
  = match spec.filter_from cc l1 out with
    | Ok out' => spec.filter_from cc l2 out'
    | Err e => Err e
    end.
Proof.
  revert out. induction l1 as [|r l1 IH]; intros out; [done|].
  simpl. destruct (spec.decodes r); [apply IH|done].
Qed.

Lemma FilterRecords_inner_spec (records : list string) (n : nat) :
  ∀ (j : nat) (out : list string) (pool : list (gmap string value)),
    spec.pool_ok pool → (j + n ≤ List.length records)%nat →
    (cloudtrailprocessor.FilterRecords_inner cc records n j out pool).1
    = spec.filter_from cc (take n (drop j records)) out
    ∧ spec.pool_ok
        (cloudtrailprocessor.FilterRecords_inner cc records n j out pool).2.
Proof.
  induction n as [|n IH]; intros j out pool Hpool Hlen; [done|].
  cbn [cloudtrailprocessor.FilterRecords_inner].
  destruct (records !! j) as [record|] eqn:Hj.
  2:{ apply lookup_ge_None in Hj. lia. }
  rewrite (drop_S _ _ _ Hj). cbn [take].
  change (record :: take n (drop (S j) records))
    with ([record] ++ take n (drop (S j) records)).
  rewrite filter_from_app.
  destruct (filterRecord_spec record out pool Hpool) as [H1 H2].
  destruct (cloudtrailprocessor.filterRecord cc record out pool)
    as [[out'|e] pool']; cbn [fst snd] in H1, H2; rewrite <- H1.
  - apply IH; [done|lia].
  - done.
Qed.

Lemma FilterRecords_outer_spec (records : list string) (fuel : nat) :
  ∀ (i : nat) (out : list string) (pool : list (gmap string value)),
    spec.pool_ok pool → (List.length records - i ≤ fuel)%nat →
    (cloudtrailprocessor.FilterRecords_outer cc records fuel i out pool).1
    = spec.filter_from cc (drop i records) out
    ∧ spec.pool_ok
        (cloudtrailprocessor.FilterRecords_outer cc records fuel i out pool).2.
Proof.
  induction fuel as [|fuel IH]; intros i out pool Hpool Hfuel.
  - simpl. destruct (Nat.ltb_spec i (List.length records)); [lia|].
    rewrite drop_ge; [done|lia].
  - cbn [cloudtrailprocessor.FilterRecords_outer].
    destruct (Nat.ltb_spec i (List.length records)) as [Hlt|Hge].
    2:{ rewrite drop_ge; [done|lia]. }
    set (n := Nat.min (i + cloudtrailprocessor.batchSize)
                      (List.length records) - i).
    assert (drop i records
            = take n (drop i records)
              ++ drop (i + cloudtrailprocessor.batchSize) records) as ->.
    { rewrite <- (take_drop n (drop i records)) at 1. f_equal.
      rewrite drop_drop.
      destruct (Nat.le_gt_cases (i + cloudtrailprocessor.batchSize)
                                (List.length records)).
      - f_equal. lia.
      - rewrite !drop_ge; [done|lia|lia]. }
    rewrite filter_from_app.
    destruct (FilterRecords_inner_spec records n i out pool Hpool
                ltac:(lia)) as [H1 H2].
    destruct (cloudtrailprocessor.FilterRecords_inner cc records n i out pool)
      as [[out'|e] pool']; cbn [fst snd] in H1, H2; rewrite <- H1.
    + apply IH; [done|]. unfold cloudtrailprocessor.batchSize. lia.
    + done.
Qed.

Lemma filter_from_decoded (l out : list string) :
  Forall (fun r => spec.decodes r = true) l →
  spec.filter_from cc l out = Ok (out ++ List.filter (spec.keeps cc) l).
Proof.
  intros Hall. revert out.
  induction Hall as [|r l Hr _ IH]; intros out.
  - simpl. by rewrite app_nil_r.
  - simpl. rewrite Hr, IH. destruct (spec.keeps cc r); [|done].
    by rewrite <- app_assoc.
Qed.

Lemma filter_from_Ok (l out out' : list string) :
  spec.filter_from cc l out = Ok out' →
  Forall (fun r => spec.decodes r = true) l.
Proof.
  revert out. induction l as [|r l IH]; intros out; [constructor|].
  simpl. destruct (spec.decodes r) eqn:Hr; [|discriminate].
  intros H. constructor; [done|]. by apply IH in H.
Qed.

Lemma filter_from_undecodable (l out : list string) :
  Exists (fun r => spec.decodes r = false) l →
  ∃ e, spec.filter_from cc l out = Err e.
Proof.
  intros Hex. destruct (spec.filter_from cc l out) as [out'|e] eqn:Hf;
    [|by exists e].
  apply filter_from_Ok in Hf. apply Exists_exists in Hex as (r & Hin & Hr).
  rewrite list.Forall_forall in Hf.
  specialize (Hf r (proj2 (list_elem_of_In _ _) Hin)). congruence.
Qed.

Lemma keeps_decodes (record : string) :
  spec.keeps cc record = true → spec.decodes record = true.
Proof.
  unfold spec.keeps, spec.decodes.
  by destruct (Unmarshal_map record ∅).
Qed.

Lemma filter_keeps_idem (l : list string) :
  List.filter (spec.keeps cc) (List.filter (spec.keeps cc) l)
  = List.filter (spec.keeps cc) l.
Proof.
  induction l as [|r l IH]; [done|]. simpl.
  destruct (spec.keeps cc r) eqn:Hr; [|done].
  simpl. by rewrite Hr, IH.
Qed.

Lemma FilterRecords_spec (inct : cloudtrailprocessor.Cloudtrail)
  (pool : list (gmap string value)) :
  spec.pool_ok pool →
  (cloudtrailprocessor.FilterRecords inct cc pool).1
  = match spec.filter_from cc (cloudtrailprocessor.Records inct) [] with
    | Ok out => Ok {| cloudtrailprocessor.Records := out |}
    | Err e => Err e
    end
  ∧ spec.pool_ok (cloudtrailprocessor.FilterRecords inct cc pool).2.
Proof.
  intros Hpool. unfold cloudtrailprocessor.FilterRecords.
  destruct (FilterRecords_outer_spec (cloudtrailprocessor.Records inct)
              (List.length (cloudtrailprocessor.Records inct)) 0 [] pool
              Hpool ltac:(lia)) as [H1 H2].
  rewrite drop_0 in H1.
  destruct (cloudtrailprocessor.FilterRecords_outer cc _ _ 0 [] pool)
    as [[out|e] pool']; cbn [fst snd] in H1, H2; rewrite <- H1; done.
Qed.

(** C2. For every cached rule set and every input document,
    [FilterRecords] returns exactly the input records whose evaluation
    returns KEEP, as the original byte slices and in input order; and
    [FilterRecords] applied to its own output with the same rule set
    returns that output unchanged.  (The maps of the pool are empty, as
    [FilterRecords] leaves them.) *)
Theorem C2_FilterRecords_keeps_exactly
  (inct : cloudtrailprocessor.Cloudtrail) (pool : list (gmap string value)) :
  spec.pool_ok pool →
  (Forall (fun r => spec.decodes r = true)
          (cloudtrailprocessor.Records inct) →
   (cloudtrailprocessor.FilterRecords inct cc pool).1
   = Ok {| cloudtrailprocessor.Records :=
             List.filter (spec.keeps cc)
                         (cloudtrailprocessor.Records inct) |})
  ∧ (∀ outct pool',
        cloudtrailprocessor.FilterRecords inct cc pool = (Ok outct, pool') →
        cloudtrailprocessor.Records outct
        = List.filter (spec.keeps cc) (cloudtrailprocessor.Records inct)
        ∧ spec.pool_ok pool'
        ∧ (cloudtrailprocessor.FilterRecords outct cc pool').1 = Ok outct).
Proof.
  intros Hpool.
  destruct (FilterRecords_spec inct pool Hpool) as [H1 H2].
  split.
  - intros Hall. rewrite H1, (filter_from_decoded _ _ Hall). done.
  - intros outct pool' Heq. rewrite Heq in H1, H2. simpl in H1, H2.
    destruct (spec.filter_from cc (cloudtrailprocessor.Records inct) [])
      as [out|e] eqn:Hf; [|discriminate].
    pose proof (filter_from_Ok _ _ _ Hf) as Hall.
    rewrite (filter_from_decoded _ _ Hall) in Hf.
    inversion Hf; subst out. inversion H1; subst outct. simpl.
    split; [done|]. split; [done|].
    destruct (FilterRecords_spec
                {| cloudtrailprocessor.Records :=
                     List.filter (spec.keeps cc)
                                 (cloudtrailprocessor.Records inct) |}
                pool' H2) as [H3 _].
    rewrite H3. simpl. rewrite filter_from_decoded.
    + simpl. by rewrite filter_keeps_idem.
    + apply list.Forall_forall. intros r Hr.
      apply list_elem_of_In, filter_In in Hr as [_ Hr].
      by apply keeps_decodes.
Qed.

End Batch.

Lemma C2_FilterRecords_keeps_exactly_witness :
  (@cloudtrailprocessor.FilterRecords re2.engine json.decoder
     examples.trail examples.kms_cached []).1 = Ok examples.trail_kept
  ∧ (@cloudtrailprocessor.FilterRecords re2.engine json.decoder
       examples.trail_kept examples.kms_cached [∅]).1
    = Ok examples.trail_kept.
Proof.
  destruct (@C2_FilterRecords_keeps_exactly re2.engine json.decoder
              examples.kms_cached examples.trail [])
    as [H1 H2]; [constructor|].
  split.
  - rewrite H1; [reflexivity|].
    repeat constructor.
  - apply (H2 examples.trail_kept [∅]). reflexivity.
Defined.
(** ** Streaming path: [ProcessStream] *)

Section Streaming.
Context {E : RegexpEngine} {D : JsonDecoder}.
Context {W : Type} {Wr : processor.Writer W}.
Variable cc : rules.CachedConfiguration.
Variable ctx : nat → error.

Lemma shouldFilterRecord_undecodable (recordJSON : string) :
  spec.decodes recordJSON = false →
  processor.shouldFilterRecord cc recordJSON
  = (false, Some "failed to unmarshal record").
Proof.
  unfold spec.decodes, processor.shouldFilterRecord.
  by destruct (Unmarshal_map recordJSON ∅).
Qed.

Lemma append_byte_length (buf : string) (b : ascii) :
  (0 <? String.length (processor.append_byte buf b))%nat = true.
Proof.
  unfold processor.append_byte. induction buf as [|c buf IH]; done.
Qed.

(** Once the array is closed, the lines that follow leave the state of
    the extractor as it is, and the context is not looked at. *)
Lemma line_body_after_close (st : processor.state W) (line : string) :
  processor.foundRecords st = true →
  processor.inRecordsArray st = false →
  processor.line_body cc st line = (st, false).
Proof.
  intros Hf Hin. unfold processor.line_body.
  destruct (processor.all_space line); [done|].
  rewrite Hf. simpl. by rewrite Hin.
Qed.

Lemma line_step_after_close (st : processor.state W) (line : string) :
  processor.foundRecords st = true →
  processor.inRecordsArray st = false →
  processor.line_step cc st line = st.
Proof.
  intros Hf Hin. unfold processor.line_step.
  by rewrite line_body_after_close.
Qed.

Lemma lines_after_close (st : processor.state W) (lines : list string) :
  processor.foundRecords st = true →
  processor.inRecordsArray st = false →
  fold_left (processor.line_step cc) lines st = st.
Proof.
  intros Hf Hin. induction lines as [|l lines IH]; [done|].
  simpl. by rewrite line_step_after_close.
Qed.

Lemma lines_loop_error (lines : list string) :
  ∀ (k : nat) (st : processor.state W) (e : string),
    (processor.lines_loop cc ctx lines k st).2 = Some e →
    ∃ k', ctx k' = Some e.
Proof.
  induction lines as [|l lines IH]; intros k st e; [done|].
  cbn [processor.lines_loop].
  destruct (processor.line_body cc st l) as [st' [|]].
  - destruct (ctx k) as [e'|] eqn:Hk; [|apply IH].
    intros [= <-]. by exists k.
  - apply IH.
Qed.

Lemma lines_loop_live (lines : list string) :
  (∀ k, ctx k = None) →
  ∀ (k : nat) (st : processor.state W),
    processor.lines_loop cc ctx lines k st
    = (fold_left (processor.line_step cc) lines st, None).
Proof.
  intros Hlive. induction lines as [|l lines IH]; intros k st; [done|].
  cbn [processor.lines_loop fold_left]. unfold processor.line_step at 2.
  destruct (processor.line_body cc st l) as [st' [|]]; cbn [fst].
  - rewrite Hlive. apply IH.
  - apply IH.
Qed.

(** C7, as amended.  On the batch path a record that does not decode
    makes [FilterRecords] return an error and no document.  On the
    streaming path [processRecord] returns an error for such a record
    and writes nothing; the scan loop records the error with the
    metrics collector, drops the record and goes on.  The errors that
    [ProcessStream] itself returns are the error of the reader setup,
    of the write of the header or of the footer, of a context that is
    done, and of the scanner; when the reader and the scanner do not
    fail, the header and the footer are written and the context stays
    live, it returns no error, whatever the records are and whether or
    not they are written. *)
Theorem C7_decode_failure_fatal_on_batch_path_only :
  (∀ (inct : cloudtrailprocessor.Cloudtrail)
     (pool : list (gmap string value)),
      spec.pool_ok pool →
      Exists (fun r => spec.decodes r = false)
             (cloudtrailprocessor.Records inct) →
      ∃ e, (cloudtrailprocessor.FilterRecords inct cc pool).1 = Err e)
  ∧ (∀ (recordJSON : string) (st : processor.state W),
        spec.decodes recordJSON = false →
        let '(st', err) := processor.processRecord cc recordJSON st in
        err = Some "failed to unmarshal record"
        ∧ processor.written st' = processor.written st
        ∧ processor.firstRecord st' = processor.firstRecord st
        ∧ processor.res st' = processor.add_processed (processor.res st))
  ∧ (∀ st : processor.state W,
        processor.bracketDepth st = 1%Z →
        spec.decodes (processor.append_byte (processor.recordBuffer st) "}")
        = false →
        let st' := processor.byte_step cc st "}" in
        processor.written st' = processor.written st
        ∧ processor.metrics st'
          = processor.metrics st
            ++ [processor.RecordError "failed to unmarshal record"]
        ∧ processor.recordBuffer st' = EmptyString
        ∧ processor.bracketDepth st' = 0%Z
        ∧ processor.inRecordsArray st' = processor.inRecordsArray st
        ∧ processor.firstRecord st' = processor.firstRecord st)
  ∧ (∀ (reader : result (string * error)) (output : W) (e : string),
        (processor.ProcessStream cc ctx reader output).2 = Some e →
        (∃ e0, reader = Err e0
               ∧ e = ("failed to setup reader: " ++ e0)%string)
        ∨ (∃ e0, (processor.Write output
                    ("{" ++ processor.records_token ++ ":[")).2 = Some e0
                 ∧ e = ("failed to write output header: " ++ e0)%string)
        ∨ (∃ k, ctx k = Some e)
        ∨ (∃ input readErr e0,
              reader = Ok (input, readErr)
              ∧ ((processor.scan (processor.rawLines input)).2 = Some e0
                 ∨ readErr = Some e0)
              ∧ e = ("scanner error: " ++ e0)%string)
        ∨ (∃ w e0, (processor.Write w "]}").2 = Some e0
                   ∧ e = ("failed to write output footer: " ++ e0)%string))
  ∧ (∀ (input : string) (output : W),
        (∀ k, ctx k = None) →
        (processor.Write output
           ("{" ++ processor.records_token ++ ":[")).2 = None →
        (∀ w, (processor.Write w "]}").2 = None) →
        (processor.scan (processor.rawLines input)).2 = None →
        (processor.ProcessStream cc ctx (Ok (input, None)) output).2 = None).
Proof.
  split; [|split; [|split; [|split]]].
  - intros inct pool Hpool Hex.
    destruct (FilterRecords_spec cc inct pool Hpool) as [-> _].
    destruct (filter_from_undecodable cc _ [] Hex) as [e ->]. by exists e.
  - intros recordJSON st Hdec. unfold processor.processRecord.
    by rewrite (shouldFilterRecord_undecodable _ Hdec).
  - intros st Hdepth Hdec. unfold processor.byte_step.
    change (Ascii.eqb "}" "{") with false.
    change (Ascii.eqb "}" "}") with true. cbn iota.
    rewrite Hdepth. change (1 - 1 =? 0)%Z with true.
    rewrite append_byte_length. cbn [andb].
    unfold processor.processRecord.
    rewrite (shouldFilterRecord_undecodable _ Hdec). done.
  - intros reader output e. unfold processor.ProcessStream.
    destruct reader as [[input readErr]|e0].
    2:{ intros [= <-]. left. by exists e0. }
    destruct (processor.Write output ("{" ++ processor.records_token ++ ":["))
      as [w [e0|]] eqn:Hhead.
    { intros [= <-]. right. left. by exists e0. }
    destruct (processor.scan (processor.rawLines input))
      as [lines tooLong] eqn:Hscan.
    destruct (processor.lines_loop cc ctx lines 0 (processor.initial w))
      as [st [e0|]] eqn:Hloop.
    { intros [= <-]. right. right. left.
      apply (lines_loop_error lines 0 (processor.initial w)).
      by rewrite Hloop. }
    destruct tooLong as [e0|].
    { intros [= <-]. do 3 right. left.
      exists input, readErr, e0. split; [done|].
      split; [left; by rewrite Hscan|done]. }
    destruct readErr as [e0|].
    { intros [= <-]. do 3 right. left.
      exists input, (Some e0), e0. split; [done|]. split; [by right|done]. }
    destruct (processor.Write (processor.written st) "]}")
      as [w' [e0|]] eqn:Hfoot; [|done].
    intros [= <-]. do 4 right. exists (processor.written st), e0.
    by rewrite Hfoot.
  - intros input output Hlive Hhead Hwrite Hscan.
    unfold processor.ProcessStream.
    destruct (processor.Write output ("{" ++ processor.records_token ++ ":["))
      as [w [e0|]]; [done|].
    destruct (processor.scan (processor.rawLines input))
      as [lines tooLong]. cbn [snd] in Hscan. subst tooLong.
    rewrite (lines_loop_live lines Hlive).
    set (st := fold_left (processor.line_step cc) lines (processor.initial w)).
    pose proof (Hwrite (processor.written st)) as Hfoot.
    by destruct (processor.Write (processor.written st) "]}") as [w' [e0|]].
Qed.

End Streaming.

Lemma C7_decode_failure_fatal_on_batch_path_only_witness :
  (∃ e, (@cloudtrailprocessor.FilterRecords re2.engine json.decoder
           examples.bad_trail examples.no_rules []).1 = Err e)
  ∧ (@processor.processRecord re2.engine json.decoder string processor.buffer
       examples.no_rules examples.bad_record
       (processor.initial EmptyString)).2
    = Some "failed to unmarshal record"
  ∧ processor.metrics
      (@processor.byte_step re2.engine json.decoder string processor.buffer
         examples.no_rules examples.before_bad_close "}")
    = [processor.RecordError "failed to unmarshal record"]
  ∧ (@processor.ProcessStream re2.engine json.decoder string processor.buffer
       examples.no_rules examples.live (Ok (examples.stream_bad, None))
       EmptyString).2
    = None.
Proof.
  destruct (@C7_decode_failure_fatal_on_batch_path_only re2.engine
              json.decoder string processor.buffer examples.no_rules
              examples.live) as (H1 & H2 & H3 & _ & H5).
  split; [|split; [|split]].
  - apply H1; [constructor|].
    apply Exists_cons_tl, Exists_cons_hd. reflexivity.
  - specialize (H2 examples.bad_record (processor.initial EmptyString)
                  eq_refl).
    destruct (processor.processRecord examples.no_rules examples.bad_record
                (processor.initial EmptyString)) as [st' err].
    by destruct H2 as [-> _].
  - destruct (H3 examples.before_bad_close eq_refl eq_refl)
      as (_ & Hm & _).
    exact Hm.
  - apply H5; [done|reflexivity|done|reflexivity].
Defined.

(** C7, as stated, fails on the streaming path: the second record of the
    stream [{"Records":[{"a":"1"},{bad},{"c":"3"}]}] does not decode,
    and [ProcessStream], with a live context and a buffer as the writer,
    returns no error and writes the document made of the two other
    records. *)
Lemma C7_streaming_decode_failure_is_not_fatal :
  @spec.decodes json.decoder examples.bad_record = false
  ∧ (@processor.ProcessStream re2.engine json.decoder string processor.buffer
       examples.no_rules examples.live (Ok (examples.stream_bad, None))
       EmptyString).2 = None
  ∧ processor.written
      (@processor.ProcessStream re2.engine json.decoder string processor.buffer
         examples.no_rules examples.live (Ok (examples.stream_bad, None))
         EmptyString).1
    = examples.stream_bad_out
  ∧ processor.metrics
      (@processor.ProcessStream re2.engine json.decoder string processor.buffer
         examples.no_rules examples.live (Ok (examples.stream_bad, None))
         EmptyString).1
    = [processor.RecordProcessed 1;
       processor.RecordError "failed to unmarshal record";
       processor.RecordProcessed 1].
Proof. repeat split; vm_compute; reflexivity. Qed.

(** C6, at its failing input.  In the one-line stream
    [{"Records":[{"a":"1"}],"extra":{"b":"2"}}] the array is closed after
    its only record; the bytes that follow on the line are scanned all the
    same, and [{"b":"2"}] is handed to [processRecord] and written as a
    second record.  The context is live and the writer is a buffer. *)
Theorem C6_record_emitted_after_array_close :
  let st := (@processor.ProcessStream re2.engine json.decoder string
               processor.buffer examples.no_rules examples.live
               (Ok (examples.stream_trailing, None)) EmptyString).1 in
  processor.written st = examples.stream_trailing_out
  ∧ processor.written st ≠ examples.stream_trailing_expected
  ∧ processor.ProcessedCount (processor.res st) = 2%Z
  ∧ processor.inRecordsArray st = false.
Proof.
  repeat split; try (vm_compute; reflexivity).
  vm_compute. discriminate.
Qed.
(** ** Pattern validator *)

Lemma match_here_lits (s text : string) :
  re2.match_here (spec.lits s) false text = gostrings.HasPrefix text s.
Proof.
  revert text. induction s as [|c s IH]; intros text.
  - by destruct text.
  - destruct text as [|d text]; [done|].
    cbn. unfold spec.lits in IH. by rewrite IH.
Qed.

Lemma search_lits (s text : string) :
  re2.search (spec.lits s) false text = gostrings.Contains text s.
Proof.
  induction text as [|d text IH].
  - simpl. by rewrite match_here_lits.
  - cbn [re2.search gostrings.Contains]. by rewrite match_here_lits, IH.
Qed.

Lemma MatchString_pkg_literal (dangerous shape : string) :
  re2.compile dangerous
  = Some {| re2.anchored_start := false;
            re2.items := spec.lits shape;
            re2.anchored_end := false |} →
  ∀ pattern, re2.MatchString_pkg dangerous pattern
             = gostrings.Contains pattern shape.
Proof.
  intros Hc pattern. unfold re2.MatchString_pkg. rewrite Hc.
  apply search_lits.
Qed.

(** The four screens without a character class find exactly the literal
    occurrences of their shape; a literal occurrence of one of these four
    shapes is therefore always flagged. *)
Lemma containsReDoSPattern_literal_shapes (pattern : string) :
  rules.containsReDoSPattern pattern
  = gostrings.Contains pattern "(.*)+"
    || gostrings.Contains pattern "(.+)+"
    || re2.MatchString_pkg "\(\w\+\)\*\w\*" pattern
    || re2.MatchString_pkg "\(\d\+\)\+" pattern
    || gostrings.Contains pattern "(.*)*"
    || gostrings.Contains pattern "([^/]+)+/".
Proof.
  unfold rules.containsReDoSPattern, rules.dangerousPatterns.
  cbn [existsb].
  rewrite (MatchString_pkg_literal "\(\.\*\)\+" "(.*)+" eq_refl).
  rewrite (MatchString_pkg_literal "\(\.\+\)\+" "(.+)+" eq_refl).
  rewrite (MatchString_pkg_literal "\(\.\*\)\*" "(.*)*" eq_refl).
  rewrite (MatchString_pkg_literal "\(\[\^/\]\+\)\+/" "([^/]+)+/" eq_refl).
  rewrite orb_false_r. by rewrite !orb_assoc.
Qed.

Section Validator.
Context {E : RegexpEngine}.

Lemma ValidateIsRegex_true_iff (pattern : string) :
  rules.ValidateIsRegex pattern = true
  ↔ rules.containsReDoSPattern pattern = false
    ∧ (String.length pattern ≤ 1000)%nat
    ∧ is_Some (Compile pattern).
Proof.
  unfold rules.ValidateIsRegex.
  destruct (rules.containsReDoSPattern pattern).
  { split; [done|]. by intros [? _]. }
  destruct (Nat.ltb_spec 1000 (String.length pattern)).
  { split; [done|]. intros (_ & ? & _). lia. }
  destruct (Compile pattern) as [re|].
  - split; [|done]. intros _. split; [done|]. split; [lia|by exists re].
  - split; [done|]. intros (_ & _ & [? ?]). done.
Qed.

(** A pattern of exactly 1000 bytes passes the length check; one of 1001
    bytes is rejected. *)
Lemma ValidateIsRegex_length_boundary (pattern : string) :
  (String.length pattern = 1000%nat →
   rules.containsReDoSPattern pattern = false →
   is_Some (Compile pattern) →
   rules.ValidateIsRegex pattern = true)
  ∧ (String.length pattern = 1001%nat →
     rules.ValidateIsRegex pattern = false).
Proof.
  split.
  - intros Hlen Hs Hc. apply ValidateIsRegex_true_iff.
    split; [done|]. split; [lia|done].
  - intros Hlen. apply not_true_is_false. intros Hv.
    apply ValidateIsRegex_true_iff in Hv as (_ & ? & _). lia.
Qed.

(** C8, at its failing input.  The patterns [(\d+)+] and [(\w+)*\w*]
    are two of the six dangerous shapes; no screen of
    [containsReDoSPattern] finds them, because the screens written for
    them hold the classes [\d] and [\w] where the shape has a backslash
    and a letter: [ValidateIsRegex] accepts [(\d+)+] whenever it
    compiles.  The same screen flags [(5+)+], which holds none of the six
    shapes. *)
Theorem C8_ValidateIsRegex_accepts_listed_shapes :
  spec.has_dangerous_shape "(\d+)+" = true
  ∧ rules.containsReDoSPattern "(\d+)+" = false
  ∧ rules.ValidateIsRegex "(\d+)+"
    = match Compile "(\d+)+" with Some _ => true | None => false end
  ∧ spec.has_dangerous_shape "(\w+)*\w*" = true
  ∧ rules.containsReDoSPattern "(\w+)*\w*" = false
  ∧ rules.ValidateIsRegex "(\w+)*\w*"
    = match Compile "(\w+)*\w*" with Some _ => true | None => false end
  ∧ spec.has_dangerous_shape "(5+)+" = false
  ∧ rules.containsReDoSPattern "(5+)+" = true.
Proof.
  repeat split; try (vm_compute; reflexivity).
Qed.

End Validator.
(** ** Field path validation *)

Lemma Split_cons_dot (r : string) :
  gostrings.Split (String "." r) "." = EmptyString :: gostrings.Split r ".".
Proof. done. Qed.

Lemma Split_nonempty (s : string) (sep : ascii) : gostrings.Split s sep ≠ [].
Proof.
  destruct s as [|c r]; [done|]. simpl.
  destruct (Ascii.eqb c sep); [done|].
  by destruct (gostrings.Split r sep).
Qed.

Lemma Split_cons_other (c : ascii) (r : string) :
  Ascii.eqb c "." = false →
  ∃ h t, gostrings.Split r "." = h :: t
         ∧ gostrings.Split (String c r) "." = String c h :: t.
Proof.
  intros Hc. simpl. rewrite Hc.
  destruct (gostrings.Split r ".") as [|h t] eqn:Hs.
  - by apply Split_nonempty in Hs.
  - by exists h, t.
Qed.

Lemma Split_head_empty (d : ascii) (r : string) :
  match gostrings.Split (String d r) "." with
  | h :: _ => String.eqb h EmptyString = Ascii.eqb d "."
  | [] => False
  end.
Proof.
  destruct (Ascii.eqb d ".") eqn:Hd.
  - apply Ascii.eqb_eq in Hd as ->. by rewrite Split_cons_dot.
  - destruct (Split_cons_other d r Hd) as (h & t & _ & ->). done.
Qed.

Lemma HasPrefix_nil (s : string) : gostrings.HasPrefix s EmptyString = true.
Proof. by destruct s. Qed.
Lemma HasPrefix_cons (c p : ascii) (s pre : string) :
  gostrings.HasPrefix (String c s) (String p pre)
  = Ascii.eqb c p && gostrings.HasPrefix s pre.
Proof. done. Qed.
Lemma HasPrefix_dotdot (c : ascii) (r : string) :
  gostrings.HasPrefix (String c r) ".."
  = Ascii.eqb c "."
    && match r with
       | String d _ => Ascii.eqb d "."
       | EmptyString => false
       end.
Proof.
  rewrite HasPrefix_cons. destruct r as [|d r']; [done|].
  by rewrite HasPrefix_cons, HasPrefix_nil, andb_true_r.
Qed.

Lemma HasSuffix_dot_cons (c : ascii) (r : string) :
  gostrings.HasSuffix (String c r) "."
  = match r with
    | EmptyString => Ascii.eqb c "."
    | String _ _ => gostrings.HasSuffix r "."
    end.
Proof.
  unfold gostrings.HasSuffix. destruct r as [|d r'].
  - simpl. by destruct (Ascii.eqb c ".").
  - cbn [String.length Nat.leb Nat.sub]. cbn [gostrings.drop].
    by rewrite Nat.sub_0_r.
Qed.

Lemma validPath_class_split (c : ascii) :
  rules.validPath_class c = spec.segment_class c || Ascii.eqb c ".".
Proof.
  unfold rules.validPath_class, spec.segment_class.
  destruct (re2.is_alnum c), (Ascii.eqb c "_"), (Ascii.eqb c "."),
    (Ascii.eqb c "-"); done.
Qed.

(** The checks of [isValidFieldPath] after the first byte, against the
    segments of the path: the first segment may be empty here, the
    others may not. *)
Lemma path_checks_segments (s : string) :
  rules.all_bytes rules.validPath_class s
  && negb (gostrings.Contains s "..")
  && negb (gostrings.HasSuffix s ".")
  = match gostrings.Split s "." with
    | h :: t => rules.all_bytes spec.segment_class h
                && forallb spec.segment_bytes_ok t
    | [] => true
    end.
Proof.
  induction s as [|c r IH]; [done|].
  destruct (Ascii.eqb c ".") eqn:Hc.
  - apply Ascii.eqb_eq in Hc as ->. rewrite Split_cons_dot.
    cbn [rules.all_bytes gostrings.Contains]. rewrite HasSuffix_dot_cons.
    destruct r as [|d r'].
    + done.
    + pose proof (Split_head_empty d r') as Hh.
      destruct (gostrings.Split (String d r') ".") as [|h t]; [done|].
      cbn [forallb]. unfold spec.segment_bytes_ok at 1.
      rewrite Hh. rewrite <- !andb_assoc, <- IH.
      rewrite HasPrefix_dotdot.
      change (rules.validPath_class ".") with true.
      change (Ascii.eqb "." ".") with true. cbn [andb].
      destruct (Ascii.eqb d ".").
      * cbn [orb negb andb]. by rewrite !andb_false_r.
      * cbn [orb negb andb]. by rewrite !andb_assoc.
  - destruct (Split_cons_other c r Hc) as (h & t & Hs & ->).
    rewrite Hs in IH.
    cbn [rules.all_bytes gostrings.Contains]. rewrite HasSuffix_dot_cons.
    rewrite validPath_class_split, Hc, orb_false_r.
    rewrite HasPrefix_dotdot, Hc.
    cbn [orb]. rewrite <- !andb_assoc. f_equal.
    rewrite <- IH. destruct r as [|d r']; [|by rewrite !andb_assoc].
    done.
Qed.

(** C9, as amended.  [isValidFieldPath] accepts a string if and only if
    it begins with a letter and is a dotted path whose segments are not
    empty and hold bytes of [[A-Za-z0-9_-]] only; every path that the
    specification calls valid is accepted; [userIdentity..arn], [.x],
    [x.] and [x y] are rejected and [x-y] is accepted. *)
Theorem C9_isValidFieldPath_segments :
  (∀ path, rules.isValidFieldPath path = spec.valid_field_path_amended path)
  ∧ (∀ path, spec.valid_field_path path = true →
             rules.isValidFieldPath path = true)
  ∧ rules.isValidFieldPath "userIdentity..arn" = false
  ∧ rules.isValidFieldPath ".x" = false
  ∧ rules.isValidFieldPath "x." = false
  ∧ rules.isValidFieldPath "x y" = false
  ∧ rules.isValidFieldPath "x-y" = true.
Proof.
  assert (∀ path, rules.isValidFieldPath path
                  = spec.valid_field_path_amended path) as Hmain.
  { intros path. unfold rules.isValidFieldPath, spec.valid_field_path_amended.
    destruct path as [|c r]; [done|].
    cbn [rules.validPath_MatchString spec.starts_with_letter].
    destruct (re2.is_alpha c) eqn:Ha; [|done].
    assert (Ascii.eqb c "." = false) as Hc.
    { destruct (Ascii.eqb_spec c "."); [by subst|done]. }
    cbn [andb].
    pose proof (path_checks_segments (String c r)) as Hp.
    destruct (Split_cons_other c r Hc) as (h & t & Hs & Hs').
    rewrite Hs' in Hp |- *. cbn [forallb].
    unfold spec.segment_bytes_ok at 1. cbn [String.eqb negb andb].
    rewrite <- Hp.
    cbn [rules.all_bytes]. rewrite validPath_class_split, Hc, orb_false_r.
    assert (spec.segment_class c = true) as ->.
    { unfold spec.segment_class, re2.is_alnum. by rewrite Ha. }
    cbn [andb].
    rewrite HasPrefix_cons, Hc.
    rewrite orb_false_r.
    destruct (rules.all_bytes rules.validPath_class r); [|done].
    cbn [negb andb].
    destruct (gostrings.Contains (String c r) ".."); [done|].
    by destruct (gostrings.HasSuffix (String c r) "."). }
  split; [done|]. split; [|repeat split; vm_compute; reflexivity].
  intros path Hv. rewrite Hmain.
  unfold spec.valid_field_path in Hv. unfold spec.valid_field_path_amended.
  apply andb_true_intro. split.
  - destruct path as [|c r]; [done|].
    destruct (Ascii.eqb c ".") eqn:Hc.
    + apply Ascii.eqb_eq in Hc as ->. by rewrite Split_cons_dot in Hv.
    + destruct (Split_cons_other c r Hc) as (h & t & _ & Hs).
      rewrite Hs in Hv. simpl in Hv.
      apply andb_prop in Hv as [Hv _]. by apply andb_prop in Hv as [Hv _].
  - rewrite forallb_forall in Hv |- *. intros seg Hin.
    specialize (Hv seg Hin). destruct seg as [|c seg]; [done|].
    simpl in Hv |- *. apply andb_prop in Hv as [Ha Hr].
    unfold spec.segment_bytes_ok. cbn [String.eqb negb andb rules.all_bytes].
    rewrite Hr. unfold spec.segment_class, re2.is_alnum. by rewrite Ha.
Qed.

(** C9, as stated, fails: in [a.1] the second segment begins with a
    digit, and [isValidFieldPath] accepts the path. *)
Lemma C9_accepts_segment_starting_with_digit :
  rules.isValidFieldPath "a.1" = true ∧ spec.valid_field_path "a.1" = false.
Proof. split; vm_compute; reflexivity. Qed.

Lemma C9_isValidFieldPath_segments_witness :
  spec.valid_field_path "userIdentity.sessionContext.sessionIssuer.arn" = true
  ∧ rules.isValidFieldPath "userIdentity.sessionContext.sessionIssuer.arn"
    = true.
Proof.
  split; [reflexivity|].
  apply (proj1 (proj2 C9_isValidFieldPath_segments)). reflexivity.
Defined.
(** ** Retry driver *)

Lemma append_String (c : ascii) (s1 s2 : string) :
  (String c s1 ++ s2)%string = String c (s1 ++ s2)%string.
Proof. reflexivity. Qed.

Lemma append_nil_r (s : string) : (s ++ EmptyString)%string = s.
Proof.
  induction s as [|c s IH]; [done|]. rewrite append_String. by f_equal.
Qed.



Lemma take_app_length (s post : string) :
  gostrings.take (String.length s) (s ++ post)%string = s.
Proof.
  induction s as [|c s IH]; [by destruct post|].
  rewrite append_String. cbn [String.length gostrings.take].
  f_equal. apply IH.
Qed.





Section Driver.
Context {St : Type}.
Variable ctxDone : nat → bool.
Variable fn : St → error * St.



End Driver.


(** * Further properties of the code *)

(** ** [utils]: the two field resolvers *)

Lemma IsFieldPresent_loop_reach (obj m : gmap string value)
  (pre rest : list string) :
  spec.reach obj pre = Some m →
  utils.IsFieldPresent_loop obj (pre ++ rest)
  = utils.IsFieldPresent_loop m rest.
Proof.
  revert obj. induction pre as [|k pre IH]; intros obj Hreach.
  - simpl in Hreach. by inversion Hreach.
  - simpl in Hreach. simpl.
    destruct (obj !! k) as [[| | | | |nested]|] eqn:Hk; try discriminate.
    by apply IH.
Qed.

Lemma IsFieldPresent_loop_true (parts : list string) :
  ∀ (obj : gmap string value) (v : value),
    utils.IsFieldPresent_loop obj parts = (true, v) →
    ∃ pre k post m,
      parts = pre ++ k :: post ∧ spec.reach obj pre = Some m
      ∧ m !! k = Some v ∧ is_map v = false.
Proof.
  induction parts as [|part rest IH]; intros obj v; [done|].
  simpl. destruct (obj !! part) as [w|] eqn:Hp; [|done].
  destruct (is_map w) eqn:Hw.
  - destruct w; try discriminate. intros H.
    destruct (IH _ _ H) as (pre & k & post & m' & -> & Hr & Hk & Hv).
    exists (part :: pre), k, post, m'. simpl. by rewrite Hp.
  - intros H. assert (w = v) as ->.
    { destruct w; try discriminate; by inversion H. }
    exists [], part, rest, obj. done.
Qed.

(** [IsFieldPresent] reports a field as present, with the value [v],
    exactly when the walk along the path meets [v] as the first value
    that is not a mapping; the segments after that one are not looked
    at.  When it reports the field as absent the value is nil. *)
Theorem IsFieldPresent_first_scalar (field : string)
  (event : gmap string value) :
  (∀ v, utils.IsFieldPresent field event = (true, v)
        ↔ ∃ pre k post m,
            gostrings.Split field "." = pre ++ k :: post
            ∧ spec.reach event pre = Some m
            ∧ m !! k = Some v ∧ is_map v = false)
  ∧ ((utils.IsFieldPresent field event).1 = false →
     (utils.IsFieldPresent field event).2 = VNull).
Proof.
  unfold utils.IsFieldPresent. split.
  - intros v. split; [apply IsFieldPresent_loop_true|].
    intros (pre & k & post & m & -> & Hr & Hk & Hv).
    rewrite (IsFieldPresent_loop_reach _ _ _ _ Hr). simpl. rewrite Hk.
    by destruct v.
  - generalize (gostrings.Split field ".") as parts. intros parts.
    revert event. induction parts as [|part rest IH]; intros event; [done|].
    simpl. destruct (event !! part) as [w|]; [|done].
    destruct w; try done. apply IH.
Qed.

(** Whenever [FieldExists] finds a field, [IsFieldPresent] finds it too,
    with the same value. *)
Theorem FieldExists_implies_IsFieldPresent (field : string)
  (event : gmap string value) :
  (utils.FieldExists field event).1 = true →
  utils.IsFieldPresent field event = utils.FieldExists field event.
Proof.
  unfold utils.FieldExists, utils.IsFieldPresent.
  generalize (gostrings.Split field ".") as parts. intros parts.
  revert event. induction parts as [|part rest IH]; intros event; [done|].
  cbn [utils.findField utils.IsFieldPresent_loop].
  destruct (event !! part) as [w|]; [|done].
  destruct w; try (apply IH); by destruct rest.
Qed.

Lemma FieldExists_implies_IsFieldPresent_witness :
  utils.IsFieldPresent "baz.qux" more_examples.nested_event
  = (true, VString "quux").
Proof.
  rewrite (FieldExists_implies_IsFieldPresent "baz.qux"
             more_examples.nested_event); reflexivity.
Defined.

(** [IsFieldPresent] stops at a scalar that lies before the end of the
    path, where [FieldExists] reports the field as absent. *)
Example IsFieldPresent_stops_early :
  utils.IsFieldPresent "foo.qux" more_examples.nested_event
  = (true, VString "bar")
  ∧ utils.FieldExists "foo.qux" more_examples.nested_event = (false, VNull).
Proof. split; reflexivity. Qed.

Lemma IsFieldPresent_first_scalar_witness :
  utils.IsFieldPresent "foo.qux" more_examples.nested_event
  = (true, VString "bar").
Proof.
  apply (proj1 (IsFieldPresent_first_scalar "foo.qux"
                  more_examples.nested_event)).
  exists [], "foo", ["qux"], more_examples.nested_event.
  repeat split; reflexivity.
Defined.
(** ** [rules]: the compiled rule set and the pattern cache *)

Section PatternCache.
Context {E : RegexpEngine}.

Lemma getOrCompileRegex_grows (pattern : string) (cache : gmap string Regexp) :
  cache ⊆ (rules.getOrCompileRegex pattern cache).2.
Proof.
  unfold rules.getOrCompileRegex.
  destruct (cache !! pattern) as [re|] eqn:Hc; [done|].
  destruct (Compile pattern) as [re|]; [|done].
  simpl. by apply insert_subseteq.
Qed.

Lemma getOrCompileRegex_cached (pattern : string)
  (cache cache' : gmap string Regexp) (re : Regexp) :
  rules.getOrCompileRegex pattern cache = (Some re, cache') →
  cache' !! pattern = Some re.
Proof.
  unfold rules.getOrCompileRegex.
  destruct (cache !! pattern) as [re0|] eqn:Hc.
  - by intros [= <- <-].
  - destruct (Compile pattern) as [re0|]; [|discriminate].
    intros [= <- <-]. apply lookup_insert_eq.
Qed.

(** [getOrCompileRegex] and the pattern cache.  A pattern that the
    cache holds is answered from the cache: the call returns the entry,
    whatever [Compile] would return for the pattern, and leaves the
    cache untouched.  A call that succeeds for a pattern that the cache
    does not hold returns what [Compile] returns and stores it, and it
    changes no other entry.  So the cache only grows, after a call that
    succeeds the pattern is in the cache with the expression that was
    returned, and every later call for the pattern, whatever was added
    in between, returns that same expression and leaves the cache
    untouched. *)
Theorem getOrCompileRegex_cache_is_stable (pattern : string)
  (cache cache' : gmap string Regexp) (re : Regexp) :
  rules.getOrCompileRegex pattern cache = (Some re, cache') →
  cache ⊆ cache'
  ∧ cache' !! pattern = Some re
  ∧ (∀ re0, cache !! pattern = Some re0 → re = re0 ∧ cache' = cache)
  ∧ (cache !! pattern = None →
     Compile pattern = Some re ∧ cache' = <[pattern := re]> cache)
  ∧ (∀ (held : gmap string Regexp) (re0 : Regexp),
        held !! pattern = Some re0 →
        rules.getOrCompileRegex pattern held = (Some re0, held))
  ∧ ∀ later : gmap string Regexp,
      cache' ⊆ later →
      rules.getOrCompileRegex pattern later = (Some re, later).
Proof.
  intros Hg.
  assert (∀ (held : gmap string Regexp) (re0 : Regexp),
             held !! pattern = Some re0 →
             rules.getOrCompileRegex pattern held = (Some re0, held)) as Hhit.
  { intros held re0 Hh. unfold rules.getOrCompileRegex. by rewrite Hh. }
  split.
  { pose proof (getOrCompileRegex_grows pattern cache) as H.
    by rewrite Hg in H. }
  split; [by apply (getOrCompileRegex_cached _ cache)|].
  split.
  { intros re0 Hc. rewrite (Hhit _ _ Hc) in Hg. by injection Hg as <- <-. }
  split.
  { intros Hc. unfold rules.getOrCompileRegex in Hg. rewrite Hc in Hg.
    destruct (Compile pattern) as [re0|]; [|discriminate].
    by injection Hg as <- <-. }
  split; [exact Hhit|].
  intros later Hsub. apply Hhit.
  eapply lookup_weaken; [|exact Hsub].
  by apply (getOrCompileRegex_cached _ cache).
Qed.

Lemma prepareMatches_from_cache (ms : list rules.Match) :
  ∀ (cache cache' : gmap string Regexp) (cms : list rules.CachedMatch),
    rules.prepareMatches ms cache = (Some cms, cache') →
    cache ⊆ cache'
    ∧ Forall2 (fun m cm => rules.CFieldName cm = rules.FieldName m
                           ∧ cache' !! rules.Regex m = Some (rules.Pattern cm))
              ms cms.
Proof.
  induction ms as [|m ms IH]; intros cache cache' cms.
  - intros [= <- <-]. split; [done|constructor].
  - cbn [rules.prepareMatches].
    destruct (rules.getOrCompileRegex (rules.Regex m) cache)
      as [[re|] c1] eqn:Hg; [|discriminate].
    destruct (rules.prepareMatches ms c1) as [[cms'|] c2] eqn:Hp;
      [|discriminate].
    intros [= <- <-].
    destruct (IH _ _ _ Hp) as [Hsub Hall].
    pose proof (getOrCompileRegex_grows (rules.Regex m) cache) as Hsub1.
    rewrite Hg in Hsub1. cbn [snd] in Hsub1.
    split; [by etrans|].
    constructor; [|done]. split; [done|].
    apply (lookup_weaken c1); [|done].
    by apply (getOrCompileRegex_cached _ cache).
Qed.

Lemma prepareMatches_again (ms : list rules.Match)
  (cms : list rules.CachedMatch) (later : gmap string Regexp) :
  Forall2 (fun m cm => rules.CFieldName cm = rules.FieldName m
                       ∧ later !! rules.Regex m = Some (rules.Pattern cm))
          ms cms →
  rules.prepareMatches ms later = (Some cms, later).
Proof.
  induction 1 as [|m cm ms cms [Hf Hc] _ IH]; [done|].
  cbn [rules.prepareMatches]. unfold rules.getOrCompileRegex.
  rewrite Hc, IH. destruct cm as [f p]. simpl in *. by subst f.
Qed.

Lemma prepareRules_from_cache (rs : list rules.Rule) :
  ∀ (cache cache' : gmap string Regexp) (crs : list rules.CachedRule),
    rules.prepareRules rs cache = (Some crs, cache') →
    cache ⊆ cache'
    ∧ Forall2
        (fun r cr =>
           rules.CName cr = rules.Name r
           ∧ Forall2
               (fun m cm => rules.CFieldName cm = rules.FieldName m
                            ∧ cache' !! rules.Regex m
                              = Some (rules.Pattern cm))
               (rules.Matches r) (rules.CMatches cr))
        rs crs.
Proof.
  induction rs as [|r rs IH]; intros cache cache' crs.
  - intros [= <- <-]. split; [done|constructor].
  - cbn [rules.prepareRules].
    destruct (rules.prepareMatches (rules.Matches r) cache)
      as [[cms|] c1] eqn:Hm; [|discriminate].
    destruct (rules.prepareRules rs c1) as [[crs'|] c2] eqn:Hp;
      [|discriminate].
    intros [= <- <-].
    destruct (prepareMatches_from_cache _ _ _ _ Hm) as [Hsub1 Hcms].
    destruct (IH _ _ _ Hp) as [Hsub2 Hall].
    split; [by etrans|].
    constructor; [|done]. split; [done|]. simpl.
    eapply list.Forall2_impl; [exact Hcms|].
    intros m cm [Hf Hc]. split; [done|]. by apply (lookup_weaken c1).
Qed.

Lemma prepareRules_again (rs : list rules.Rule) (crs : list rules.CachedRule)
  (later : gmap string Regexp) :
  Forall2
    (fun r cr =>
       rules.CName cr = rules.Name r
       ∧ Forall2
           (fun m cm => rules.CFieldName cm = rules.FieldName m
                        ∧ later !! rules.Regex m = Some (rules.Pattern cm))
           (rules.Matches r) (rules.CMatches cr))
    rs crs →
  rules.prepareRules rs later = (Some crs, later).
Proof.
  induction 1 as [|r cr rs crs [Hn Hms] _ IH]; [done|].
  cbn [rules.prepareRules].
  rewrite (prepareMatches_again _ _ _ Hms), IH.
  destruct cr as [n ms]. simpl in *. by subst n.
Qed.

(** The compiled rule set has the rules of the configuration in the same
    order, each with the name it had and with the field names of its
    matches in the same order. *)
Theorem PrepareConfiguration_keeps_names (cfg : rules.Configuration)
  (cache cache' : gmap string Regexp) (cc : rules.CachedConfiguration) :
  rules.PrepareConfiguration cfg cache = (Some cc, cache') →
  map rules.CName (rules.CRules cc) = map rules.Name (rules.Rules cfg)
  ∧ map (fun cr => map rules.CFieldName (rules.CMatches cr)) (rules.CRules cc)
    = map (fun r => map rules.FieldName (rules.Matches r)) (rules.Rules cfg).
Proof.
  unfold rules.PrepareConfiguration. destruct cfg as [rs0].
  cbn [rules.Rules].
  destruct (rules.prepareRules rs0 cache) as [[crs|] c1] eqn:Hp;
    [|discriminate].
  intros [= <- <-]. cbn [rules.CRules].
  destruct (prepareRules_from_cache _ _ _ _ Hp) as [_ Hall].
  clear Hp. induction Hall as [|r cr rs crs [Hn Hms] _ IH]; [done|].
  cbn [map]. destruct IH as [-> ->]. rewrite Hn. split; [done|]. f_equal.
  clear -Hms. induction Hms as [|m cm ms cms [Hf _] _ IH]; [done|].
  cbn [map]. by rewrite Hf, IH.
Qed.

(** [PrepareConfiguration] and the pattern cache.  After a preparation
    that succeeds, the cache holds, for every match of the
    configuration, the expression that the compiled rule set has for it.
    Whenever the cache holds an entry for the pattern of every match,
    [PrepareConfiguration] builds the rule set from these entries,
    whatever [Compile] would return for the patterns, and leaves the
    cache as it is.  So preparing a configuration a second time, with
    the cache that the first preparation left or any larger one,
    compiles nothing: it returns the same compiled rule set and leaves
    the cache as it is. *)
Theorem PrepareConfiguration_again (cfg : rules.Configuration)
  (cache cache' : gmap string Regexp) (cc : rules.CachedConfiguration) :
  rules.PrepareConfiguration cfg cache = (Some cc, cache') →
  cache ⊆ cache'
  ∧ Forall2 (xspec.served_by cache') (rules.Rules cfg) (rules.CRules cc)
  ∧ (∀ (held : gmap string Regexp) (served : rules.CachedConfiguration),
        Forall2 (xspec.served_by held) (rules.Rules cfg)
                (rules.CRules served) →
        rules.PrepareConfiguration cfg held = (Some served, held))
  ∧ ∀ later : gmap string Regexp,
      cache' ⊆ later →
      rules.PrepareConfiguration cfg later = (Some cc, later).
Proof.
  assert (∀ (held : gmap string Regexp) (served : rules.CachedConfiguration),
             Forall2 (xspec.served_by held) (rules.Rules cfg)
                     (rules.CRules served) →
             rules.PrepareConfiguration cfg held = (Some served, held))
    as Hheld.
  { intros held [crs] Hall. unfold rules.PrepareConfiguration.
    cbn [rules.CRules] in Hall.
    by rewrite (prepareRules_again (rules.Rules cfg) crs held Hall). }
  unfold rules.PrepareConfiguration at 1.
  destruct (rules.prepareRules (rules.Rules cfg) cache)
    as [[crs|] c1] eqn:Hp; [|discriminate].
  intros [= <- <-].
  destruct (prepareRules_from_cache _ _ _ _ Hp) as [Hgrow Hall].
  split; [done|]. split; [exact Hall|]. split; [exact Hheld|].
  intros later Hsub. apply Hheld. cbn [rules.CRules].
  eapply list.Forall2_impl; [exact Hall|].
  intros r cr [Hn Hms]. split; [done|].
  eapply list.Forall2_impl; [exact Hms|].
  intros m cm [Hf Hc]. split; [done|]. by apply (lookup_weaken c1).
Qed.

Lemma prepareMatches_fails_iff (ms : list rules.Match) :
  ∀ cache : gmap string Regexp,
    spec.cache_ok cache →
    (rules.prepareMatches ms cache).1 = None
    ↔ ∃ m, m ∈ ms ∧ Compile (rules.Regex m) = None.
Proof.
  induction ms as [|m ms IH]; intros cache Hok.
  - simpl. split; [done|]. intros (m & Hin & _). by apply elem_of_nil in Hin.
  - cbn [rules.prepareMatches].
    pose proof (getOrCompileRegex_cache_ok (rules.Regex m) cache Hok) as Hok1.
    destruct (rules.getOrCompileRegex (rules.Regex m) cache)
      as [[re|] c1] eqn:Hg.
    + destruct (getOrCompileRegex_ok _ _ _ _ Hok Hg) as [Hre _].
      specialize (IH c1 Hok1).
      destruct (rules.prepareMatches ms c1) as [[cms|] c2]; simpl in *.
      * split; [done|]. intros (m' & Hin & Hc).
        apply elem_of_cons in Hin as [->|Hin]; [congruence|].
        assert (∃ m0, m0 ∈ ms ∧ Compile (rules.Regex m0) = None) as Hex
            by eauto.
        by apply IH in Hex.
      * split; [|done]. intros _.
        destruct (proj1 IH eq_refl) as (m' & Hin & Hc).
        exists m'. split; [by right|done].
    + simpl. split; [|done]. intros _. exists m. split; [left|].
      unfold rules.getOrCompileRegex in Hg.
      destruct (cache !! rules.Regex m); [discriminate|].
      by destruct (Compile (rules.Regex m)).
Qed.

Lemma prepareRules_fails_iff (rs : list rules.Rule) :
  ∀ cache : gmap string Regexp,
    spec.cache_ok cache →
    (rules.prepareRules rs cache).1 = None
    ↔ ∃ r m, r ∈ rs ∧ m ∈ rules.Matches r
             ∧ Compile (rules.Regex m) = None.
Proof.
  induction rs as [|r rs IH]; intros cache Hok.
  - simpl. split; [done|]. intros (r & m & Hin & _).
    by apply elem_of_nil in Hin.
  - cbn [rules.prepareRules].
    pose proof (prepareMatches_fails_iff (rules.Matches r) cache Hok) as Hm.
    pose proof (prepareMatches_cache_ok (rules.Matches r) cache Hok) as Hok1.
    destruct (rules.prepareMatches (rules.Matches r) cache)
      as [[cms|] c1]; simpl in *.
    + specialize (IH c1 Hok1).
      destruct (rules.prepareRules rs c1) as [[crs|] c2]; simpl in *.
      * split; [done|]. intros (r' & m & Hin & Hmin & Hc).
        apply elem_of_cons in Hin as [->|Hin].
        -- assert (∃ m0, m0 ∈ rules.Matches r
                         ∧ Compile (rules.Regex m0) = None) as Hex by eauto.
           by apply Hm in Hex.
        -- assert (∃ r0 m0, r0 ∈ rs ∧ m0 ∈ rules.Matches r0
                            ∧ Compile (rules.Regex m0) = None) as Hex
               by eauto.
           by apply IH in Hex.
      * split; [|done]. intros _.
        destruct (proj1 IH eq_refl) as (r' & m & Hin & Hmin & Hc).
        exists r', m. split; [by right|done].
    + split; [|done]. intros _.
      destruct (proj1 Hm eq_refl) as (m & Hin & Hc).
      exists r, m. split; [left|done].
Qed.

(** With a cache that holds what [Compile] returns,
    [PrepareConfiguration] fails exactly when the pattern of some match
    of the configuration does not compile. *)
Theorem PrepareConfiguration_fails_iff (cfg : rules.Configuration)
  (cache : gmap string Regexp) :
  spec.cache_ok cache →
  (rules.PrepareConfiguration cfg cache).1 = None
  ↔ ∃ r m, r ∈ rules.Rules cfg ∧ m ∈ rules.Matches r
           ∧ Compile (rules.Regex m) = None.
Proof.
  intros Hok. rewrite <- (prepareRules_fails_iff _ cache Hok).
  unfold rules.PrepareConfiguration.
  by destruct (rules.prepareRules (rules.Rules cfg) cache) as [[crs|] c1].
Qed.

End PatternCache.

Lemma getOrCompileRegex_cache_is_stable_witness :
  (@rules.getOrCompileRegex re2.engine "kms.*" ∅).2 !! "kms.*"
  = Some more_examples.kms_prog
  ∧ @rules.getOrCompileRegex re2.engine "kms.*"
      (@rules.getOrCompileRegex re2.engine "sts"
         (@rules.getOrCompileRegex re2.engine "kms.*" ∅).2).2
    = (Some more_examples.kms_prog,
       (@rules.getOrCompileRegex re2.engine "sts"
          (@rules.getOrCompileRegex re2.engine "kms.*" ∅).2).2).
Proof.
  assert (@rules.getOrCompileRegex re2.engine "kms.*" ∅
          = (Some more_examples.kms_prog,
             (@rules.getOrCompileRegex re2.engine "kms.*" ∅).2)) as H0
      by reflexivity.
  destruct (@getOrCompileRegex_cache_is_stable re2.engine "kms.*" ∅ _ _ H0)
    as (_ & Hstored & _ & _ & _ & Hlater).
  split; [exact Hstored|].
  apply Hlater. apply getOrCompileRegex_grows.
Defined.

Lemma PrepareConfiguration_keeps_names_witness :
  map rules.CName (rules.CRules examples.kms_cached)
  = ["check_kms"; "check_sts"].
Proof.
  assert (@rules.PrepareConfiguration re2.engine examples.kms_cfg ∅
          = (Some examples.kms_cached,
             (@rules.PrepareConfiguration re2.engine examples.kms_cfg ∅).2))
    as H0 by reflexivity.
  apply (@PrepareConfiguration_keeps_names re2.engine _ _ _ _ H0).
Defined.

Lemma PrepareConfiguration_again_witness :
  @rules.PrepareConfiguration re2.engine examples.kms_cfg
    (@rules.PrepareConfiguration re2.engine examples.kms_cfg ∅).2
  = (Some examples.kms_cached,
     (@rules.PrepareConfiguration re2.engine examples.kms_cfg ∅).2).
Proof.
  assert (@rules.PrepareConfiguration re2.engine examples.kms_cfg ∅
          = (Some examples.kms_cached,
             (@rules.PrepareConfiguration re2.engine examples.kms_cfg ∅).2))
    as H0 by reflexivity.
  destruct (@PrepareConfiguration_again re2.engine examples.kms_cfg ∅
              _ _ H0) as (_ & _ & _ & Hlater).
  by apply Hlater.
Defined.

Lemma PrepareConfiguration_fails_iff_witness :
  (@rules.PrepareConfiguration re2.engine more_examples.broken_cfg ∅).1 = None.
Proof.
  apply (@PrepareConfiguration_fails_iff re2.engine).
  - intros p re Hp. by rewrite lookup_empty in Hp.
  - exists more_examples.broken_rule, more_examples.broken_match.
    split; [left|]. split; [left|reflexivity].
Defined.
(** ** [rules]: what the evaluators return *)

Section EvaluatorOutcomes.
Context {E : RegexpEngine}.

(** The compiled evaluator never returns an error: it returns either
    [(false, nil, nil)] or [true] with the name of a rule of the set. *)
Theorem CachedConfiguration_EvalRules_outcome (cc : rules.CachedConfiguration)
  (evt : gmap string value) :
  rules.CachedConfiguration_EvalRules cc evt = (false, None, None)
  ∨ ∃ r, r ∈ rules.CRules cc
         ∧ rules.CachedConfiguration_EvalRules cc evt
           = (true, Some {| rules.RuleName := rules.CName r |}, None).
Proof.
  unfold rules.CachedConfiguration_EvalRules.
  induction (rules.CRules cc) as [|r rs IH]; [by left|].
  rewrite EvalRules_loop_cons.
  destruct (spec.rule_matches r evt).
  - right. exists r. split; [left|done].
  - destruct IH as [IH|(r' & Hin & IH)]; [by left|].
    right. exists r'. split; [by right|done].
Qed.

Lemma Rule_Eval_loop_error (ms : list rules.Match) (evt : gmap string value) :
  ∀ (b : bool) (err : string),
    (rules.Rule_Eval_loop ms evt b).2 = Some err →
    ∃ m, m ∈ ms ∧ Compile (rules.Regex m) = None
         ∧ (utils.FieldExists (rules.FieldName m) evt).1 = true
         ∧ is_string (utils.FieldExists (rules.FieldName m) evt).2 = true.
Proof.
  induction ms as [|m ms IH]; intros b err; [done|].
  cbn [rules.Rule_Eval_loop].
  destruct (utils.FieldExists (rules.FieldName m) evt) as [ex v] eqn:Hf.
  assert (∀ b', (rules.Rule_Eval_loop ms evt b').2 = Some err →
                ∃ m0, m0 ∈ m :: ms ∧ Compile (rules.Regex m0) = None
                      ∧ (utils.FieldExists (rules.FieldName m0) evt).1 = true
                      ∧ is_string
                          (utils.FieldExists (rules.FieldName m0) evt).2
                        = true) as Hrest.
  { intros b' H. destruct (IH _ _ H) as (m0 & Hin & Hm0).
    exists m0. split; [by right|done]. }
  destruct ex; [|apply Hrest].
  destruct v; try apply Hrest.
  destruct (Compile (rules.Regex m)) as [re|] eqn:Hc; [apply Hrest|].
  intros _. exists m. rewrite Hf. split; [left|done].
Qed.

(** The uncompiled evaluator returns an error only when it meets, in a
    rule it evaluates, a match whose field holds a string and whose
    pattern does not compile; with the error it returns [false] and no
    event. *)
Theorem Configuration_EvalRules_error (cfg : rules.Configuration)
  (evt : gmap string value) (err : string) :
  (rules.Configuration_EvalRules cfg evt).2 = Some err →
  rules.Configuration_EvalRules cfg evt = (false, None, Some err)
  ∧ ∃ r m, r ∈ rules.Rules cfg ∧ m ∈ rules.Matches r
           ∧ Compile (rules.Regex m) = None
           ∧ (utils.FieldExists (rules.FieldName m) evt).1 = true
           ∧ is_string (utils.FieldExists (rules.FieldName m) evt).2 = true.
Proof.
  unfold rules.Configuration_EvalRules.
  induction (rules.Rules cfg) as [|r rs IH]; [done|].
  cbn [rules.Configuration_EvalRules_loop]. unfold rules.Rule_Eval.
  destruct (rules.Rule_Eval_loop (rules.Matches r) evt true)
    as [b [e|]] eqn:Hl.
  - intros [= ->]. split; [done|].
    destruct (Rule_Eval_loop_error (rules.Matches r) evt true err)
      as (m & Hin & Hm); [by rewrite Hl|].
    exists r, m. split; [left|done].
  - destruct b; [done|]. intros H.
    destruct (IH H) as [Heq (r' & m & Hin & Hm)].
    split; [done|]. exists r', m. split; [by right|done].
Qed.

End EvaluatorOutcomes.

Lemma Configuration_EvalRules_error_witness :
  @rules.Configuration_EvalRules re2.engine more_examples.broken_cfg
    more_examples.named_event
  = (false, None, Some "invalid regex").
Proof.
  apply (@Configuration_EvalRules_error re2.engine). reflexivity.
Defined.

Lemma CachedRule_Eval_absent_or_not_string_witness :
  (@rules.CachedRule_Eval re2.engine
     (examples.compiled examples.check_name) examples.numeric_event).1.1
  = false
  ∧ (@rules.CachedRule_Eval re2.engine
       (examples.compiled examples.check_name) more_examples.empty_event).1.1
    = false.
Proof.
  split.
  - eapply (@CachedRule_Eval_absent_or_not_string re2.engine); [left|].
    right. reflexivity.
  - eapply (@CachedRule_Eval_absent_or_not_string re2.engine); [left|].
    left. reflexivity.
Defined.

Lemma Rule_Eval_absent_witness :
  (@rules.Rule_Eval re2.engine examples.check_kms
     (<["eventName" := VString "Encrypt"]> ∅)).1.1 = false.
Proof.
  apply (@Rule_Eval_absent re2.engine examples.check_kms _
           {| rules.FieldName := "eventSource"; rules.Regex := "kms.*" |}).
  - right. left.
  - reflexivity.
Defined.

Lemma EvalRules_agree_on_string_fields_witness :
  @rules.Configuration_EvalRules re2.engine examples.kms_cfg examples.kms_event
  = rules.CachedConfiguration_EvalRules examples.kms_cached examples.kms_event.
Proof.
  apply (@EvalRules_agree_on_string_fields re2.engine examples.kms_cfg ∅
           (@rules.PrepareConfiguration re2.engine examples.kms_cfg ∅).2).
  - intros p re Hp. by rewrite lookup_empty in Hp.
  - reflexivity.
  - intros r m Hr Hm _.
    repeat (apply elem_of_cons in Hr as [->|Hr];
            [repeat (apply elem_of_cons in Hm as [->|Hm]; [reflexivity|]);
             by apply elem_of_nil in Hm|]).
    by apply elem_of_nil in Hr.
Defined.
(** ** [rules]: validation of a versioned configuration *)

Lemma checkDuplicateRuleNames_loop_spec (rs : list rules.Rule) :
  ∀ (prefix : list string) (seen : gmap string nat),
    NoDup prefix →
    (∀ name j, seen !! name = Some j ↔ prefix !! j = Some name) →
    match rules.checkDuplicateRuleNames_loop rs (List.length prefix) seen with
    | None => NoDup (prefix ++ map rules.Name rs)
    | Some err =>
        ∃ i prev name,
          (prev < i)%nat
          ∧ (prefix ++ map rules.Name rs) !! i = Some name
          ∧ (prefix ++ map rules.Name rs) !! prev = Some name
          ∧ NoDup (take i (prefix ++ map rules.Name rs))
          ∧ err = xspec.duplicate_error i prev name
    end.
Proof.
  induction rs as [|r rs IH]; intros prefix seen Hnd Hseen.
  - simpl. by rewrite app_nil_r.
  - cbn [rules.checkDuplicateRuleNames_loop map].
    destruct (seen !! rules.Name r) as [prev|] eqn:Hs.
    + apply Hseen in Hs.
      exists (List.length prefix), prev, (rules.Name r).
      split; [by apply lookup_lt_Some in Hs|].
      split; [by rewrite lookup_app_r, Nat.sub_diag|].
      split; [by apply lookup_app_l_Some|].
      split; [|done].
      by rewrite list.take_app_length.
    + assert (rules.Name r ∉ prefix) as Hnotin.
      { intros Hin. apply list_elem_of_lookup in Hin as [j Hj].
        apply Hseen in Hj. congruence. }
      specialize (IH (prefix ++ [rules.Name r])
                     (<[rules.Name r := List.length prefix]> seen)).
      rewrite length_app in IH. simpl in IH.
      rewrite Nat.add_1_r in IH. rewrite <- app_assoc in IH. simpl in IH.
      apply IH.
      * apply list.NoDup_app. split; [done|]. split; [|apply list.NoDup_singleton].
        intros x Hx Hx'. apply list_elem_of_singleton in Hx'. by subst x.
      * intros name j. rewrite lookup_insert. case_decide as Hd.
        -- subst name. split.
           ++ intros [= <-]. by rewrite lookup_app_r, Nat.sub_diag.
           ++ intros Hj. f_equal.
              destruct (decide (j < List.length prefix)%nat) as [Hlt|Hge].
              ** rewrite lookup_app_l in Hj by done.
                 exfalso. apply Hnotin. by eapply list_elem_of_lookup_2.
              ** apply lookup_lt_Some in Hj. rewrite length_app in Hj.
                 simpl in Hj. lia.
        -- rewrite Hseen. split.
           ++ intros Hj. by apply lookup_app_l_Some.
           ++ intros Hj.
              destruct (decide (j < List.length prefix)%nat) as [Hlt|Hge].
              ** by rewrite lookup_app_l in Hj.
              ** rewrite lookup_app_r in Hj by lia.
                 destruct (j - List.length prefix)%nat; simpl in Hj;
                   [congruence|done].
Qed.

(** [checkDuplicateRuleNames] returns nil exactly when the names of the
    rules are pairwise different.  Otherwise it reports the first rule
    whose name was met before: the index [i] of that rule, its name, and
    the index of the earlier rule with that name; the names before [i]
    are pairwise different. *)
Theorem checkDuplicateRuleNames_first_duplicate
  (vc : rules.VersionedConfiguration) :
  let names := map rules.Name (rules.VRules vc) in
  (rules.checkDuplicateRuleNames vc = None ↔ NoDup names)
  ∧ (∀ err, rules.checkDuplicateRuleNames vc = Some err →
            ∃ i prev name,
              (prev < i)%nat
              ∧ names !! i = Some name ∧ names !! prev = Some name
              ∧ NoDup (take i names)
              ∧ err = xspec.duplicate_error i prev name).
Proof.
  intros names. unfold rules.checkDuplicateRuleNames.
  pose proof (checkDuplicateRuleNames_loop_spec (rules.VRules vc) [] ∅
                (NoDup_nil_2)) as H.
  simpl in H. fold names in H.
  assert (∀ (name : string) (j : nat),
             (∅ : gmap string nat) !! name = Some j
             ↔ ([] : list string) !! j = Some name) as H0.
  { intros name j. rewrite lookup_empty. by destruct j. }
  specialize (H H0).
  destruct (rules.checkDuplicateRuleNames_loop (rules.VRules vc) 0 ∅)
    as [err|].
  - split.
    + split; [done|]. intros Hnd.
      destruct H as (i & prev & name & Hlt & Hi & Hp & _).
      pose proof (NoDup_lookup _ _ _ _ Hnd Hi Hp). lia.
    + intros err' [= <-]. exact H.
  - split; [done|]. intros err' [=].
Qed.

Lemma checkDuplicateRuleNames_first_duplicate_witness :
  let names := map rules.Name (rules.VRules more_examples.dup_rules) in
  ∃ i prev name,
    (prev < i)%nat
    ∧ names !! i = Some name ∧ names !! prev = Some name
    ∧ NoDup (take i names)
    ∧ xspec.duplicate_error 2 0 "check_kms"
      = xspec.duplicate_error i prev name.
Proof.
  apply (proj2 (checkDuplicateRuleNames_first_duplicate
                  more_examples.dup_rules)).
  reflexivity.
Defined.
Lemma validateFieldPaths_matches_spec (i : nat) (ruleName : string)
  (ms : list rules.Match) :
  ∀ j, map (fun e => (rules.Rule_ e, rules.Message e))
           (rules.validateFieldPaths_matches i ruleName ms j)
       = map (fun nm : string * rules.Match =>
                (nm.1, ("invalid field path syntax: "
                        ++ rules.FieldName nm.2)%string))
             (List.filter
                (fun nm : string * rules.Match =>
                   negb (rules.isValidFieldPath (rules.FieldName nm.2)))
                (map (fun m => (ruleName, m)) ms)).
Proof.
  induction ms as [|m ms IH]; intros j; [done|].
  cbn [rules.validateFieldPaths_matches map List.filter fst snd].
  rewrite map_app, IH.
  by destruct (rules.isValidFieldPath (rules.FieldName m)).
Qed.

Lemma filter_app_bool {A : Type} (f : A → bool) (l1 l2 : list A) :
  List.filter f (l1 ++ l2) = List.filter f l1 ++ List.filter f l2.
Proof.
  induction l1 as [|x l1 IH]; [done|]. simpl.
  destruct (f x); [|done]. simpl. by rewrite IH.
Qed.

(** [validateFieldPaths] returns one error for every match whose field
    path [isValidFieldPath] rejects, in the order of the rules and of
    their matches, each with the name of its rule and with the path in
    its message; it returns none when every path is accepted. *)
Theorem validateFieldPaths_one_error_per_invalid_path
  (vc : rules.VersionedConfiguration) :
  map (fun e => (rules.Rule_ e, rules.Message e)) (rules.validateFieldPaths vc)
  = map (fun nm : string * rules.Match =>
           (nm.1, ("invalid field path syntax: "
                   ++ rules.FieldName nm.2)%string))
        (List.filter
           (fun nm : string * rules.Match =>
              negb (rules.isValidFieldPath (rules.FieldName nm.2)))
           (xspec.all_matches (rules.VRules vc))).
Proof.
  unfold rules.validateFieldPaths, xspec.all_matches.
  generalize 0%nat as i.
  induction (rules.VRules vc) as [|r rs IH]; intros i; [done|].
  cbn [rules.validateFieldPaths_loop map List.concat].
  rewrite map_app, filter_app_bool, map_app.
  by rewrite validateFieldPaths_matches_spec, IH.
Qed.

Lemma validateFieldPaths_nil_iff (vc : rules.VersionedConfiguration) :
  rules.validateFieldPaths vc = []
  ↔ ∀ r m, r ∈ rules.VRules vc → m ∈ rules.Matches r →
           rules.isValidFieldPath (rules.FieldName m) = true.
Proof.
  unfold rules.validateFieldPaths. generalize 0%nat as i.
  induction (rules.VRules vc) as [|r rs IH]; intros i.
  - split; [|done]. intros _ r m Hr. by apply elem_of_nil in Hr.
  - cbn [rules.validateFieldPaths_loop].
    assert (∀ ms j, rules.validateFieldPaths_matches i (rules.Name r) ms j = []
                    ↔ ∀ m, m ∈ ms →
                           rules.isValidFieldPath (rules.FieldName m) = true)
      as Hms.
    { clear. induction ms as [|m ms IH]; intros j.
      - split; [|done]. intros _ m Hm. by apply elem_of_nil in Hm.
      - cbn [rules.validateFieldPaths_matches].
        destruct (rules.isValidFieldPath (rules.FieldName m)) eqn:Hv.
        + simpl. rewrite IH. split.
          * intros H m' Hm'. apply elem_of_cons in Hm' as [->|Hm']; auto.
          * intros H m' Hm'. apply H. by right.
        + simpl. split; [done|]. intros H.
          specialize (H m ltac:(left)). congruence. }
    split.
    + intros H. apply app_eq_nil in H as [H1 H2].
      intros r' m Hr' Hm. apply elem_of_cons in Hr' as [->|Hr'].
      * by apply (proj1 (Hms _ _) H1).
      * by apply (proj1 (IH _) H2 r' m).
    + intros H. apply app_nil. split.
      * apply Hms. intros m Hm. apply (H r m); [left|done].
      * apply IH. intros r' m Hr' Hm. apply (H r' m); [by right|done].
Qed.

Lemma checkDuplicateRuleNames_None_iff (vc : rules.VersionedConfiguration) :
  rules.checkDuplicateRuleNames vc = None
  ↔ NoDup (map rules.Name (rules.VRules vc)).
Proof.
  unfold rules.checkDuplicateRuleNames.
  pose proof (checkDuplicateRuleNames_loop_spec (rules.VRules vc) [] ∅
                (NoDup_nil_2)) as H.
  simpl in H.
  assert (∀ (name : string) (j : nat),
             (∅ : gmap string nat) !! name = Some j
             ↔ ([] : list string) !! j = Some name) as H0.
  { intros name j. by rewrite lookup_empty, lookup_nil. }
  specialize (H H0).
  destruct (rules.checkDuplicateRuleNames_loop (rules.VRules vc) 0 ∅)
    as [err|]; [|done].
  split; [done|]. intros Hnd. exfalso.
  destruct H as (i & prev & name & Hlt & Hi & Hprev & _ & _).
  rewrite list.NoDup_alt in Hnd.
  specialize (Hnd _ _ _ Hi Hprev). lia.
Qed.

Section Validation.
Context {E : RegexpEngine}.
Variable CompileErrorText : string → string.
Variable validate_Struct : rules.VersionedConfiguration → error.

Lemma validateRules_matches_nil_iff (i : nat) (ruleName : string)
  (ms : list rules.Match) :
  ∀ j, rules.validateRules_matches CompileErrorText i ruleName ms j = []
       ↔ Forall xspec.match_ok ms.
Proof.
  induction ms as [|m ms IH]; intros j.
  - split; [constructor|done].
  - cbn [rules.validateRules_matches]. unfold xspec.match_ok at 1.
    rewrite list.Forall_cons. specialize (IH (S j)).
    destruct (String.eqb_spec (rules.FieldName m) EmptyString) as [Hf|Hf].
    { simpl. split; [done|]. by intros [[? _] _]. }
    destruct (String.eqb_spec (rules.Regex m) EmptyString) as [Hr|Hr].
    { simpl. split; [done|]. by intros [(_ & ? & _) _]. }
    destruct (Compile (rules.Regex m)) as [re|] eqn:Hc.
    2:{ simpl. split; [done|]. intros [(_ & _ & [? ?] & _) _]. done. }
    destruct (rules.containsReDoSPattern (rules.Regex m)) eqn:Hd.
    { simpl. split; [done|]. by intros [(_ & _ & _ & ?) _]. }
    simpl. rewrite IH. split.
    + intros H. split; [|done]. repeat split; eauto.
    + by intros [_ ?].
Qed.

Lemma validateRules_nil_iff (vc : rules.VersionedConfiguration) :
  rules.validateRules CompileErrorText vc = []
  ↔ Forall xspec.rule_ok (rules.VRules vc).
Proof.
  unfold rules.validateRules. generalize 0%nat as i.
  induction (rules.VRules vc) as [|r rs IH]; intros i.
  - split; [constructor|done].
  - cbn [rules.validateRules_loop]. rewrite list.Forall_cons.
    unfold xspec.rule_ok at 1. specialize (IH (S i)).
    destruct (String.eqb_spec (rules.Name r) EmptyString) as [Hn|Hn].
    { simpl. split; [done|]. by intros [[? _] _]. }
    destruct (rules.Matches r) as [|m ms] eqn:Hms.
    { simpl. split; [done|]. by intros [(_ & ? & _) _]. }
    rewrite <- Hms.
    replace (List.length (rules.Matches r) =? 0)%nat with false
      by (by rewrite Hms).
    cbn [app].
    pose proof (validateRules_matches_nil_iff i (rules.Name r)
                  (rules.Matches r) 0) as Hm.
    split.
    + intros H. apply app_eq_nil in H as [H1 H2].
      split; [|by apply IH]. split; [done|].
      split; [by rewrite Hms|by apply Hm].
    + intros [(_ & _ & Hall) Hrest]. apply app_nil.
      split; [by apply Hm|by apply IH].
Qed.

(** [Validate] returns nil exactly when the struct validator accepts the
    configuration, every rule has a name and at least one match, every
    match has a field name, a pattern that is not empty, compiles and
    passes the screens, the names of the rules are pairwise different
    and every field path is accepted by [isValidFieldPath].  A
    configuration that [Validate] accepts is always compiled by
    [PrepareConfiguration]. *)
Theorem Validate_accepts_iff (vc : rules.VersionedConfiguration) :
  (rules.Validate CompileErrorText validate_Struct vc = rules.Valid
   ↔ validate_Struct vc = None
     ∧ Forall xspec.rule_ok (rules.VRules vc)
     ∧ NoDup (map rules.Name (rules.VRules vc))
     ∧ (∀ r m, r ∈ rules.VRules vc → m ∈ rules.Matches r →
               rules.isValidFieldPath (rules.FieldName m) = true))
  ∧ (rules.Validate CompileErrorText validate_Struct vc = rules.Valid →
     ∀ cache : gmap string Regexp,
       spec.cache_ok cache →
       is_Some (rules.PrepareConfiguration (rules.ToConfiguration vc) cache).1).
Proof.
  assert (rules.Validate CompileErrorText validate_Struct vc = rules.Valid
          ↔ validate_Struct vc = None
            ∧ Forall xspec.rule_ok (rules.VRules vc)
            ∧ NoDup (map rules.Name (rules.VRules vc))
            ∧ (∀ r m, r ∈ rules.VRules vc → m ∈ rules.Matches r →
                      rules.isValidFieldPath (rules.FieldName m) = true))
    as Hiff.
  { unfold rules.Validate.
    destruct (validate_Struct vc) as [e|].
    { split; [done|]. by intros [? _]. }
    rewrite <- validateRules_nil_iff, <- validateFieldPaths_nil_iff.
    rewrite <- checkDuplicateRuleNames_None_iff.
    destruct (rules.validateRules CompileErrorText vc) as [|e1 l1].
    2:{ simpl. split; [done|]. by intros (_ & ? & _). }
    destruct (rules.checkDuplicateRuleNames vc) as [e2|].
    { simpl. split; [done|]. by intros (_ & _ & ? & _). }
    destruct (rules.validateFieldPaths vc) as [|e3 l3].
    - simpl. done.
    - simpl. split; [done|]. by intros (_ & _ & _ & ?). }
  split; [exact Hiff|].
  intros Hv cache Hok. apply Hiff in Hv as (_ & Hrules & _ & _).
  destruct (rules.PrepareConfiguration (rules.ToConfiguration vc) cache).1
    as [cc|] eqn:Hp; [by exists cc|].
  exfalso.
  assert ((rules.prepareRules (rules.VRules vc) cache).1 = None) as Hp'.
  { unfold rules.PrepareConfiguration, rules.ToConfiguration in Hp.
    simpl in Hp.
    by destruct (rules.prepareRules (rules.VRules vc) cache) as [[crs|] c1]. }
  apply (prepareRules_fails_iff _ cache Hok) in Hp'
    as (r & m & Hr & Hm & Hc).
  rewrite list.Forall_forall in Hrules.
  destruct (Hrules r Hr) as (_ & _ & Hms).
  rewrite list.Forall_forall in Hms.
  destruct (Hms m Hm) as (_ & _ & [re Hre] & _). congruence.
Qed.

End Validation.

Lemma Validate_accepts_iff_witness :
  rules.Validate (E := re2.engine) more_examples.error_text
    more_examples.lenient_validator more_examples.kms_versioned = rules.Valid
  ∧ is_Some (rules.PrepareConfiguration (E := re2.engine)
               (rules.ToConfiguration more_examples.kms_versioned) ∅).1.
Proof.
  assert (rules.Validate (E := re2.engine) more_examples.error_text
            more_examples.lenient_validator more_examples.kms_versioned
          = rules.Valid) as Hv by reflexivity.
  split; [exact Hv|].
  apply (proj2 (Validate_accepts_iff (E := re2.engine)
                  more_examples.error_text more_examples.lenient_validator
                  more_examples.kms_versioned) Hv ∅).
  intros p re H. by rewrite lookup_empty in H.
Defined.
(** ** [rules]: the version of a configuration *)

Lemma span_spec (p : ascii → bool) (s : string) :
  ∀ a b, rules.span p s = (a, b) →
         s = (a ++ b)%string
         ∧ rules.all_bytes p a = true
         ∧ match b with String c _ => p c = false | EmptyString => True end.
Proof.
  induction s as [|c s IH]; intros a b H.
  - injection H as <- <-. done.
  - cbn [rules.span] in H. destruct (p c) eqn:Hc.
    + destruct (rules.span p s) as [a' b'] eqn:Hs.
      injection H as <- <-. destruct (IH _ _ eq_refl) as (-> & Ha & Hb).
      rewrite append_String. cbn [rules.all_bytes]. by rewrite Hc, Ha.
    + injection H as <- <-. by rewrite Hc.
Qed.

Lemma span_app (p : ascii → bool) (a b : string) :
  rules.all_bytes p a = true →
  match b with String c _ => p c = false | EmptyString => True end →
  rules.span p (a ++ b)%string = (a, b).
Proof.
  intros Ha Hb. induction a as [|c a IH].
  - destruct b as [|c b]; [done|].
    change (EmptyString ++ String c b)%string with (String c b).
    cbn [rules.span]. by rewrite Hb.
  - cbn [rules.all_bytes] in Ha. apply andb_prop in Ha as [Hc Ha].
    rewrite append_String. cbn [rules.span]. by rewrite Hc, (IH Ha).
Qed.

Lemma semver_number_then_spec (sep : ascii) (s rest : string) :
  re2.is_digit sep = false →
  rules.semver_number_then sep s = Some rest
  ↔ ∃ n, xspec.digits n ∧ s = (n ++ String sep rest)%string.
Proof.
  intros Hsep. unfold rules.semver_number_then. split.
  - destruct (rules.span re2.is_digit s) as [a b] eqn:Hs.
    apply span_spec in Hs as (-> & Ha & _).
    destruct a as [|c a]; [done|]. destruct b as [|c' b]; [done|].
    destruct (Ascii.eqb_spec c' sep) as [->|]; [|done].
    intros [= ->]. by exists (String c a).
  - intros (n & [Hn Hd] & ->).
    rewrite (span_app re2.is_digit n (String sep rest) Hd Hsep).
    destruct n as [|c n]; [done|]. by rewrite Ascii.eqb_refl.
Qed.

Lemma semver_build_spec (s : string) :
  rules.semver_build s = true
  ↔ s = EmptyString ∨ ∃ id, s = ("+" ++ id)%string ∧ xspec.identifier id.
Proof.
  split.
  - destruct s as [|c r]; [by left|]. intros H. right.
    assert (c = "+"%char) as ->.
    { destruct c as [[] [] [] [] [] [] [] []]; try discriminate H. done. }
    cbn in H. destruct (rules.span rules.semver_ident_class r) as [a b] eqn:Hs.
    apply span_spec in Hs as (-> & Ha & _).
    destruct a as [|c a]; [done|]. destruct b; [|done].
    exists (String c a). by rewrite append_nil_r.
  - intros [->|(id & -> & Hne & Hid)]; [done|].
    change ("+" ++ id)%string with (String "+" id).
    pose proof (span_app rules.semver_ident_class id EmptyString Hid I) as Hs.
    rewrite append_nil_r in Hs. unfold rules.semver_build. rewrite Hs.
    by destruct id.
Qed.

Lemma semver_prerelease_spec (s : string) :
  rules.semver_prerelease s = true
  ↔ ∃ pre build,
      s = (pre ++ build)%string
      ∧ (pre = EmptyString
         ∨ ∃ id, pre = ("-" ++ id)%string ∧ xspec.identifier id)
      ∧ (build = EmptyString
         ∨ ∃ id, build = ("+" ++ id)%string ∧ xspec.identifier id).
Proof.
  split.
  - intros H.
    assert ((∃ r, s = String "-" r)
            ∨ rules.semver_prerelease s = rules.semver_build s) as [[r ->]|Heq].
    { destruct s as [|c r]; [by right|].
      destruct c as [[] [] [] [] [] [] [] []]; try (by right).
      left. by exists r. }
    + cbn in H.
      destruct (rules.span rules.semver_ident_class r) as [a b] eqn:Hs.
      apply span_spec in Hs as (-> & Ha & _).
      destruct a as [|c a]; [done|].
      exists (String "-" (String c a)), b. split; [done|].
      split; [|by apply semver_build_spec].
      right. by exists (String c a).
    + rewrite Heq in H. exists EmptyString, s. split; [done|].
      split; [by left|by apply semver_build_spec].
  - intros (pre & build & -> & Hpre & Hbuild).
    assert (rules.semver_build build = true) as Hb
      by by apply semver_build_spec.
    destruct Hpre as [->|(id & -> & Hne & Hid)].
    + destruct Hbuild as [->|(id & -> & _)]; [done|]. exact Hb.
    + change (("-" ++ id) ++ build)%string with (String "-" (id ++ build)).
      unfold rules.semver_prerelease.
      rewrite (span_app rules.semver_ident_class id build Hid).
      * by destruct id.
      * by destruct Hbuild as [->|(id' & -> & _)].
Qed.

(** [ValidateSemver] accepts exactly the texts of the form
    [v?MAJOR.MINOR.PATCH(-PRERELEASE)?(+BUILD)?], where the three numbers
    are non-empty runs of decimal digits and the two optional parts are
    non-empty runs of letters, digits and dots: the language of the
    expression of the source, anchored at both ends. *)
Theorem ValidateSemver_accepts_exactly (version : string) :
  rules.ValidateSemver version = true ↔ xspec.semver version.
Proof.
  unfold rules.ValidateSemver, xspec.semver.
  set (s := match version with String "v" r => r | _ => version end).
  assert (Hdot : re2.is_digit "." = false) by reflexivity.
  split.
  - intros H.
    assert (∃ v, version = (v ++ s)%string ∧ (v = EmptyString ∨ v = "v"))
      as (v & Hv & Hvv).
    { subst s. destruct version as [|c r]; [exists EmptyString; auto|].
      destruct c as [[] [] [] [] [] [] [] []];
        try (exists EmptyString; split; [reflexivity|by left]).
      exists "v". split; [reflexivity|by right]. }
    clearbody s.
    destruct (rules.semver_number_then "." s) as [s1|] eqn:H1; [|done].
    destruct (rules.semver_number_then "." s1) as [s2|] eqn:H2; [|done].
    apply (semver_number_then_spec _ _ _ Hdot) in H1 as (major & Hmaj & ->).
    apply (semver_number_then_spec _ _ _ Hdot) in H2 as (minor & Hmin & ->).
    destruct (rules.span re2.is_digit s2) as [a rest] eqn:Hs.
    apply span_spec in Hs as (-> & Ha & _).
    destruct a as [|c a]; [done|].
    apply semver_prerelease_spec in H as (pre & build & -> & Hpre & Hbuild).
    exists v, major, minor, (String c a), pre, build.
    split; [|done]. rewrite Hv. reflexivity.
  - intros (v & major & minor & patch & pre & build & Hv & Hvv
            & Hmaj & Hmin & Hpatch & Hpre & Hbuild).
    assert (s = (major ++ "." ++ minor ++ "." ++ patch ++ pre ++ build)%string)
      as ->.
    { subst s. destruct Hvv as [->| ->].
      - rewrite Hv. destruct Hmaj as [Hne Hd].
        destruct major as [|c m]; [done|].
        cbn [rules.all_bytes] in Hd. apply andb_prop in Hd as [Hc _].
        change (EmptyString ++ ?x)%string with x.
        rewrite append_String.
        destruct c as [[] [] [] [] [] [] [] []]; try reflexivity.
        discriminate Hc.
      - by rewrite Hv. }
    replace (rules.semver_number_then "." _)
      with (Some (minor ++ "." ++ patch ++ pre ++ build)%string).
    2:{ symmetry. apply (semver_number_then_spec _ _ _ Hdot). by exists major. }
    replace (rules.semver_number_then "." _)
      with (Some (patch ++ pre ++ build)%string).
    2:{ symmetry. apply (semver_number_then_spec _ _ _ Hdot). by exists minor. }
    destruct Hpatch as [Hne Hd].
    rewrite (span_app re2.is_digit patch (pre ++ build)%string Hd).
    + destruct patch; [done|]. apply semver_prerelease_spec. eauto.
    + destruct Hpre as [->|(id & -> & _)]; [|done].
      by destruct Hbuild as [->|(id & -> & _)].
Qed.
(** ** [rules]: the dry run *)

Section DryRunCounts.
Context {E : RegexpEngine}.

Lemma EvalRules_shape (cc : rules.CachedConfiguration)
  (evt : gmap string value) :
  rules.CachedConfiguration_EvalRules cc evt = (false, None, None)
  ∨ ∃ d, rules.CachedConfiguration_EvalRules cc evt = (true, Some d, None).
Proof.
  unfold rules.CachedConfiguration_EvalRules.
  induction (rules.CRules cc) as [|r rs IH]; [by left|].
  rewrite EvalRules_loop_cons.
  destruct (spec.rule_matches r evt); [right; eauto|exact IH].
Qed.

Lemma DryRun_loop_spec (cc : rules.CachedConfiguration)
  (events : list (gmap string value)) :
  ∀ (filtered : Z) (hits : gmap string Z),
    ∃ hits',
      rules.DryRun_loop cc events filtered hits
      = Ok ((filtered
             + Z.of_nat (List.length (List.filter (xspec.dropped cc) events)))%Z,
            hits')
      ∧ (∀ name,
           default 0%Z (hits' !! name)
           = (default 0%Z (hits !! name)
              + Z.of_nat (List.length
                            (List.filter (xspec.dropped_by cc name) events)))%Z)
      ∧ (∀ name,
           is_Some (hits' !! name)
           ↔ is_Some (hits !! name)
             ∨ List.filter (xspec.dropped_by cc name) events ≠ []).
Proof.
  induction events as [|event rest IH]; intros filtered hits.
  - exists hits. cbn [rules.DryRun_loop List.filter List.length].
    split; [by rewrite Z.add_0_r|]. split.
    + intros name. by rewrite Z.add_0_r.
    + intros name. split; [by left|]. by intros [?|?].
  - cbn [rules.DryRun_loop List.filter].
    unfold xspec.dropped at 1.
    assert (∀ name, xspec.dropped_by cc name event
                    = match rules.CachedConfiguration_EvalRules cc event with
                      | (true, Some d, _) => String.eqb (rules.RuleName d) name
                      | _ => false
                      end) as Hby by done.
    destruct (EvalRules_shape cc event) as [Hev|[d Hev]]; rewrite Hev in *.
    + destruct (IH filtered hits) as (hits' & Hrun & Hcount & Hsome).
      exists hits'. cbn [fst]. split; [exact Hrun|].
      split; intros name; rewrite Hby; [apply Hcount|apply Hsome].
    + destruct (IH (filtered + 1)%Z
                  (<[rules.RuleName d :=
                       (default 0 (hits !! rules.RuleName d) + 1)%Z]> hits))
        as (hits' & Hrun & Hcount & Hsome).
      exists hits'. cbn [fst List.length]. split.
      { rewrite Hrun. do 2 f_equal. lia. }
      split; intros name; rewrite Hby.
      * rewrite Hcount.
        destruct (String.eqb_spec (rules.RuleName d) name) as [->|Hne].
        -- rewrite lookup_insert_eq. cbn [List.length default].
           rewrite Nat2Z.inj_succ. unfold id. lia.
        -- by rewrite lookup_insert_ne.
      * rewrite Hsome.
        destruct (String.eqb_spec (rules.RuleName d) name) as [->|Hne].
        -- rewrite lookup_insert_eq. split; [by right|]. intros _. left. eauto.
        -- by rewrite lookup_insert_ne.
Qed.

(** When the patterns of the configuration compile, [DryRun] returns a
    result and no error, whatever the sample events are.  [TotalEvents]
    is the number of events, [FilteredCount] the number of events that the
    compiled rules drop, [PassedCount] the number of the others,
    [FilterRate] the quotient of [FilteredCount] by [TotalEvents] (of
    zero by zero for no events), and [RuleHits] has, for every rule name
    under which some event is dropped, and for no other, the number of
    events dropped under that name. *)
Theorem DryRun_counts (vc : rules.VersionedConfiguration)
  (sampleEvents : list (gmap string value))
  (cache cache' : gmap string Regexp) (cc : rules.CachedConfiguration) :
  rules.PrepareConfiguration (rules.ToConfiguration vc) cache
  = (Some cc, cache') →
  ∃ r,
    rules.DryRun vc sampleEvents cache = (Ok r, cache')
    ∧ rules.TotalEvents r = Z.of_nat (List.length sampleEvents)
    ∧ rules.FilteredCount r
      = Z.of_nat (List.length (List.filter (xspec.dropped cc) sampleEvents))
    ∧ rules.PassedCount r
      = Z.of_nat (List.length
                    (List.filter (fun e => negb (xspec.dropped cc e))
                       sampleEvents))
    ∧ rules.FilterRate r = (rules.FilteredCount r, rules.TotalEvents r)
    ∧ ∀ name,
        rules.RuleHits r !! name
        = match List.length
                  (List.filter (xspec.dropped_by cc name) sampleEvents) with
          | O => None
          | S n => Some (Z.of_nat (S n))
          end.
Proof.
  intros Hp. unfold rules.DryRun. rewrite Hp.
  destruct (DryRun_loop_spec cc sampleEvents 0 ∅)
    as (hits & Hrun & Hcount & Hsome).
  rewrite Hrun. eexists. split; [reflexivity|]. cbn.
  split; [done|]. split; [done|]. split.
  - assert (∀ l : list (gmap string value),
               List.length l
               = (List.length (List.filter (xspec.dropped cc) l)
                  + List.length
                      (List.filter (fun e => negb (xspec.dropped cc e)) l))%nat)
      as Hsplit.
    { induction l as [|e l IHl]; [done|]. cbn [List.filter].
      destruct (xspec.dropped cc e); cbn [negb List.length]; lia. }
    rewrite (Hsplit sampleEvents) at 1. lia.
  - split; [done|]. intros name.
    specialize (Hcount name). specialize (Hsome name).
    rewrite lookup_empty in Hcount, Hsome. cbn [default] in Hcount.
    destruct (List.filter (xspec.dropped_by cc name) sampleEvents)
      as [|e l] eqn:Hf.
    + cbn [List.length].
      destruct (hits !! name) as [k|] eqn:Hk; [|done].
      exfalso. destruct (proj1 Hsome (mk_is_Some _ _ eq_refl)) as [[? ?]|?];
        done.
    + cbn [List.length] in *.
      assert (e :: l ≠ []) as Hne by done.
      destruct (proj2 Hsome (or_intror Hne)) as [k Hk].
      rewrite Hk in *. cbn [from_option] in Hcount. unfold id in Hcount.
      f_equal. lia.
Qed.

(** With a cache that holds what [Compile] returns, [DryRun] fails
    exactly when the pattern of some match does not compile: the sample
    events have no part in it. *)
Theorem DryRun_fails_iff (vc : rules.VersionedConfiguration)
  (sampleEvents : list (gmap string value)) (cache : gmap string Regexp) :
  spec.cache_ok cache →
  (∃ msg, (rules.DryRun vc sampleEvents cache).1 = Err msg)
  ↔ ∃ r m, r ∈ rules.VRules vc ∧ m ∈ rules.Matches r
           ∧ Compile (rules.Regex m) = None.
Proof.
  intros Hok. rewrite <- (prepareRules_fails_iff _ cache Hok).
  unfold rules.DryRun, rules.PrepareConfiguration, rules.ToConfiguration.
  cbn [rules.Rules].
  destruct (rules.prepareRules (rules.VRules vc) cache) as [[crs|] c1].
  - cbn [fst].
    destruct (DryRun_loop_spec {| rules.CRules := crs |} sampleEvents 0 ∅)
      as (hits & Hrun & _).
    rewrite Hrun. split; [by intros [msg ?]|done].
  - cbn [fst]. split; [done|]. intros _. by eexists.
Qed.

End DryRunCounts.

Lemma DryRun_counts_witness :
  ∃ r,
    rules.DryRun (E := re2.engine) more_examples.kms_versioned
      [examples.kms_event; examples.logs_event; examples.kms_event] ∅
    = (Ok r, (rules.PrepareConfiguration (E := re2.engine)
                (rules.ToConfiguration more_examples.kms_versioned) ∅).2)
    ∧ rules.FilteredCount r = 2%Z
    ∧ rules.PassedCount r = 1%Z
    ∧ rules.RuleHits r !! "check_kms" = Some 2%Z
    ∧ rules.RuleHits r !! "check_sts" = None.
Proof.
  pose (p := rules.PrepareConfiguration (E := re2.engine)
               (rules.ToConfiguration more_examples.kms_versioned) ∅).
  pose (cc := match p.1 with
              | Some c => c
              | None => {| rules.CRules := [] |}
              end).
  assert (rules.PrepareConfiguration (E := re2.engine)
            (rules.ToConfiguration more_examples.kms_versioned) ∅
          = (Some cc, p.2)) as Hp by reflexivity.
  destruct (DryRun_counts (E := re2.engine) more_examples.kms_versioned
              [examples.kms_event; examples.logs_event; examples.kms_event]
              ∅ p.2 cc Hp)
    as (r & Hrun & _ & Hf & Hpass & _ & Hhits).
  exists r. split; [exact Hrun|].
  split; [rewrite Hf; reflexivity|].
  split; [rewrite Hpass; reflexivity|].
  split; rewrite Hhits; reflexivity.
Defined.

Lemma DryRun_fails_iff_witness :
  ∃ msg, (rules.DryRun (E := re2.engine)
            {| rules.Version := "1.0.0";
               rules.VRules := [more_examples.broken_rule];
               rules.Meta := None |}
            [more_examples.named_event] ∅).1 = Err msg.
Proof.
  apply (@DryRun_fails_iff re2.engine).
  - intros p re Hp. by rewrite lookup_empty in Hp.
  - exists more_examples.broken_rule, more_examples.broken_match.
    split; [left|]. split; [left|reflexivity].
Defined.
(** ** [metrics]: flushing the buffer *)

Section Flushing.
Context {Datum St : Type}.
Variable PutMetricData : string → list Datum → St → error * St.

Lemma Flush_loop_spec (ns : string) (metricsToSend : list Datum) (fuel : nat) :
  ∀ i : nat,
    (List.length metricsToSend - i ≤ fuel)%nat →
    ∃ batches : list (list Datum),
      List.concat batches = drop i metricsToSend
      ∧ Forall (fun b => (0 < List.length b ≤ metrics.batchSize)%nat) batches
      ∧ (∀ j b, batches !! j = Some b → (S j < List.length batches)%nat →
                List.length b = metrics.batchSize)
      ∧ ∀ st, metrics.Flush_loop PutMetricData ns metricsToSend fuel i st
              = xspec.send_all PutMetricData ns batches st.
Proof.
  assert (0 < metrics.batchSize)%nat as Hpos by (unfold metrics.batchSize; lia).
  induction fuel as [|fuel IH]; intros i Hfuel.
  - exists []. rewrite drop_ge by lia.
    split; [done|]. split; [constructor|]. split; [by intros j b H|].
    intros st. cbn [metrics.Flush_loop].
    by destruct (Nat.ltb_spec i (List.length metricsToSend)); [lia|].
  - destruct (Nat.ltb_spec i (List.length metricsToSend)) as [Hlt|Hge].
    2:{ exists []. rewrite drop_ge by lia.
        split; [done|]. split; [constructor|]. split; [by intros j b H|].
        intros st. cbn [metrics.Flush_loop].
        by destruct (Nat.ltb_spec i (List.length metricsToSend)); [lia|]. }
    destruct (IH (i + metrics.batchSize)%nat ltac:(lia))
      as (batches & Hcat & Hlen & Hfull & Hrun).
    set (end_ := if (List.length metricsToSend <? i + metrics.batchSize)%nat
                 then List.length metricsToSend
                 else (i + metrics.batchSize)%nat).
    set (batch := take (end_ - i) (drop i metricsToSend)).
    exists (batch :: batches).
    assert (batch = take metrics.batchSize (drop i metricsToSend)) as Hbatch.
    { subst batch end_.
      destruct (Nat.ltb_spec (List.length metricsToSend)
                             (i + metrics.batchSize)) as [Hshort|Hfits].
      - rewrite !take_ge; [done| |]; rewrite length_drop; lia.
      - f_equal. lia. }
    assert (List.length batch
            = Nat.min metrics.batchSize (List.length metricsToSend - i))
      as Hblen.
    { rewrite Hbatch, length_take, length_drop. done. }
    split.
    { cbn [List.concat]. rewrite Hcat, Hbatch.
      rewrite <- drop_drop. apply take_drop. }
    split.
    { constructor; [lia|done]. }
    split.
    { intros [|j] b Hj Hmore.
      - injection Hj as <-. rewrite Hblen.
        destruct (Nat.le_gt_cases metrics.batchSize
                    (List.length metricsToSend - i)) as [|Hshort]; [lia|].
        exfalso. rewrite drop_ge in Hcat by lia.
        destruct batches as [|b0 bs]; [cbn in Hmore; lia|].
        apply list.Forall_cons in Hlen as [Hb0 _].
        cbn [List.concat] in Hcat. apply app_eq_nil in Hcat as [-> _].
        cbn in Hb0. lia.
      - cbn in Hj. apply (Hfull j b Hj). cbn in Hmore. lia. }
    intros st. cbn [metrics.Flush_loop xspec.send_all].
    destruct (Nat.ltb_spec i (List.length metricsToSend)); [|lia].
    fold end_. fold batch.
    destruct (PutMetricData ns batch st) as [[err|] st']; [done|].
    apply Hrun.
Qed.

(** When the collector is enabled, [Flush] empties the buffer and sends
    what it held in batches, in order and without loss or repetition:
    every batch has at least one and at most [batchSize] (twenty) metrics
    and every batch but the last has exactly [batchSize].  The batches
    are sent one after the other up to the first that the service
    refuses; the batches after it are not sent, and the buffer is empty
    all the same. *)
Theorem Flush_sends_batches (cwm : metrics.CloudWatchMetrics) :
  metrics.enabled cwm = true →
  ∃ batches : list (list Datum),
    List.concat batches = metrics.metrics_ cwm
    ∧ Forall (fun b => (0 < List.length b ≤ metrics.batchSize)%nat) batches
    ∧ (∀ j b, batches !! j = Some b → (S j < List.length batches)%nat →
              List.length b = metrics.batchSize)
    ∧ ∀ st,
        metrics.Flush PutMetricData cwm st
        = ((xspec.send_all PutMetricData (metrics.namespace cwm) batches st).1,
           {| metrics.namespace := metrics.namespace cwm;
              metrics.metrics_ := [];
              metrics.enabled := true |},
           (xspec.send_all PutMetricData (metrics.namespace cwm) batches st).2).
Proof.
  intros Hen.
  destruct (Flush_loop_spec (metrics.namespace cwm) (metrics.metrics_ cwm)
              (List.length (metrics.metrics_ cwm)) 0 ltac:(lia))
    as (batches & Hcat & Hlen & Hfull & Hrun).
  rewrite drop_0 in Hcat.
  exists batches. split; [done|]. split; [done|]. split; [done|].
  intros st. unfold metrics.Flush. rewrite Hen. cbn [negb].
  destruct (Nat.eqb_spec (List.length (metrics.metrics_ cwm)) 0) as [Hz|Hnz].
  - apply nil_length_inv in Hz.
    assert (batches = []) as ->.
    { rewrite Hz in Hcat. destruct batches as [|b0 bs]; [done|].
      apply list.Forall_cons in Hlen as [Hb0 _].
      cbn [List.concat] in Hcat. apply app_eq_nil in Hcat as [-> _].
      cbn in Hb0. lia. }
    cbn [xspec.send_all fst snd]. destruct cwm as [ns ms en].
    cbn in *. by subst.
  - rewrite Hrun.
    by destruct (xspec.send_all PutMetricData (metrics.namespace cwm)
                   batches st) as [err st'].
Qed.

End Flushing.

Lemma Flush_sends_batches_witness :
  ∃ batches : list (list nat),
    List.concat batches = metrics.metrics_ more_examples.full_buffer
    ∧ Forall (fun b => (0 < List.length b ≤ metrics.batchSize)%nat) batches
    ∧ (∀ j b, batches !! j = Some b → (S j < List.length batches)%nat →
              List.length b = metrics.batchSize)
    ∧ ∀ st,
        metrics.Flush more_examples.record_put more_examples.full_buffer st
        = ((xspec.send_all more_examples.record_put
              (metrics.namespace more_examples.full_buffer) batches st).1,
           {| metrics.namespace := metrics.namespace more_examples.full_buffer;
              metrics.metrics_ := [];
              metrics.enabled := true |},
           (xspec.send_all more_examples.record_put
              (metrics.namespace more_examples.full_buffer) batches st).2).
Proof.
  apply (Flush_sends_batches more_examples.record_put
           more_examples.full_buffer).
  reflexivity.
Defined.
(** ** [retry]: the number of attempts *)

Section Attempts.
Context {St : Type}.
Variable ctxDone : nat → bool.
Variable fn : St → error * St.

Lemma DoWithConfig_loop_calls (cfg : retry.Config) (n : nat) :
  ∀ (attempt : Z) (lastErr : error) (k : nat) (s : St) (c : nat)
    (out : retry.outcome) (s' : St) (c' : nat),
    retry.DoWithConfig_loop ctxDone (xspec.counted fn) cfg n
      attempt lastErr k (s, c) = (out, (s', c')) →
    (c ≤ c' ≤ c + n)%nat
    ∧ (out = retry.Succeeded → (c < c')%nat)
    ∧ s' = xspec.after_calls fn (c' - c) s.
Proof.
  induction n as [|n IH]; intros attempt lastErr k s c out s' c' Hrun.
  - cbn in Hrun. injection Hrun as <- <- <-.
    rewrite Nat.sub_diag. split; [lia|]. split; [done|done].
  - cbn [retry.DoWithConfig_loop] in Hrun.
    destruct (ctxDone k).
    { injection Hrun as <- <- <-.
      rewrite Nat.sub_diag. split; [lia|]. split; [done|done]. }
    unfold xspec.counted at 1 in Hrun. cbn [fst snd] in Hrun.
    destruct (fn s) as [err s1] eqn:Hfn.
    assert (xspec.after_calls fn (S c - c) s = s1) as Hone.
    { replace (S c - c)%nat with 1%nat by lia.
      cbn [xspec.after_calls]. by rewrite Hfn. }
    destruct err as [err|].
    2:{ injection Hrun as <- <- <-. rewrite Hone.
        split; [lia|]. split; [lia|done]. }
    destruct (negb (retry.RetryableError cfg (Some err))).
    { injection Hrun as <- <- <-. rewrite Hone.
      split; [lia|]. split; [done|done]. }
    destruct (attempt =? retry.MaxRetries cfg)%Z.
    { injection Hrun as <- <- <-. rewrite Hone.
      split; [lia|]. split; [done|done]. }
    destruct (ctxDone (S k)).
    { injection Hrun as <- <- <-. rewrite Hone.
      split; [lia|]. split; [done|done]. }
    apply IH in Hrun as (Hb & Hs & Hst).
    split; [lia|]. split; [intros H; specialize (Hs H); lia|].
    rewrite Hst. replace (c' - c)%nat with (S (c' - S c)) by lia.
    cbn [xspec.after_calls]. by rewrite Hfn.
Qed.

(** [DoWithConfig] calls the operation at most [MaxRetries + 1] times,
    and at least once when it reports success; the state it leaves is
    the state after that many calls.  With a negative [MaxRetries] it
    does not call the operation at all, and still returns the
    "operation failed" error, around a nil error. *)
Theorem DoWithConfig_calls_bounded (cfg : retry.Config) (s : St) :
  let r := retry.DoWithConfig ctxDone (xspec.counted fn) cfg (s, 0%nat) in
  (r.2.2 ≤ Z.to_nat (retry.MaxRetries cfg + 1))%nat
  ∧ (r.1 = retry.Succeeded → (1 ≤ r.2.2)%nat)
  ∧ r.2.1 = xspec.after_calls fn r.2.2 s
  ∧ ((retry.MaxRetries cfg < 0)%Z →
     r = (retry.Exhausted (retry.MaxRetries cfg) None, (s, 0%nat))).
Proof.
  cbn zeta. unfold retry.DoWithConfig.
  destruct (retry.DoWithConfig_loop ctxDone (xspec.counted fn) cfg
              (Z.to_nat (retry.MaxRetries cfg + 1)) 0 None 0 (s, 0%nat))
    as [out [s' c']] eqn:Hrun.
  pose proof (DoWithConfig_loop_calls cfg _ _ _ _ _ _ _ _ _ Hrun)
    as (Hb & Hs & Hst).
  rewrite Nat.sub_0_r in Hst. cbn [fst snd].
  split; [lia|]. split; [intros H; specialize (Hs H); lia|].
  split; [done|]. intros Hneg.
  replace (Z.to_nat (retry.MaxRetries cfg + 1)) with 0%nat in Hrun by lia.
  cbn in Hrun. by rewrite <- Hrun.
Qed.

Hypothesis ctx_live : ∀ k, ctxDone k = false.

Lemma DoWithConfig_loop_success (cfg : retry.Config) (j : nat) :
  ∀ (n : nat) (attempt : Z) (lastErr : error) (k : nat) (s : St),
    (attempt + Z.of_nat n = retry.MaxRetries cfg + 1)%Z →
    (j < n)%nat →
    (∀ i, (i < j)%nat →
          ∃ e, (fn (xspec.after_calls fn i s)).1 = Some e
               ∧ retry.RetryableError cfg (Some e) = true) →
    (fn (xspec.after_calls fn j s)).1 = None →
    retry.DoWithConfig_loop ctxDone fn cfg n attempt lastErr k s
    = (retry.Succeeded, xspec.after_calls fn (S j) s).
Proof.
  induction j as [|j IH]; intros n attempt lastErr k s Hn Hj Hfail Hok.
  - destruct n as [|n]; [lia|]. cbn [retry.DoWithConfig_loop].
    rewrite ctx_live. cbn in Hok |- *.
    destruct (fn s) as [[e|] s']; [done|done].
  - destruct n as [|n]; [lia|]. cbn [retry.DoWithConfig_loop].
    rewrite ctx_live.
    destruct (Hfail 0%nat ltac:(lia)) as (e & He & Hre). cbn in He.
    change (xspec.after_calls fn (S (S j)) s)
      with (xspec.after_calls fn (S j) (fn s).2).
    change (xspec.after_calls fn (S j) s)
      with (xspec.after_calls fn j (fn s).2) in Hok.
    assert (∀ i, (i < j)%nat →
                 ∃ e, (fn (xspec.after_calls fn i (fn s).2)).1 = Some e
                      ∧ retry.RetryableError cfg (Some e) = true) as Hfail'.
    { intros i Hi. apply (Hfail (S i)). lia. }
    destruct (fn s) as [[e'|] s']; cbn [fst snd] in *; [|done].
    injection He as ->. rewrite Hre. cbn [negb].
    destruct (Z.eqb_spec attempt (retry.MaxRetries cfg)); [lia|].
    rewrite ctx_live. apply IH; [lia|lia|done|done].
Qed.

Lemma DoWithConfig_loop_exhausted (cfg : retry.Config) (n : nat) :
  ∀ (attempt : Z) (lastErr : error) (k : nat) (s : St),
    (attempt + Z.of_nat (S n) = retry.MaxRetries cfg + 1)%Z →
    (∀ i, (i ≤ n)%nat →
          ∃ e, (fn (xspec.after_calls fn i s)).1 = Some e
               ∧ retry.RetryableError cfg (Some e) = true) →
    retry.DoWithConfig_loop ctxDone fn cfg (S n) attempt lastErr k s
    = (retry.Exhausted (retry.MaxRetries cfg)
         (fn (xspec.after_calls fn n s)).1,
       xspec.after_calls fn (S n) s).
Proof.
  induction n as [|n IH]; intros attempt lastErr k s Hn Hfail.
  - cbn [retry.DoWithConfig_loop]. rewrite ctx_live.
    destruct (Hfail 0%nat ltac:(lia)) as (e & He & Hre). cbn in He |- *.
    destruct (fn s) as [[e'|] s']; cbn [fst snd] in *; [|done].
    injection He as ->. rewrite Hre. cbn [negb].
    destruct (Z.eqb_spec attempt (retry.MaxRetries cfg)); [done|lia].
  - remember (S n) as m eqn:Hm. cbn [retry.DoWithConfig_loop]. subst m.
    rewrite ctx_live.
    destruct (Hfail 0%nat ltac:(lia)) as (e & He & Hre). cbn in He.
    change (xspec.after_calls fn (S (S n)) s)
      with (xspec.after_calls fn (S n) (fn s).2).
    change (xspec.after_calls fn (S n) s)
      with (xspec.after_calls fn n (fn s).2).
    assert (∀ i, (i ≤ n)%nat →
                 ∃ e, (fn (xspec.after_calls fn i (fn s).2)).1 = Some e
                      ∧ retry.RetryableError cfg (Some e) = true) as Hfail'.
    { intros i Hi. apply (Hfail (S i)). lia. }
    destruct (fn s) as [[e'|] s']; cbn [fst snd] in *; [|done].
    injection He as ->. rewrite Hre. cbn [negb].
    destruct (Z.eqb_spec attempt (retry.MaxRetries cfg)); [lia|].
    rewrite ctx_live. apply IH; [lia|done].
Qed.

(** With a context that is not cancelled: when the operation fails with
    retryable errors [j] times, with [j] at most [MaxRetries], and then
    succeeds, [DoWithConfig] calls it [j + 1] times and returns nil; when
    each of the [MaxRetries + 1] calls fails with a retryable error, it
    returns the "operation failed after [MaxRetries] retries" error
    around the error of the last call. *)
Theorem DoWithConfig_retries_until_success (cfg : retry.Config) (s : St) :
  (0 ≤ retry.MaxRetries cfg)%Z →
  (∀ j : nat,
      (Z.of_nat j ≤ retry.MaxRetries cfg)%Z →
      (∀ i, (i < j)%nat →
            ∃ e, (fn (xspec.after_calls fn i s)).1 = Some e
                 ∧ retry.RetryableError cfg (Some e) = true) →
      (fn (xspec.after_calls fn j s)).1 = None →
      retry.DoWithConfig ctxDone fn cfg s
      = (retry.Succeeded, xspec.after_calls fn (S j) s))
  ∧ ((∀ i, (Z.of_nat i ≤ retry.MaxRetries cfg)%Z →
           ∃ e, (fn (xspec.after_calls fn i s)).1 = Some e
                ∧ retry.RetryableError cfg (Some e) = true) →
     retry.DoWithConfig ctxDone fn cfg s
     = (retry.Exhausted (retry.MaxRetries cfg)
          (fn (xspec.after_calls fn (Z.to_nat (retry.MaxRetries cfg)) s)).1,
        xspec.after_calls fn (S (Z.to_nat (retry.MaxRetries cfg))) s)).
Proof.
  intros Hmax. unfold retry.DoWithConfig. split.
  - intros j Hj Hfail Hok.
    apply DoWithConfig_loop_success; [lia|lia|done|done].
  - intros Hfail.
    replace (Z.to_nat (retry.MaxRetries cfg + 1))
      with (S (Z.to_nat (retry.MaxRetries cfg))) by lia.
    apply DoWithConfig_loop_exhausted; [lia|].
    intros i Hi. apply Hfail. lia.
Qed.

End Attempts.

Section Typed.
Context {St T : Type}.
Variable zero : T.
Variable ctxDone : nat → bool.
Variable fn : St → (T * error) * St.

Lemma DoTyped_loop_agrees (cfg : retry.Config) (n : nat) :
  ∀ (attempt : Z) (lastErr : error) (k : nat) (s : St)
    (v : T) (out : retry.outcome) (s1 : St),
    retry.DoTyped_loop zero ctxDone fn cfg n attempt lastErr k s
    = ((v, out), s1) →
    retry.DoWithConfig_loop ctxDone (xspec.forget fn) cfg n attempt lastErr k s
    = (out, s1)
    ∧ (out ≠ retry.Succeeded → v = zero)
    ∧ (out = retry.Succeeded →
       ∃ s0, (fn s0).1.2 = None ∧ v = (fn s0).1.1 ∧ s1 = (fn s0).2).
Proof.
  induction n as [|n IH]; intros attempt lastErr k s v out s1 Hrun.
  - cbn in Hrun. injection Hrun as <- <- <-. cbn. done.
  - cbn [retry.DoTyped_loop] in Hrun. cbn [retry.DoWithConfig_loop].
    destruct (ctxDone k).
    { injection Hrun as <- <- <-. done. }
    unfold xspec.forget at 1.
    destruct (fn s) as [[res [err|]] s'] eqn:Hfn; cbn [fst snd].
    2:{ injection Hrun as <- <- <-.
        split; [done|]. split; [done|]. intros _.
        exists s. by rewrite Hfn. }
    destruct (negb (retry.RetryableError cfg (Some err))).
    { injection Hrun as <- <- <-. done. }
    destruct (attempt =? retry.MaxRetries cfg)%Z.
    { injection Hrun as <- <- <-. done. }
    destruct (ctxDone (S k)).
    { injection Hrun as <- <- <-. done. }
    by apply IH.
Qed.

(** [DoTyped] ends as [Do] does for the same operation without its
    value, after the same calls; it returns the value of the call that
    succeeded, and the zero value of the type with every error. *)
Theorem DoTyped_agrees_with_Do (opts : list retry.Option) (s : St) :
  let typed := retry.DoTyped zero ctxDone fn opts s in
  let plain := retry.Do ctxDone (xspec.forget fn) opts s in
  typed.1.2 = plain.1 ∧ typed.2 = plain.2
  ∧ (typed.1.2 ≠ retry.Succeeded → typed.1.1 = zero)
  ∧ (typed.1.2 = retry.Succeeded →
     ∃ s0, (fn s0).1.2 = None ∧ typed.1.1 = (fn s0).1.1
           ∧ typed.2 = (fn s0).2).
Proof.
  cbn zeta. unfold retry.DoTyped, retry.Do, retry.DoWithConfig.
  set (cfg := fold_left (fun cfg opt => opt cfg) opts retry.DefaultConfig).
  destruct (retry.DoTyped_loop zero ctxDone fn cfg
              (Z.to_nat (retry.MaxRetries cfg + 1)) 0 None 0 s)
    as [[v out] s1] eqn:Hrun.
  apply DoTyped_loop_agrees in Hrun as (Hplain & Hzero & Hval).
  rewrite Hplain. done.
Qed.

End Typed.

Lemma DoWithConfig_calls_bounded_witness :
  retry.DoWithConfig examples.never_done
    (xspec.counted examples.always_denied)
    (retry.WithMaxRetries (-1) retry.DefaultConfig) (0%nat, 0%nat)
  = (retry.Exhausted (-1) None, (0%nat, 0%nat)).
Proof.
  apply (proj2 (proj2 (proj2
           (DoWithConfig_calls_bounded examples.never_done
              examples.always_denied
              (retry.WithMaxRetries (-1) retry.DefaultConfig) 0%nat)))).
  cbn. lia.
Defined.

Lemma DoWithConfig_retries_until_success_witness :
  retry.DoWithConfig examples.never_done more_examples.flaky
    retry.DefaultConfig 0%nat
  = (retry.Succeeded, 3%nat).
Proof.
  assert (0 ≤ retry.MaxRetries retry.DefaultConfig)%Z as Hmax by (cbn; lia).
  apply (proj1 (DoWithConfig_retries_until_success examples.never_done
                  more_examples.flaky (fun _ => eq_refl)
                  retry.DefaultConfig 0%nat Hmax) 2%nat).
  - cbn. lia.
  - intros i Hi. exists "timeout".
    destruct i as [|[|i]]; [by split|by split|lia].
  - reflexivity.
Defined.

Lemma DoTyped_agrees_with_Do_witness :
  (retry.DoTyped 0%Z examples.never_done
     more_examples.denied_with_value [] 0%nat).1.1
  = 0%Z.
Proof.
  apply (proj1 (proj2 (proj2
           (DoTyped_agrees_with_Do 0%Z examples.never_done
              more_examples.denied_with_value [] 0%nat)))).
  vm_compute. discriminate.
Defined.
(** ** [cloudtrailprocessor]: filtering with a configuration *)

Section FilterWithConfig.
Context {E : RegexpEngine} {D : JsonDecoder}.

Lemma match_succeeds_compiled (evt : gmap string value)
  (ms : list rules.Match) (cms : list rules.CachedMatch) :
  Forall2 spec.compiles_to ms cms →
  forallb (spec.match_succeeds evt) cms
  = forallb
      (fun m =>
         match utils.FieldExists (rules.FieldName m) evt with
         | (true, VString s) =>
             match Compile (rules.Regex m) with
             | Some re => MatchString re s
             | None => false
             end
         | _ => false
         end) ms.
Proof.
  induction 1 as [|m cm ms cms [Hf Hc] _ IH]; [done|].
  cbn [forallb]. rewrite IH. f_equal.
  unfold spec.match_succeeds. by rewrite Hf, Hc.
Qed.

Lemma EvalRules_compiled (rs : list rules.Rule) (crs : list rules.CachedRule)
  (evt : gmap string value) :
  Forall2 spec.rule_compiles_to rs crs →
  (rules.CachedConfiguration_EvalRules_loop crs evt).1.1
  = existsb (fun r => xspec.rule_drops r evt) rs.
Proof.
  induction 1 as [|r cr rs crs [Hn Hms] _ IH]; [done|].
  rewrite EvalRules_loop_cons. cbn [existsb].
  unfold spec.rule_matches, xspec.rule_drops at 1.
  rewrite (match_succeeds_compiled evt _ _ Hms).
  destruct (forallb _ (rules.Matches r)); [done|exact IH].
Qed.

Lemma prepareRules_cache_ok (rs : list rules.Rule) :
  ∀ cache : gmap string Regexp,
    spec.cache_ok cache → spec.cache_ok (rules.prepareRules rs cache).2.
Proof.
  induction rs as [|r rs IH]; intros cache Hok; [done|].
  cbn [rules.prepareRules].
  pose proof (prepareMatches_cache_ok (rules.Matches r) cache Hok) as H1.
  destruct (rules.prepareMatches (rules.Matches r) cache) as [[cms|] c1];
    [|done].
  specialize (IH c1 H1).
  by destruct (rules.prepareRules rs c1) as [[crs|] c2].
Qed.

(** [FilterRecordsWithConfig] compiles the configuration and filters with
    the compiled rules.  When some pattern does not compile it returns an
    error before any record is decoded.  When every pattern compiles and
    every record decodes it returns the records that no rule of the
    configuration drops, in input order.  The pattern cache stays
    faithful and the maps of the pool stay empty. *)
Theorem FilterRecordsWithConfig_keeps_exactly
  (inct : cloudtrailprocessor.Cloudtrail) (cfg : rules.Configuration)
  (cache : gmap string Regexp) (pool : list (gmap string value)) :
  spec.cache_ok cache →
  spec.pool_ok pool →
  let r := cloudtrailprocessor.FilterRecordsWithConfig inct cfg cache pool in
  spec.cache_ok r.1.2
  ∧ spec.pool_ok r.2
  ∧ ((∃ rule m, rule ∈ rules.Rules cfg ∧ m ∈ rules.Matches rule
                ∧ Compile (rules.Regex m) = None) →
     r.1.1 = Err "failed to prepare rules configuration" ∧ r.2 = pool)
  ∧ ((∀ rule m, rule ∈ rules.Rules cfg → m ∈ rules.Matches rule →
                is_Some (Compile (rules.Regex m))) →
     Forall (fun rec => spec.decodes rec = true)
            (cloudtrailprocessor.Records inct) →
     r.1.1 = Ok {| cloudtrailprocessor.Records :=
                     List.filter (xspec.kept_by cfg)
                                 (cloudtrailprocessor.Records inct) |}).
Proof.
  intros Hok Hpool. cbn zeta.
  unfold cloudtrailprocessor.FilterRecordsWithConfig.
  destruct (rules.PrepareConfiguration cfg cache) as [[cc|] cache'] eqn:Hp.
  - destruct (PrepareConfiguration_ok _ _ _ _ Hok Hp) as [Hall Hok'].
    destruct (FilterRecords_spec cc inct pool Hpool) as [Hres Hpool'].
    destruct (cloudtrailprocessor.FilterRecords inct cc pool)
      as [res pool'] eqn:Hrun.
    cbn [fst snd] in *. split; [done|]. split; [done|]. split.
    + intros (rule & m & Hr & Hm & Hc). exfalso.
      assert ((rules.PrepareConfiguration cfg cache).1 = None) as Hnone.
      { unfold rules.PrepareConfiguration.
        assert ((rules.prepareRules (rules.Rules cfg) cache).1 = None) as H
          by (apply (prepareRules_fails_iff _ cache Hok); eauto).
        by destruct (rules.prepareRules (rules.Rules cfg) cache)
          as [[crs|] c1]. }
      by rewrite Hp in Hnone.
    + intros _ Hdec. rewrite Hres, (filter_from_decoded cc _ _ Hdec).
      cbn [app]. do 2 f_equal.
      apply filter_ext. intros record.
      unfold spec.keeps, xspec.kept_by.
      destruct (Unmarshal_map record ∅) as [rec|]; [|done].
      unfold rules.CachedConfiguration_EvalRules.
      by rewrite (EvalRules_compiled _ _ rec Hall).
  - cbn [fst snd]. split.
    { unfold rules.PrepareConfiguration in Hp.
      pose proof (prepareRules_cache_ok (rules.Rules cfg) cache Hok) as H.
      destruct (rules.prepareRules (rules.Rules cfg) cache) as [[crs|] c1];
        [done|]. by injection Hp as <-. }
    split; [done|]. split; [done|].
    intros Hall _. exfalso.
    assert ((rules.prepareRules (rules.Rules cfg) cache).1 = None) as H.
    { unfold rules.PrepareConfiguration in Hp.
      by destruct (rules.prepareRules (rules.Rules cfg) cache)
        as [[crs|] c1]. }
    apply (prepareRules_fails_iff _ cache Hok) in H as (rule & m & Hr & Hm & Hc).
    destruct (Hall rule m Hr Hm) as [re Hre]. congruence.
Qed.

End FilterWithConfig.

Lemma FilterRecordsWithConfig_keeps_exactly_witness :
  (@cloudtrailprocessor.FilterRecordsWithConfig re2.engine json.decoder
     examples.trail examples.kms_cfg ∅ []).1.1
  = Ok examples.trail_kept
  ∧ (@cloudtrailprocessor.FilterRecordsWithConfig re2.engine json.decoder
       examples.trail more_examples.broken_cfg ∅ []).1.1
    = Err "failed to prepare rules configuration".
Proof.
  assert (spec.cache_ok (E := re2.engine) ∅) as Hok.
  { intros p re Hp. by rewrite lookup_empty in Hp. }
  assert (spec.pool_ok []) as Hpool by constructor.
  split.
  - destruct (@FilterRecordsWithConfig_keeps_exactly re2.engine json.decoder
                examples.trail examples.kms_cfg ∅ [] Hok Hpool)
      as (_ & _ & _ & H).
    rewrite H; [reflexivity| |repeat constructor].
    intros rule m Hr Hm.
    apply list_elem_of_In in Hr. cbn in Hr.
    destruct Hr as [<-|[<-|[]]]; apply list_elem_of_In in Hm; cbn in Hm.
    + destruct Hm as [<-|[<-|[]]]; by eexists.
    + destruct Hm as [<-|[]]; by eexists.
  - destruct (@FilterRecordsWithConfig_keeps_exactly re2.engine json.decoder
                examples.trail more_examples.broken_cfg ∅ [] Hok Hpool)
      as (_ & _ & H & _).
    apply H.
    exists more_examples.broken_rule, more_examples.broken_match.
    split; [left|]. split; [left|reflexivity].
Defined.
(** ** [utils]: [ExtractStringField] *)

Lemma Split_no_separator (s : string) (sep : ascii) :
  gostrings.IndexByte s sep = None → gostrings.Split s sep = [s].
Proof.
  induction s as [|c r IH]; [done|].
  cbn [gostrings.IndexByte gostrings.Split].
  destruct (Ascii.eqb c sep); [done|].
  destruct (gostrings.IndexByte r sep); [done|].
  intros _. by rewrite IH.
Qed.

(** For a key without a dot, [ExtractStringField] returns the string
    that [FieldExists] finds at the key, and "unknown" when
    [FieldExists] finds nothing or a value that is not a string. *)
Theorem ExtractStringField_agrees_with_FieldExists
  (evt : gmap string value) (key : string) :
  gostrings.IndexByte key "." = None →
  utils.ExtractStringField evt key
  = match utils.FieldExists key evt with
    | (true, VString s) => s
    | _ => "unknown"
    end.
Proof.
  intros Hdot. unfold utils.FieldExists, utils.ExtractStringField.
  rewrite (Split_no_separator _ _ Hdot). cbn [utils.findField].
  by destruct (evt !! key) as [[]|].
Qed.

Lemma ExtractStringField_agrees_with_FieldExists_witness :
  utils.ExtractStringField examples.kms_event "eventName"
  = match utils.FieldExists "eventName" examples.kms_event with
    | (true, VString s) => s
    | _ => "unknown"
    end.
Proof.
  apply ExtractStringField_agrees_with_FieldExists. reflexivity.
Defined.
(** ** Streaming path: the counters *)

Section StreamCounters.
Context {E : RegexpEngine} {D : JsonDecoder}.
Context {W : Type} {Wr : processor.Writer W}.
Variable cc : rules.CachedConfiguration.
Variable ctx : nat → error.

Lemma counts_ok_record (st : processor.state W) (buf : string) (depth : Z) :
  xspec.counts_ok st →
  xspec.counts_ok
    (let '(st', err) :=
       processor.processRecord cc buf (processor.with_buffer st depth buf) in
     match err with
     | Some e =>
         {| processor.foundRecords := processor.foundRecords st';
            processor.inRecordsArray := processor.inRecordsArray st';
            processor.bracketDepth := processor.bracketDepth st';
            processor.recordBuffer := processor.recordBuffer st';
            processor.firstRecord := processor.firstRecord st';
            processor.res := processor.res st';
            processor.written := processor.written st';
            processor.metrics :=
              (processor.metrics st' ++ [processor.RecordError e])%list |}
     | None => st'
     end).
Proof.
  intros (Hp & Hf & Ho & Hall). unfold processor.processRecord.
  destruct (processor.shouldFilterRecord cc buf) as [[|] [e|]];
    cbn [processor.with_buffer processor.firstRecord processor.written];
    [| |
     |destruct (processor.firstRecord st);
      [|destruct (processor.Write (processor.written st) ",") as [w [e|]]];
      try match goal with
          | |- context [processor.Write ?w buf] =>
              destruct (processor.Write w buf) as [w' [e'|]]
          end];
    unfold xspec.counts_ok;
    cbn [processor.res processor.metrics processor.with_buffer
         processor.with_res processor.with_written
         processor.add_processed processor.add_filtered
         processor.ProcessedCount processor.FilteredCount
         processor.OutputSize];
    rewrite ?length_app, ?filter_app_bool, ?length_app;
    cbn [List.filter xspec.is_filtered List.length app];
    (split; [lia|]); (split; [lia|]); (split; [done|]);
    apply list.Forall_app; (split; [done|]);
    (constructor; [|constructor]); eauto.
Qed.

Lemma counts_ok_byte_step (st : processor.state W) (b : ascii) :
  xspec.counts_ok st → xspec.counts_ok (processor.byte_step cc st b).
Proof.
  intros Hok. unfold processor.byte_step.
  destruct (Ascii.eqb b "{"); [done|].
  destruct (Ascii.eqb_spec b "}") as [->|_].
  - destruct (_ && _); [|done].
    pose proof (counts_ok_record st
                  (processor.append_byte (processor.recordBuffer st) "}")
                  (processor.bracketDepth st - 1) Hok) as H.
    destruct (processor.processRecord cc _ _) as [st' [e|]]; exact H.
  - destruct (Ascii.eqb b "]").
    + by destruct (processor.bracketDepth st =? 0)%Z.
    + by destruct (0 <? processor.bracketDepth st)%Z.
Qed.

Lemma counts_ok_bytes_loop (line : string) :
  ∀ st : processor.state W,
    xspec.counts_ok st → xspec.counts_ok (processor.bytes_loop cc st line).
Proof.
  induction line as [|b line IH]; intros st Hok; [done|].
  cbn [processor.bytes_loop]. by apply IH, counts_ok_byte_step.
Qed.

Lemma counts_ok_line_body (st : processor.state W) (line : string) :
  xspec.counts_ok st → xspec.counts_ok (processor.line_body cc st line).1.
Proof.
  intros Hok. unfold processor.line_body.
  destruct (processor.all_space line); [done|].
  destruct (negb (processor.foundRecords st)).
  - destruct (gostrings.Contains line processor.records_token); [|done].
    destruct (gostrings.IndexByte line "[") as [idx|].
    + cbn [negb processor.set_flags processor.inRecordsArray fst].
      by apply counts_ok_bytes_loop.
    + cbn [processor.set_flags processor.inRecordsArray].
      destruct (negb (processor.inRecordsArray st)); [done|].
      by apply counts_ok_bytes_loop.
  - destruct (negb (processor.inRecordsArray st)); [done|].
    by apply counts_ok_bytes_loop.
Qed.

Lemma counts_ok_lines_loop (lines : list string) :
  ∀ (k : nat) (st : processor.state W),
    xspec.counts_ok st →
    xspec.counts_ok (processor.lines_loop cc ctx lines k st).1.
Proof.
  induction lines as [|l lines IH]; intros k st Hok; [done|].
  cbn [processor.lines_loop].
  pose proof (counts_ok_line_body st l Hok) as Hl.
  destruct (processor.line_body cc st l) as [st' [|]]; cbn [fst] in Hl.
  - destruct (ctx k); [done|]. by apply IH.
  - by apply IH.
Qed.

(** Whatever the reader delivers, whatever the writer does and whenever
    the context is done, the counters that [ProcessStream] returns agree
    with the calls it made to the metrics collector: [ProcessedCount] is
    the number of all calls (a record that is written, a record that is
    filtered, and also a record that fails to decode or to be written),
    [FilteredCount] the number of [RecordFiltered] calls, every call
    reports one record, and [OutputSize] is never set. *)
Theorem ProcessStream_counters (reader : result (string * error))
  (output : W) :
  let st := (processor.ProcessStream cc ctx reader output).1 in
  processor.ProcessedCount (processor.res st)
  = Z.of_nat (List.length (processor.metrics st))
  ∧ processor.FilteredCount (processor.res st)
    = Z.of_nat (List.length
                  (List.filter xspec.is_filtered (processor.metrics st)))
  ∧ processor.OutputSize (processor.res st) = 0%Z
  ∧ Forall (fun m => m = processor.RecordProcessed 1
                     ∨ m = processor.RecordFiltered 1
                     ∨ ∃ e, m = processor.RecordError e)
           (processor.metrics st).
Proof.
  cbn zeta. change (xspec.counts_ok
                      (processor.ProcessStream cc ctx reader output).1).
  assert (∀ w : W, xspec.counts_ok (processor.initial w)) as H0.
  { intros w. unfold xspec.counts_ok. cbn. repeat split; constructor. }
  unfold processor.ProcessStream.
  destruct reader as [[input readErr]|e]; [|apply H0].
  destruct (processor.Write output _) as [w [e|]]; [apply H0|].
  destruct (processor.scan (processor.rawLines input)) as [lines tooLong].
  pose proof (counts_ok_lines_loop lines 0 (processor.initial w) (H0 w))
    as Hloop.
  destruct (processor.lines_loop cc ctx lines 0 (processor.initial w))
    as [st [e|]]; cbn [fst] in Hloop; [exact Hloop|].
  destruct tooLong as [e|]; [exact Hloop|].
  destruct readErr as [e|]; [exact Hloop|].
  destruct (processor.Write (processor.written st) "]}") as [w' [e|]];
    exact Hloop.
Qed.

End StreamCounters.
(** ** Streaming path: where the array opens *)

Lemma byte_is_not_quote (k : N) (c : ascii) :
  processor.byte_is k c = true → (k =? 34)%N = false →
  Ascii.eqb c json.quote = false.
Proof.
  unfold processor.byte_is. intros Hk Hne.
  destruct (Ascii.eqb_spec c json.quote) as [->|]; [|done].
  apply N.eqb_eq in Hk. rewrite <- Hk in Hne. done.
Qed.

Lemma in_range_not_quote (c : ascii) :
  re2.in_range 128 138 c = true → Ascii.eqb c json.quote = false.
Proof.
  intros H. destruct (Ascii.eqb_spec c json.quote) as [->|]; [|done].
  done.
Qed.

Lemma all_space_no_quote (n : nat) :
  ∀ s, (String.length s ≤ n)%nat → processor.all_space s = true →
       rules.all_bytes (fun c => negb (Ascii.eqb c json.quote)) s = true.
Proof.
  induction n as [|n IH]; intros s Hlen Hsp.
  { destruct s; [done|]. cbn in Hlen. lia. }
  destruct s as [|c r]; [done|]. cbn [String.length] in Hlen.
  cbn [processor.all_space] in Hsp. cbn [rules.all_bytes].
  destruct (existsb (fun k => processor.byte_is k c) [9; 10; 11; 12; 13; 32]%N)
    eqn:Hc.
  { apply existsb_exists in Hc as (k & Hin & Hk).
    rewrite (byte_is_not_quote k c Hk).
    - cbn [negb andb]. apply IH; [lia|done].
    - cbn in Hin. by repeat destruct Hin as [<-|Hin]. }
  destruct r as [|d r']; [done|]. cbn [String.length] in Hlen.
  destruct (processor.byte_is 194 c) eqn:H194.
  { apply andb_prop in Hsp as [Hd Hr'].
    rewrite (byte_is_not_quote 194 c H194 eq_refl).
    cbn [negb andb rules.all_bytes].
    apply orb_prop in Hd as [Hd|Hd];
      rewrite (byte_is_not_quote _ d Hd eq_refl);
      (apply IH; [lia|done]). }
  destruct r' as [|e r'']; [done|]. cbn [String.length] in Hlen.
  apply andb_prop in Hsp as [Hbytes Hr''].
  cbn [rules.all_bytes]. rewrite (IH r'' ltac:(lia) Hr'').
  assert (Ascii.eqb c json.quote = false ∧ Ascii.eqb d json.quote = false
          ∧ Ascii.eqb e json.quote = false) as (-> & -> & ->); [|done].
  repeat match goal with
         | H : (_ || _) = true |- _ => apply orb_prop in H as [H|H]
         | H : (_ && _) = true |- _ =>
             let H1 := fresh "H" in apply andb_prop in H as [H H1]
         end;
    repeat split;
    first [ eapply byte_is_not_quote; [eassumption|reflexivity]
          | by apply in_range_not_quote ].
Qed.

Lemma Contains_needs_first_byte (s : string) (q : ascii) (rest : string) :
  rules.all_bytes (fun c => negb (Ascii.eqb c q)) s = true →
  gostrings.Contains s (String q rest) = false.
Proof.
  induction s as [|c r IH]; [done|].
  cbn [rules.all_bytes]. intros H. apply andb_prop in H as [Hc Hr].
  cbn [gostrings.Contains gostrings.HasPrefix].
  apply negb_true_iff in Hc. by rewrite Hc, (IH Hr).
Qed.

Lemma all_space_no_token (line : string) :
  processor.all_space line = true →
  gostrings.Contains line processor.records_token = false.
Proof.
  intros H. apply Contains_needs_first_byte.
  by apply (all_space_no_quote (String.length line)).
Qed.

Lemma append_assoc_string (a b c : string) :
  ((a ++ b) ++ c)%string = (a ++ b ++ c)%string.
Proof.
  induction a as [|x a IH]; [done|]. rewrite !append_String. by f_equal.
Qed.

Section ArrayOpening.
Context {E : RegexpEngine} {D : JsonDecoder}.
Variable cc : rules.CachedConfiguration.
Variable ctx : nat → error.

Lemma line_body_before_token (st : processor.state string) (line : string) :
  processor.foundRecords st = false →
  gostrings.Contains line processor.records_token = false →
  processor.line_body cc st line = (st, false).
Proof.
  intros Hf Hc. unfold processor.line_body.
  destruct (processor.all_space line); [done|].
  rewrite Hf. cbn [negb]. by rewrite Hc.
Qed.

Lemma line_body_token_without_bracket (st : processor.state string)
  (line : string) :
  processor.foundRecords st = false →
  processor.inRecordsArray st = false →
  gostrings.Contains line processor.records_token = true →
  gostrings.IndexByte line "[" = None →
  processor.line_body cc st line = (processor.set_flags st true false, false).
Proof.
  intros Hf Hin Hc Hidx. unfold processor.line_body.
  destruct (processor.all_space line) eqn:Hsp.
  { apply all_space_no_token in Hsp. congruence. }
  rewrite Hf. cbn [negb]. rewrite Hc, Hidx, Hin. done.
Qed.

Lemma lines_loop_skip (pre rest : list string) (k : nat)
  (st : processor.state string) :
  Forall (fun l => processor.line_body cc st l = (st, false)) pre →
  processor.lines_loop cc ctx (pre ++ rest) k st
  = processor.lines_loop cc ctx rest k st.
Proof.
  intros Hall. induction Hall as [|l pre Hl _ IH]; [done|].
  cbn [app processor.lines_loop]. by rewrite Hl.
Qed.

(** When the first line that holds the text ["Records"] has no opening
    bracket on it (the bracket of the array comes on a later line),
    [ProcessStream] never enters the array: whatever follows, whatever
    the context does and however the reading ends, it hands no record
    to [processRecord], reports nothing to the metrics collector and
    writes, into a buffer, an empty array. *)
Theorem ProcessStream_bracket_on_later_line (input : string)
  (readErr : error) (output : string)
  (pre : list string) (line : string) (post : list string) :
  (processor.scan (processor.rawLines input)).1 = (pre ++ line :: post)%list →
  Forall (fun l => gostrings.Contains l processor.records_token = false) pre →
  gostrings.Contains line processor.records_token = true →
  gostrings.IndexByte line "[" = None →
  let out := processor.ProcessStream cc ctx (Ok (input, readErr)) output in
  processor.written out.1
  = (output ++ xspec.stream_header
     ++ match out.2 with
        | None => xspec.stream_footer
        | Some _ => EmptyString
        end)%string
  ∧ processor.metrics out.1 = []
  ∧ processor.ProcessedCount (processor.res out.1) = 0%Z
  ∧ out.2 = match (processor.scan (processor.rawLines input)).2, readErr with
            | Some e, _ | None, Some e => Some ("scanner error: " ++ e)%string
            | None, None => None
            end.
Proof.
  intros Hscan Hpre Hc Hidx. cbn zeta. unfold processor.ProcessStream.
  cbn [processor.Write processor.buffer].
  destruct (processor.scan (processor.rawLines input)) as [lines tooLong].
  cbn [fst] in Hscan. subst lines.
  set (st0 := processor.initial
                (output ++ "{" ++ processor.records_token ++ ":[")%string).
  assert (processor.foundRecords st0 = false) as Hf0 by reflexivity.
  assert (processor.inRecordsArray st0 = false) as Hin0 by reflexivity.
  rewrite (lines_loop_skip pre (line :: post) 0 st0).
  2:{ eapply list.Forall_impl; [exact Hpre|].
      intros l Hl. by apply line_body_before_token. }
  cbn [processor.lines_loop].
  rewrite (line_body_token_without_bracket st0 line Hf0 Hin0 Hc Hidx).
  set (st1 := processor.set_flags st0 true false).
  rewrite <- (app_nil_r post), (lines_loop_skip post [] 0 st1).
  2:{ apply list.Forall_forall. intros l _.
      by apply (line_body_after_close cc st1 l). }
  cbn [processor.lines_loop snd].
  destruct tooLong as [e|]; [|destruct readErr as [e|]]; cbn [fst snd];
    rewrite ?append_nil_r.
  - repeat split; reflexivity.
  - repeat split; reflexivity.
  - split; [|repeat split; reflexivity].
    cbn [processor.with_written processor.written].
    change (processor.written st1)
      with (output ++ xspec.stream_header)%string.
    apply append_assoc_string.
Qed.

End ArrayOpening.

Lemma ProcessStream_bracket_on_later_line_witness :
  let out := @processor.ProcessStream re2.engine json.decoder string
               processor.buffer examples.no_rules examples.live
               (Ok (more_examples.stream_pretty, None)) EmptyString in
  processor.written out.1 = json.dq "{'Records':[]}"
  ∧ processor.metrics out.1 = []
  ∧ processor.ProcessedCount (processor.res out.1) = 0%Z
  ∧ out.2 = None.
Proof.
  apply (@ProcessStream_bracket_on_later_line re2.engine json.decoder
           examples.no_rules examples.live more_examples.stream_pretty
           None EmptyString
           ["{"] (json.dq "  'Records':")
           [json.dq "  [{'a':'1'}]"; "}"]).
  - reflexivity.
  - repeat constructor.
  - reflexivity.
  - reflexivity.
Defined.
(** ** Streaming path: a document on one line *)

Lemma concat_cons2 (sep h h' : string) (t : list string) :
  String.concat sep (h :: h' :: t)
  = (h ++ sep ++ String.concat sep (h' :: t))%string.
Proof. done. Qed.

Lemma concat_snoc (sep : string) (ks : list string) (r : string) :
  String.concat sep (ks ++ [r])
  = match ks with
    | [] => r
    | _ :: _ => (String.concat sep ks ++ sep ++ r)%string
    end.
Proof.
  induction ks as [|k ks IH]; [done|].
  destruct ks as [|k' ks].
  - cbn [app]. by rewrite concat_cons2.
  - change ((k :: k' :: ks) ++ [r]) with (k :: k' :: (ks ++ [r])).
    rewrite !concat_cons2.
    change (k' :: ks ++ [r]) with ((k' :: ks) ++ [r]).
    rewrite IH. by rewrite !append_assoc_string.
Qed.

Lemma IndexByte_app_None (a b : string) (c : ascii) :
  gostrings.IndexByte a c = None → gostrings.IndexByte b c = None →
  gostrings.IndexByte (a ++ b) c = None.
Proof.
  intros Ha Hb. induction a as [|x a IH]; [done|].
  rewrite append_String. cbn [gostrings.IndexByte] in Ha |- *.
  destruct (Ascii.eqb x c); [done|].
  destruct (gostrings.IndexByte a c); [done|]. by rewrite IH.
Qed.

Lemma IndexByte_concat_None (sep : string) (rs : list string) (c : ascii) :
  gostrings.IndexByte sep c = None →
  Forall (fun r => gostrings.IndexByte r c = None) rs →
  gostrings.IndexByte (String.concat sep rs) c = None.
Proof.
  intros Hsep Hall. induction Hall as [|r rs Hr Hrs IH]; [done|].
  destruct rs as [|r' rs]; [done|]. rewrite concat_cons2.
  by repeat apply IndexByte_app_None.
Qed.

Lemma rawLines_one_line (s : string) :
  gostrings.IndexByte s "010" = None → s ≠ EmptyString →
  processor.rawLines s = [s].
Proof.
  induction s as [|c r IH]; [done|]. intros Hnl _.
  cbn [gostrings.IndexByte] in Hnl. cbn [processor.rawLines].
  destruct (Ascii.eqb c "010"); [done|].
  destruct r as [|d r]; [done|].
  rewrite IH; [done| |done].
  by destruct (gostrings.IndexByte (String d r) "010").
Qed.

Lemma dropCR_cons (c : ascii) (r : string) :
  r ≠ EmptyString →
  processor.dropCR (String c r) = String c (processor.dropCR r).
Proof.
  intros Hr. destruct r as [|d r]; [done|].
  by destruct c as [[] [] [] [] [] [] [] []].
Qed.

Lemma dropCR_footer (a : string) :
  processor.dropCR (a ++ xspec.stream_footer) = (a ++ xspec.stream_footer)%string.
Proof.
  induction a as [|c a IH]; [done|].
  rewrite append_String, dropCR_cons, IH; [done|].
  by destruct a.
Qed.

Section OneLine.
Context {E : RegexpEngine} {D : JsonDecoder}.
Variable cc : rules.CachedConfiguration.
Variable ctx : nat → error.

Lemma bytes_loop_app (a b : string) :
  ∀ st, processor.bytes_loop cc st (a ++ b)
        = processor.bytes_loop cc (processor.bytes_loop cc st a) b.
Proof.
  induction a as [|c a IH]; intros st; [done|].
  rewrite append_String. cbn [processor.bytes_loop]. apply IH.
Qed.

Lemma processRecord_after (st : processor.state string) (record : string) :
  (let '(st', err) :=
     processor.processRecord cc record (processor.with_buffer st 0 record) in
   processor.with_buffer
     match err with
     | Some e =>
         {| processor.foundRecords := processor.foundRecords st';
            processor.inRecordsArray := processor.inRecordsArray st';
            processor.bracketDepth := processor.bracketDepth st';
            processor.recordBuffer := processor.recordBuffer st';
            processor.firstRecord := processor.firstRecord st';
            processor.res := processor.res st';
            processor.written := processor.written st';
            processor.metrics :=
              (processor.metrics st' ++ [processor.RecordError e])%list |}
     | None => st'
     end 0 EmptyString)
  = xspec.after_record cc st record.
Proof.
  unfold processor.processRecord, processor.shouldFilterRecord,
    xspec.after_record, xspec.metric_of, spec.keeps, spec.decodes.
  destruct (Unmarshal_map record ∅) as [rec|]; [|done].
  destruct (EvalRules_no_error cc rec) as (b & d & ->).
  destruct b; [done|].
  cbn [processor.with_buffer processor.firstRecord processor.written
       fst snd negb].
  by destruct (processor.firstRecord st).
Qed.

Lemma bytes_loop_closes (w : string) :
  ∀ (d : nat) (st : processor.state string),
    xspec.closes d w = true → (1 ≤ d)%nat →
    processor.bracketDepth st = Z.of_nat d →
    processor.bytes_loop cc st w
    = xspec.after_record cc st (processor.recordBuffer st ++ w).
Proof.
  induction w as [|c r IH]; intros d st Hcl Hd Hdepth; [done|].
  cbn [xspec.closes] in Hcl. cbn [processor.bytes_loop].
  unfold processor.byte_step.
  assert (∀ (depth : Z) (b : ascii),
             (processor.recordBuffer st ++ String b r)%string
             = (processor.recordBuffer
                  (processor.with_buffer st depth
                     (processor.append_byte (processor.recordBuffer st) b))
                ++ r)%string) as Hbuf.
  { intros depth b. cbn [processor.with_buffer processor.recordBuffer].
    unfold processor.append_byte. by rewrite append_assoc_string. }
  destruct (Ascii.eqb_spec c "{") as [->|_].
  { destruct (Z.eqb_spec (processor.bracketDepth st) 0); [lia|].
    rewrite (IH (S d)); [|done|lia|cbn; lia].
    by rewrite <- Hbuf. }
  destruct (Ascii.eqb_spec c "}") as [->|_].
  { destruct d as [|[|d]]; [lia| |].
    - apply String.eqb_eq in Hcl as ->.
      rewrite Hdepth. change (Z.of_nat 1 - 1 =? 0)%Z with true.
      rewrite append_byte_length. cbn [andb processor.bytes_loop].
      apply processRecord_after.
    - destruct (Z.eqb_spec (processor.bracketDepth st - 1) 0); [lia|].
      cbn [andb].
      rewrite (IH (S d)); [|done|lia|cbn; lia].
      by rewrite <- Hbuf. }
  destruct (Ascii.eqb c "]").
  { destruct (Z.eqb_spec (processor.bracketDepth st) 0); [lia|].
    rewrite (IH d); [|done|lia|cbn; lia].
    by rewrite <- Hbuf. }
  destruct (Z.ltb_spec 0 (processor.bracketDepth st)); [|lia].
  rewrite (IH d); [|done|lia|cbn; lia].
  by rewrite <- Hbuf.
Qed.

Lemma bytes_loop_record (st : processor.state string) (record : string) :
  xspec.balanced record = true →
  processor.bracketDepth st = 0%Z →
  processor.bytes_loop cc st record = xspec.after_record cc st record.
Proof.
  intros Hbal Hdepth. destruct record as [|c r]; [done|].
  cbn [xspec.balanced] in Hbal. apply andb_prop in Hbal as [Hc Hcl].
  apply Ascii.eqb_eq in Hc as ->.
  cbn [processor.bytes_loop]. unfold processor.byte_step.
  cbn [Ascii.eqb Bool.eqb]. rewrite Hdepth. cbn [Z.eqb].
  by rewrite (bytes_loop_closes r 1 _ Hcl).
Qed.

Lemma bytes_loop_records (rs : list string) (tail : string) :
  ∀ st,
    Forall (fun r => xspec.balanced r = true) rs →
    processor.bracketDepth st = 0%Z →
    processor.bytes_loop cc st (String.concat "," rs ++ tail)
    = processor.bytes_loop cc (fold_left (xspec.after_record cc) rs st) tail.
Proof.
  induction rs as [|r rs IH]; intros st Hall Hdepth; [done|].
  apply list.Forall_cons in Hall as [Hr Hall].
  destruct rs as [|r' rs].
  - change (String.concat "," [r]) with r. cbn [fold_left].
    rewrite bytes_loop_app. by rewrite (bytes_loop_record st r Hr Hdepth).
  - rewrite concat_cons2, !append_assoc_string, bytes_loop_app.
    rewrite (bytes_loop_record st r Hr Hdepth).
    rewrite append_String. cbn [processor.bytes_loop].
    change (processor.byte_step cc (xspec.after_record cc st r) ",")
      with (xspec.after_record cc st r).
    change (EmptyString ++ ?x)%string with x.
    by rewrite IH.
Qed.

Lemma fold_after_record_written (header : string) (rs : list string) :
  ∀ (st : processor.state string) (ks : list string),
    processor.written st = (header ++ String.concat "," ks)%string →
    processor.firstRecord st = match ks with [] => true | _ => false end →
    processor.written (fold_left (xspec.after_record cc) rs st)
    = (header
       ++ String.concat "," (ks ++ List.filter (spec.keeps cc) rs))%string.
Proof.
  induction rs as [|r rs IH]; intros st ks Hw Hf.
  - cbn. by rewrite app_nil_r.
  - cbn [fold_left List.filter].
    destruct (spec.keeps cc r) eqn:Hk.
    + rewrite (IH _ (ks ++ [r])).
      * by rewrite <- app_assoc.
      * unfold xspec.after_record. cbn [processor.written]. rewrite Hk, Hw, Hf.
        rewrite concat_snoc. destruct ks as [|k ks].
        -- by rewrite !append_assoc_string.
        -- by rewrite !append_assoc_string.
      * unfold xspec.after_record. cbn [processor.firstRecord]. rewrite Hk.
        by destruct ks.
    + apply IH.
      * unfold xspec.after_record. cbn [processor.written]. by rewrite Hk.
      * unfold xspec.after_record. cbn [processor.firstRecord]. by rewrite Hk.
Qed.

Lemma fold_after_record_counts (rs : list string) :
  ∀ st : processor.state string,
    let st' := fold_left (xspec.after_record cc) rs st in
    processor.metrics st'
    = (processor.metrics st ++ map (xspec.metric_of cc) rs)%list
    ∧ processor.ProcessedCount (processor.res st')
      = (processor.ProcessedCount (processor.res st)
         + Z.of_nat (List.length rs))%Z
    ∧ processor.FilteredCount (processor.res st')
      = (processor.FilteredCount (processor.res st)
         + Z.of_nat
             (List.length
                (List.filter
                   (fun r => spec.decodes r && negb (spec.keeps cc r)) rs)))%Z.
Proof.
  induction rs as [|r rs IH]; intros st; cbn zeta.
  - cbn. rewrite app_nil_r. split; [done|]. split; lia.
  - cbn [fold_left]. specialize (IH (xspec.after_record cc st r)).
    cbn zeta in IH. destruct IH as (Hm & Hp & Hf).
    rewrite Hm, Hp, Hf. unfold xspec.after_record.
    cbn [processor.metrics processor.res map List.filter].
    rewrite <- app_assoc. split; [done|].
    destruct (spec.keeps cc r), (spec.decodes r);
      cbn [processor.add_processed processor.add_filtered
           processor.ProcessedCount processor.FilteredCount
           andb negb List.length]; lia.
Qed.

(** For a document on one line, [{"Records":[r1,...,rn]}], in which every
    record opens with a brace that its last byte closes and no record
    holds a newline, read without error and written into a buffer:
    [ProcessStream] hands exactly the records [r1], ..., [rn] to
    [processRecord], in order, and looks at the context once, after the
    line.  It writes the header and the records that decode and that no
    rule drops, as they are in the input and separated by commas, and
    reports each record to the metrics collector as written, filtered or
    failed.  When the context is done at that look, it returns the error
    of the context and writes no footer; when the context is live, it
    writes the footer and returns no error, and then, when
    [FilterRecords] succeeds on the same records, what is written is the
    document of the records that [FilterRecords] returns. *)
Theorem ProcessStream_one_line (rs : list string) (output : string) :
  Forall (fun r => xspec.balanced r = true) rs →
  Forall (fun r => gostrings.IndexByte r "010" = None) rs →
  (N.of_nat (String.length
               (xspec.stream_header ++ String.concat "," rs
                ++ xspec.stream_footer))
   < processor.maxTokenSize)%N →
  let out := processor.ProcessStream cc ctx
               (Ok ((xspec.stream_header ++ String.concat "," rs
                     ++ xspec.stream_footer)%string, None))
               output in
  out.2 = ctx 0%nat
  ∧ processor.written out.1
    = (output ++ xspec.stream_header
       ++ String.concat "," (List.filter (spec.keeps cc) rs)
       ++ match ctx 0%nat with
          | None => xspec.stream_footer
          | Some _ => EmptyString
          end)%string
  ∧ processor.metrics out.1 = map (xspec.metric_of cc) rs
  ∧ processor.ProcessedCount (processor.res out.1)
    = Z.of_nat (List.length rs)
  ∧ processor.FilteredCount (processor.res out.1)
    = Z.of_nat
        (List.length
           (List.filter (fun r => spec.decodes r && negb (spec.keeps cc r))
                        rs))
  ∧ (ctx 0%nat = None →
     ∀ (pool : list (gmap string value))
       (outct : cloudtrailprocessor.Cloudtrail),
       spec.pool_ok pool →
       (cloudtrailprocessor.FilterRecords
          {| cloudtrailprocessor.Records := rs |} cc pool).1 = Ok outct →
       processor.written out.1
       = (output ++ xspec.stream_header
          ++ String.concat "," (cloudtrailprocessor.Records outct)
          ++ xspec.stream_footer)%string).
Proof.
  intros Hbal Hnl Hlen. cbn zeta.
  set (body := (String.concat "," rs ++ xspec.stream_footer)%string) in *.
  set (input := (xspec.stream_header ++ body)%string) in *.
  assert (processor.scan (processor.rawLines input) = ([input], None))
    as Hscan.
  { rewrite rawLines_one_line.
    - cbn [processor.scan].
      destruct (N.leb_spec processor.maxTokenSize
                  (N.of_nat (String.length input))); [lia|].
      subst input body. rewrite <- append_assoc_string.
      by rewrite dropCR_footer.
    - subst input body. apply IndexByte_app_None; [done|].
      apply IndexByte_app_None; [|done].
      by apply IndexByte_concat_None.
    - done. }
  unfold processor.ProcessStream. cbn [processor.Write processor.buffer].
  rewrite Hscan. cbn [processor.lines_loop].
  set (st0 := processor.initial
                (output ++ "{" ++ processor.records_token ++ ":[")%string).
  assert (processor.line_body cc st0 input
          = (processor.bytes_loop cc (processor.set_flags st0 true true) body,
             true))
    as Hline by reflexivity.
  rewrite Hline. subst body.
  assert (Hd0 : processor.bracketDepth (processor.set_flags st0 true true)
                = 0%Z) by reflexivity.
  rewrite (bytes_loop_records rs _ _ Hbal Hd0).
  set (st1 := fold_left (xspec.after_record cc) rs
                (processor.set_flags st0 true true)).
  assert (processor.bracketDepth st1 = 0%Z) as Hd1.
  { subst st1. revert Hd0. generalize (processor.set_flags st0 true true).
    clear. induction rs as [|r rs IH]; intros st Hst; [done|].
    cbn [fold_left]. by apply IH. }
  set (st2 := processor.bytes_loop cc st1 xspec.stream_footer).
  assert (processor.written st2 = processor.written st1
          ∧ processor.metrics st2 = processor.metrics st1
          ∧ processor.res st2 = processor.res st1) as (Hw & Hm & Hr).
  { subst st2. cbn [xspec.stream_footer processor.bytes_loop].
    unfold processor.byte_step at 2. cbn [Ascii.eqb Bool.eqb].
    rewrite Hd1. cbn [Z.eqb].
    unfold processor.byte_step. cbn [Ascii.eqb Bool.eqb].
    cbn [processor.bracketDepth]. rewrite Hd1.
    change (0 - 1 =? 0)%Z with false. cbn [andb]. done. }
  assert (processor.written (processor.set_flags st0 true true)
          = ((output ++ xspec.stream_header) ++ String.concat "," [])%string)
    as Hw0.
  { cbn [String.concat]. by rewrite append_nil_r. }
  assert (processor.firstRecord (processor.set_flags st0 true true) = true)
    as Hf0 by reflexivity.
  pose proof (fold_after_record_written (output ++ xspec.stream_header) rs
                (processor.set_flags st0 true true) [] Hw0 Hf0)
    as Hwritten.
  pose proof (fold_after_record_counts rs (processor.set_flags st0 true true))
    as Hcounts.
  cbn zeta in Hcounts. fold st1 in Hwritten, Hcounts.
  destruct Hcounts as (Hmet & Hproc & Hfilt).
  cbn [app] in Hwritten. rewrite append_assoc_string in Hwritten.
  destruct (ctx 0%nat) as [e|] eqn:Hctx; cbn [fst snd].
  - split; [done|]. split.
    { rewrite Hw, Hwritten. by rewrite append_nil_r. }
    split; [by rewrite Hm, Hmet|].
    split; [by rewrite Hr, Hproc|].
    split; [by rewrite Hr, Hfilt|]. done.
  - cbn [processor.lines_loop fst snd].
    assert (processor.written
              (processor.with_written st2
                 (processor.written st2 ++ "]}")%string)
            = (output ++ xspec.stream_header
               ++ String.concat "," (List.filter (spec.keeps cc) rs)
               ++ xspec.stream_footer)%string) as Hfinal.
    { cbn [processor.with_written processor.written]. rewrite Hw, Hwritten.
      by rewrite !append_assoc_string. }
    split; [done|]. split; [exact Hfinal|].
    split.
    { cbn [processor.with_written processor.metrics]. by rewrite Hm, Hmet. }
    split.
    { cbn [processor.with_written processor.res]. by rewrite Hr, Hproc. }
    split.
    { cbn [processor.with_written processor.res]. by rewrite Hr, Hfilt. }
    intros _ pool outct Hpool Hrun.
    destruct (FilterRecords_spec cc {| cloudtrailprocessor.Records := rs |}
                pool Hpool) as [Hres _].
    rewrite Hrun in Hres. cbn [cloudtrailprocessor.Records] in Hres.
    destruct (spec.filter_from cc rs []) as [kept|e] eqn:Hff; [|done].
    injection Hres as ->.
    pose proof (filter_from_Ok cc _ _ _ Hff) as Hdec.
    rewrite (filter_from_decoded cc _ _ Hdec) in Hff.
    injection Hff as <-. exact Hfinal.
Qed.

End OneLine.

Lemma ProcessStream_one_line_witness :
  let out := @processor.ProcessStream re2.engine json.decoder string
               processor.buffer examples.kms_cached examples.live
               (Ok ((xspec.stream_header
                     ++ String.concat ","
                          [examples.kms_record; examples.logs_record]
                     ++ xspec.stream_footer)%string, None))
               EmptyString in
  out.2 = None
  ∧ processor.written out.1
    = (xspec.stream_header ++ examples.logs_record ++ xspec.stream_footer)%string
  ∧ processor.metrics out.1
    = [processor.RecordFiltered 1; processor.RecordProcessed 1].
Proof.
  assert (Forall (fun r => xspec.balanced r = true)
                 [examples.kms_record; examples.logs_record]) as Hbal
    by (repeat constructor).
  assert (Forall (fun r => gostrings.IndexByte r "010" = None)
                 [examples.kms_record; examples.logs_record]) as Hnl
    by (repeat constructor).
  assert (N.of_nat (String.length
                      (xspec.stream_header
                       ++ String.concat ","
                            [examples.kms_record; examples.logs_record]
                       ++ xspec.stream_footer))
          < processor.maxTokenSize)%N as Hlen by reflexivity.
  destruct (@ProcessStream_one_line re2.engine json.decoder
              examples.kms_cached examples.live
              [examples.kms_record; examples.logs_record] EmptyString
              Hbal Hnl Hlen)
    as (Herr & Hwritten & Hmetrics & _).
  split; [exact Herr|].
  split; [rewrite Hwritten; reflexivity|rewrite Hmetrics; reflexivity].
Defined.
(** ** [rules]: a rule without matches *)

Section EmptyRule.
Context {E : RegexpEngine} {D : JsonDecoder}.

Lemma filter_none {A : Type} (f : A → bool) (l : list A) :
  (∀ x, f x = false) → List.filter f l = [].
Proof.
  intros Hf. induction l as [|x l IH]; [done|]. cbn. by rewrite Hf.
Qed.

(** A rule that has no match at all matches every event.  A compiled
    rule set that holds such a rule drops every event, so that
    [FilterRecords] returns no record; the uncompiled evaluator, when it
    returns no error, drops every event too. *)
Theorem rule_without_matches_drops_every_event :
  (∀ (cc : rules.CachedConfiguration) (evt : gmap string value),
      (∃ r, r ∈ rules.CRules cc ∧ rules.CMatches r = []) →
      (rules.CachedConfiguration_EvalRules cc evt).1.1 = true)
  ∧ (∀ (cc : rules.CachedConfiguration)
       (inct : cloudtrailprocessor.Cloudtrail)
       (pool : list (gmap string value)),
        (∃ r, r ∈ rules.CRules cc ∧ rules.CMatches r = []) →
        spec.pool_ok pool →
        Forall (fun rec => spec.decodes rec = true)
               (cloudtrailprocessor.Records inct) →
        (cloudtrailprocessor.FilterRecords inct cc pool).1
        = Ok {| cloudtrailprocessor.Records := [] |})
  ∧ (∀ (cfg : rules.Configuration) (evt : gmap string value),
        (∃ r, r ∈ rules.Rules cfg ∧ rules.Matches r = []) →
        (rules.Configuration_EvalRules cfg evt).2 = None →
        (rules.Configuration_EvalRules cfg evt).1.1 = true).
Proof.
  assert (∀ (cc : rules.CachedConfiguration) (evt : gmap string value),
             (∃ r, r ∈ rules.CRules cc ∧ rules.CMatches r = []) →
             (rules.CachedConfiguration_EvalRules cc evt).1.1 = true)
    as Hcached.
  { intros cc evt (r & Hin & Hms).
    unfold rules.CachedConfiguration_EvalRules.
    apply EvalRules_loop_drop_iff. exists r. split; [done|].
    unfold spec.rule_matches. by rewrite Hms. }
  split; [exact Hcached|]. split.
  - intros cc inct pool Hempty Hpool Hdec.
    destruct (FilterRecords_spec cc inct pool Hpool) as [Hres _].
    rewrite Hres, (filter_from_decoded cc _ _ Hdec). cbn [app].
    rewrite filter_none; [done|].
    intros record. unfold spec.keeps.
    destruct (Unmarshal_map record ∅) as [rec|]; [|done].
    by rewrite (Hcached cc rec Hempty).
  - intros cfg evt (r & Hin & Hms). unfold rules.Configuration_EvalRules.
    induction (rules.Rules cfg) as [|r0 rs IH].
    { by apply elem_of_nil in Hin. }
    cbn [rules.Configuration_EvalRules_loop].
    apply elem_of_cons in Hin as [<-|Hin].
    + unfold rules.Rule_Eval. rewrite Hms. done.
    + destruct (rules.Rule_Eval r0 evt) as [[[|] d] [e|]]; try done.
      by apply IH.
Qed.

End EmptyRule.

Lemma rule_without_matches_drops_every_event_witness :
  (@cloudtrailprocessor.FilterRecords re2.engine json.decoder
     examples.trail
     {| rules.CRules := [ {| rules.CName := "empty"; rules.CMatches := [] |} ] |}
     []).1
  = Ok {| cloudtrailprocessor.Records := [] |}.
Proof.
  apply (proj1 (proj2 (@rule_without_matches_drops_every_event
                         re2.engine json.decoder))).
  - eexists. split; [left|reflexivity].
  - constructor.
  - repeat constructor.
Defined.

Lemma ValidateIsRegex_length_boundary_witness :
  rules.ValidateIsRegex (E := re2.engine) more_examples.long_pattern = false.
Proof.
  apply (proj2 (@ValidateIsRegex_length_boundary re2.engine
                  more_examples.long_pattern)).
  vm_compute. reflexivity.
Defined.
(** ** [config]: the caching loader *)

Section CachingLoader.
Context {E : RegexpEngine} {Src : Type}.
Variable loader_Load : Src → result rules.Configuration * Src.

(** [CachedConfigLoader.Load], for a loader whose configuration comes
    with its compiled form, for instance a new one.  While the
    configuration it holds is younger than the TTL, at the first or at
    the second look at the clock, it returns that configuration and does
    not call the underlying loader.  Otherwise it calls the underlying
    loader once.  When that fails, it returns the loader's error; when a
    pattern of the new configuration does not compile, it returns the
    error "failed to prepare cached rules"; in both cases it keeps the
    configuration, the compiled rules and the load time it had.  When
    every pattern compiles, it returns the new configuration and holds
    it, with its compiled form and the time of the load.  When it
    returns a configuration, it holds that configuration, and
    [LoadCached] returns its compiled form and never nil rules. *)
Theorem CachedConfigLoader_Load (now1 now2 now3 : Z)
  (l : config.CachedConfigLoader) (src : Src) (cache : gmap string Regexp) :
  spec.cache_ok cache →
  xspec.loader_ok l →
  let out := config.Load loader_Load now1 now2 now3 l src cache in
  xspec.loader_ok out.1.1.2
  ∧ spec.cache_ok out.2
  ∧ config.ttl out.1.1.2 = config.ttl l
  ∧ (∀ c, config.cached_at l now1 = Some c → out = (Ok c, l, src, cache))
  ∧ (config.cached_at l now1 = None →
     ∀ c, config.cached_at l now2 = Some c → out = (Ok c, l, src, cache))
  ∧ (config.cached_at l now1 = None → config.cached_at l now2 = None →
     out.1.2 = (loader_Load src).2
     ∧ (∀ e src', loader_Load src = (Err e, src') →
                  out = (Err e, l, src', cache))
     ∧ (∀ c src', loader_Load src = (Ok c, src') →
          ((∃ r m, r ∈ rules.Rules c ∧ m ∈ rules.Matches r
                   ∧ Compile (rules.Regex m) = None) →
           out.1.1 = (Err "failed to prepare cached rules", l))
          ∧ ((∀ r m, r ∈ rules.Rules c → m ∈ rules.Matches r →
                     Compile (rules.Regex m) ≠ None) →
             ∃ cc,
               rules.PrepareConfiguration c cache = (Some cc, out.2)
               ∧ out.1.1
                 = (Ok c,
                    {| config.ttl := config.ttl l;
                       config.lastLoaded := now3;
                       config.config_ := Some c;
                       config.cachedRules := Some cc |}))))
  ∧ (∀ e, out.1.1.1 = Err e → out.1.1.2 = l)
  ∧ (∀ c, out.1.1.1 = Ok c →
          config.config_ out.1.1.2 = Some c
          ∧ ∃ cc,
              config.LoadCached loader_Load now1 now2 now3 l src cache
              = (Ok (Some cc), out.1.1.2, out.1.2, out.2)
              ∧ Forall2 spec.rule_compiles_to (rules.Rules c) (rules.CRules cc)).
Proof.
  intros Hok Hl. cbn zeta. unfold config.LoadCached, config.Load.
  assert (∀ now c, config.cached_at l now = Some c → config.config_ l = Some c)
    as Hcached.
  { intros now c. unfold config.cached_at.
    destruct (config.config_ l) as [c0|]; [|done].
    by destruct (now - config.lastLoaded l <? config.ttl l)%Z. }
  destruct (config.cached_at l now1) as [c1|] eqn:H1.
  { cbn [fst snd]. split; [done|]. split; [done|]. split; [done|].
    split; [by intros c [= <-]|]. split; [done|]. split; [done|].
    split; [done|].
    intros c [= <-]. split; [by apply (Hcached now1)|].
    destruct (Hl c1 (Hcached _ _ H1)) as (cc & Hcc & Hall).
    exists cc. by rewrite Hcc. }
  destruct (config.cached_at l now2) as [c2|] eqn:H2.
  { cbn [fst snd]. split; [done|]. split; [done|]. split; [done|].
    split; [done|]. split; [by intros _ c [= <-]|]. split; [done|].
    split; [done|].
    intros c [= <-]. split; [by apply (Hcached now2)|].
    destruct (Hl c2 (Hcached _ _ H2)) as (cc & Hcc & Hall).
    exists cc. by rewrite Hcc. }
  destruct (loader_Load src) as [[c|e] src'] eqn:Hload.
  2:{ cbn [fst snd]. split; [done|]. split; [done|]. split; [done|].
      split; [done|]. split; [done|].
      split.
      { intros _ _. split; [done|]. split; [by intros e0 s0 [= <- <-]|].
        intros c0 s0 [=]. }
      split; [done|]. done. }
  pose proof (prepareRules_fails_iff (rules.Rules c) cache Hok) as Hfails.
  assert ((rules.PrepareConfiguration c cache).1
          = (rules.prepareRules (rules.Rules c) cache).1
              ≫= λ crs, Some {| rules.CRules := crs |}) as Hprep.
  { unfold rules.PrepareConfiguration.
    by destruct (rules.prepareRules (rules.Rules c) cache) as [[crs|] c1]. }
  destruct (rules.PrepareConfiguration c cache) as [[cc|] cache'] eqn:Hp.
  - destruct (PrepareConfiguration_ok _ _ _ _ Hok Hp) as [Hall Hok'].
    cbn [fst snd config.ttl config.config_ config.cachedRules].
    split.
    { intros c0 [= <-]. exists cc. done. }
    split; [done|]. split; [done|]. split; [done|]. split; [done|].
    split.
    { intros _ _. split; [done|]. split; [intros e0 s0 [=]|].
      intros c0 s0 [= <- <-]. split.
      - intros Hex. apply Hfails in Hex. rewrite Hex in Hprep.
        discriminate Hprep.
      - intros _. by exists cc. }
    split; [done|]. intros c0 [= <-]. split; [done|]. by exists cc.
  - cbn [fst snd]. split; [done|]. split.
    { unfold rules.PrepareConfiguration in Hp.
      pose proof (prepareRules_cache_ok (rules.Rules c) cache Hok) as H.
      destruct (rules.prepareRules (rules.Rules c) cache) as [[crs|] c1];
        [done|]. by injection Hp as <-. }
    split; [done|]. split; [done|]. split; [done|].
    split.
    { intros _ _. split; [done|]. split; [intros e0 s0 [=]|].
      intros c0 s0 [= <- <-]. split; [done|].
      intros Hall. exfalso.
      assert ((rules.prepareRules (rules.Rules c) cache).1 = None) as Hnone.
      { cbn [fst] in Hprep.
        by destruct ((rules.prepareRules (rules.Rules c) cache).1). }
      apply Hfails in Hnone as (r & m & Hr & Hm & Hc).
      by apply (Hall r m Hr Hm). }
    split; [done|]. done.
Qed.

End CachingLoader.

Lemma CachedConfigLoader_Load_witness :
  let first := config.Load (E := re2.engine) more_examples.kms_source
                 100 100 100 (config.NewCachedConfigLoader 50) 0%nat ∅ in
  first.1.1.1 = Ok examples.kms_cfg
  ∧ first.1.2 = 1%nat
  ∧ config.Load (E := re2.engine) more_examples.kms_source
      120 120 120 first.1.1.2 first.1.2 first.2
    = (Ok examples.kms_cfg, first.1.1.2, 1%nat, first.2)
  ∧ config.Load (E := re2.engine) more_examples.failing_source
      150 150 150 first.1.1.2 first.1.2 first.2
    = (Err "access denied", first.1.1.2, 2%nat, first.2).
Proof.
  cbn zeta.
  assert (spec.cache_ok (E := re2.engine) ∅) as Hok.
  { intros p re Hp. by rewrite lookup_empty in Hp. }
  assert (xspec.loader_ok (E := re2.engine) (config.NewCachedConfigLoader 50))
    as Hnew by (intros c Hc; discriminate Hc).
  destruct (@CachedConfigLoader_Load re2.engine nat more_examples.kms_source
              100 100 100 (config.NewCachedConfigLoader 50) 0%nat ∅ Hok Hnew)
    as (Hl1 & Hok1 & _).
  split; [reflexivity|]. split; [reflexivity|]. split.
  - destruct (@CachedConfigLoader_Load re2.engine nat
                more_examples.kms_source
                120 120 120 _ 1%nat _ Hok1 Hl1)
      as (_ & _ & _ & Hfresh & _).
    by apply Hfresh.
  - destruct (@CachedConfigLoader_Load re2.engine nat
                more_examples.failing_source
                150 150 150 _ 1%nat _ Hok1 Hl1)
      as (_ & _ & _ & _ & _ & Hstale & _).
    destruct Hstale as (_ & Herr & _); [reflexivity|reflexivity|].
    by apply Herr.
Defined.
